(** * RAGFile: the single-file container of [ragfile_utils.py]

    A shallow embedding of [RAGFileWriter] and [RAGFileReader]
    (schema v0.1.0) and the properties of the container that follow from
    the code: the padding discipline, the frame behaviour of the section
    writers, the placement of the index table at [finalize], the index
    parser and the windowed keyword scan.

    Python values are modelled as follows.
    - [bytes] / [bytearray] / the mapped file: [list byte].
    - [str]: the list of its code points ([list N]); [encode_utf8] and
      [decode_utf8] are the strict UTF-8 codec of [str.encode] and
      [bytes.decode].
    - [int]: [Z]; the conversions between [int] and text ([format_int],
      [py_int]) are those of CPython 3.11 with its default limit of 4300
      digits and its table of decimal digits (Unicode 14.0).
    - an object mutated in place by methods that may raise: a state and
      exception monad over the record of its attributes; the state that
      comes back with an exception is the state the object is left in.
    - [dict] used as a map ([RAGFileReader._index]): [gmap]. *)

From Stdlib Require Import ZArith NArith List Lia Bool DecimalPos.
From Stdlib.Strings Require Import Byte Ascii String.
From stdpp Require Import base option list gmap.
From Equations Require Import Equations.
Import ListNotations.

#[local] Open Scope Z_scope.

#[global] Instance byte_eq_dec : EqDecision byte := Byte.byte_eq_dec.

(** Python [str]: a sequence of code points. *)
Abbreviation str := (list N).

(** ** Exceptions and the object monad *)

Inductive exn : Type :=
| AssertionError      (* a failed [assert] *)
| StructError         (* [struct.error]: value out of range for the format *)
| ZeroDivisionError   (* [%] by zero *)
| UnicodeEncodeError  (* [str.encode] on a lone surrogate *)
| UnicodeDecodeError  (* [bytes.decode] on ill-formed UTF-8 *)
| ValueError.         (* [mmap.mmap] on an empty file, an [int] beyond
                         the digit limit, [read] below -1 *)

Definition result (A : Type) : Type := (exn + A)%type.

(** A method of an object with attributes [S]: it steps the attributes and
    either returns or raises.  Mutations made before a raise persist. *)
Definition M (S A : Type) : Type := S -> S * result A.

Definition ret {S A} (a : A) : M S A := fun s => (s, inr a).

Definition bind {S A B} (m : M S A) (k : A -> M S B) : M S B :=
  fun s => match m s with
           | (s', inr a) => k a s'
           | (s', inl e) => (s', inl e)
           end.

Definition raise {S A} (e : exn) : M S A := fun s => (s, inl e).

Definition get {S} : M S S := fun s => (s, inr s).

Definition modify {S} (f : S -> S) : M S unit := fun s => (f s, inr tt).

(** An expression that may raise, evaluated inside a method. *)
Definition lift {S A} (r : result A) : M S A := fun s => (s, r).

Notation "x <- c ;; k" := (bind c (fun x => k))
  (at level 100, c at next level, right associativity).
Notation "c ;;; k" := (bind c (fun _ => k))
  (at level 100, right associativity).

(** [for x in xs: body x] *)
Fixpoint for_each {S A} (xs : list A) (body : A -> M S unit) : M S unit :=
  match xs with
  | [] => ret tt
  | x :: xs' => body x ;;; for_each xs' body
  end.

(** The same sequencing for expressions without an object. *)
Definition rbind {A B} (r : result A) (k : A -> result B) : result B :=
  match r with
  | inr a => k a
  | inl e => inl e
  end.

(** ** Python sequences *)

Section Sequences.
Context {A : Type}.

(** [PySlice_AdjustIndices] for step 1: a negative index counts from the
    end, and both ends are clipped to the sequence. *)
Definition adjust_index (len i : Z) : Z :=
  if i <? 0 then Z.max (i + len) 0 else Z.min i len.

(** [l[lo:hi]] *)
Definition py_slice (l : list A) (lo hi : Z) : list A :=
  let len := Z.of_nat (length l) in
  let lo' := adjust_index len lo in
  let hi' := adjust_index len hi in
  firstn (Z.to_nat (hi' - lo')) (skipn (Z.to_nat lo') l).

(** [l[lo:hi] = new] on a [bytearray] *)
Definition py_slice_assign (l : list A) (lo hi : Z) (new : list A) : list A :=
  let len := Z.of_nat (length l) in
  let lo' := adjust_index len lo in
  let hi' := Z.max lo' (adjust_index len hi) in
  firstn (Z.to_nat lo') l ++ new ++ skipn (Z.to_nat hi') l.

Context `{EqDecision A}.

Fixpoint is_prefix (p s : list A) : bool :=
  match p, s with
  | [], _ => true
  | _ :: _, [] => false
  | x :: p', y :: s' => bool_decide (x = y) && is_prefix p' s'
  end.

(** [sep in s] *)
Fixpoint contains (sep s : list A) : bool :=
  match s with
  | [] => is_prefix sep []
  | _ :: s' => is_prefix sep s || contains sep s'
  end.

(** [s.split(sep)] for a non-empty [sep]: cut at every occurrence of [sep],
    found left to right without overlap.  [skip] counts the characters of
    a matched separator still to be dropped and [cur] holds the current
    piece, reversed. *)
Fixpoint split_go (sep : list A) (skip : nat) (cur s : list A) : list (list A) :=
  match s with
  | [] => [rev cur]
  | c :: s' =>
      match skip with
      | S k => split_go sep k cur s'
      | O => if is_prefix sep s
             then rev cur :: split_go sep (length sep - 1) [] s'
             else split_go sep 0 (c :: cur) s'
      end
  end.

Definition py_split (sep s : list A) : list (list A) := split_go sep 0 [] s.

(** [s.split(sep, 1)] when [sep in s]: the piece before the first
    occurrence and everything after it. *)
Fixpoint split_once_go (sep : list A) (cur s : list A) : option (list A * list A) :=
  match s with
  | [] => None
  | c :: s' =>
      if is_prefix sep s
      then Some (rev cur, skipn (length sep) s)
      else split_once_go sep (c :: cur) s'
  end.

Definition py_split_once (sep s : list A) : option (list A * list A) :=
  split_once_go sep [] s.
End Sequences.

(** ** Bytes, text and integers *)

Definition byte_of_Z (z : Z) : byte :=
  match Byte.of_N (Z.to_N (z mod 256)) with
  | Some b => b
  | None => x00
  end.

Definition byte_of_N (n : N) : byte := byte_of_Z (Z.of_N n).

(** A bytes literal: [b"..."]. *)
Definition bytes_lit (s : string) : list byte := list_byte_of_string s.

(** A text literal: ["..."] (code points below 256). *)
Definition str_lit (s : string) : str := map Byte.to_N (list_byte_of_string s).

(** *** UTF-8 *)

Definition encode_cp (c : N) : option (list byte) :=
  (if c <? 0x80 then Some [byte_of_N c]
   else if c <? 0x800 then
     Some [byte_of_N (0xC0 + c / 64); byte_of_N (0x80 + c mod 64)]
   else if c <? 0x10000 then
     if (0xD800 <=? c) && (c <=? 0xDFFF) then None
     else Some [byte_of_N (0xE0 + c / 4096);
                byte_of_N (0x80 + (c / 64) mod 64);
                byte_of_N (0x80 + c mod 64)]
   else if c <? 0x110000 then
     Some [byte_of_N (0xF0 + c / 262144);
           byte_of_N (0x80 + (c / 4096) mod 64);
           byte_of_N (0x80 + (c / 64) mod 64);
           byte_of_N (0x80 + c mod 64)]
   else None)%N.

(** [s.encode("utf-8")] *)
Fixpoint encode_utf8 (s : str) : result (list byte) :=
  match s with
  | [] => inr []
  | c :: s' =>
      match encode_cp c with
      | None => inl UnicodeEncodeError
      | Some bs => rbind (encode_utf8 s') (fun rest => inr (bs ++ rest))
      end
  end.

Definition in_range (lo hi n : N) : bool := ((lo <=? n) && (n <=? hi))%N.

(** The six payload bits of a continuation byte. *)
Definition cont (b : byte) : N := (Byte.to_N b mod 64)%N.

(** [bs.decode("utf-8")], strict: shortest form only, no surrogates, nothing
    above U+10FFFF. *)
Fixpoint decode_utf8 (bs : list byte) : result str :=
  match bs with
  | [] => inr []
  | b0 :: t0 =>
      let n0 := Byte.to_N b0 in
      if (n0 <? 0x80)%N then
        rbind (decode_utf8 t0) (fun s => inr (n0 :: s))
      else if in_range 0xC2 0xDF n0 then
        match t0 with
        | b1 :: t1 =>
            if in_range 0x80 0xBF (Byte.to_N b1)
            then rbind (decode_utf8 t1)
                   (fun s => inr (((n0 - 0xC0) * 64 + cont b1)%N :: s))
            else inl UnicodeDecodeError
        | _ => inl UnicodeDecodeError
        end
      else if in_range 0xE0 0xEF n0 then
        match t0 with
        | b1 :: b2 :: t2 =>
            let lo := if (n0 =? 0xE0)%N then 0xA0%N else 0x80%N in
            let hi := if (n0 =? 0xED)%N then 0x9F%N else 0xBF%N in
            if in_range lo hi (Byte.to_N b1) && in_range 0x80 0xBF (Byte.to_N b2)
            then rbind (decode_utf8 t2)
                   (fun s => inr (((n0 - 0xE0) * 4096 + cont b1 * 64 + cont b2)%N :: s))
            else inl UnicodeDecodeError
        | _ => inl UnicodeDecodeError
        end
      else if in_range 0xF0 0xF4 n0 then
        match t0 with
        | b1 :: b2 :: b3 :: t3 =>
            let lo := if (n0 =? 0xF0)%N then 0x90%N else 0x80%N in
            let hi := if (n0 =? 0xF4)%N then 0x8F%N else 0xBF%N in
            if in_range lo hi (Byte.to_N b1) && in_range 0x80 0xBF (Byte.to_N b2)
               && in_range 0x80 0xBF (Byte.to_N b3)
            then rbind (decode_utf8 t3)
                   (fun s => inr (((n0 - 0xF0) * 262144 + cont b1 * 4096
                                   + cont b2 * 64 + cont b3)%N :: s))
            else inl UnicodeDecodeError
        | _ => inl UnicodeDecodeError
        end
      else inl UnicodeDecodeError
  end.

(** *** [struct.pack] *)

Inductive byteorder : Type := Little | Big.

(** The [n] low bytes of [v], least significant first. *)
Fixpoint le_bytes (n : nat) (v : Z) : list byte :=
  match n with
  | O => []
  | S n' => byte_of_Z (v mod 256) :: le_bytes n' (v / 256)
  end.

(** [struct.pack(prefix + "B", v)]: one unsigned byte, [struct.error] when
    [v] is not in [0, 255]. *)
Definition pack_B (v : Z) : result (list byte) :=
  if (0 <=? v) && (v <=? 255) then inr [byte_of_Z v] else inl StructError.

(** [struct.pack(prefix + "Q", v)]: eight bytes in the order of the prefix,
    [struct.error] when [v] is not in [0, 2^64). *)
Definition pack_Q (o : byteorder) (v : Z) : result (list byte) :=
  if (0 <=? v) && (v <? 2 ^ 64)
  then inr (match o with
            | Little => le_bytes 8 v
            | Big => rev (le_bytes 8 v)
            end)
  else inl StructError.

(** *** [int] to text and back *)

Definition digit_cp (d : N) : N := (48 + d)%N.

Fixpoint uint_cps (d : Decimal.uint) : str :=
  match d with
  | Decimal.Nil => []
  | Decimal.D0 d' => digit_cp 0 :: uint_cps d'
  | Decimal.D1 d' => digit_cp 1 :: uint_cps d'
  | Decimal.D2 d' => digit_cp 2 :: uint_cps d'
  | Decimal.D3 d' => digit_cp 3 :: uint_cps d'
  | Decimal.D4 d' => digit_cp 4 :: uint_cps d'
  | Decimal.D5 d' => digit_cp 5 :: uint_cps d'
  | Decimal.D6 d' => digit_cp 6 :: uint_cps d'
  | Decimal.D7 d' => digit_cp 7 :: uint_cps d'
  | Decimal.D8 d' => digit_cp 8 :: uint_cps d'
  | Decimal.D9 d' => digit_cp 9 :: uint_cps d'
  end.

(** The decimal text of [v]: its digits, after a ['-'] for a negative
    number. *)
Definition py_str (v : Z) : str :=
  match v with
  | Z0 => [digit_cp 0]
  | Zpos p => uint_cps (Pos.to_uint p)
  | Zneg p => 45%N :: uint_cps (Pos.to_uint p)
  end.

(** [sys.int_info.default_max_str_digits]: the interpreter converts no
    [int] to text, and no text to an [int], with more decimal digits than
    this (CPython 3.11, default setting). *)
Definition max_str_digits : nat := 4300.

(** [str(v)], as an f-string formats an [int]: the decimal text of [v],
    [ValueError] when [v] has more digits than the limit. *)
Definition format_int (v : Z) : result str :=
  if (max_str_digits <? length (py_str (Z.abs v)))%nat
  then inl ValueError
  else inr (py_str v).

(** [Py_ISSPACE]: the ASCII whitespace that [int] skips around a number.
    The separators 0x1C to 0x1F, which [str.isspace] accepts, are not in
    it. *)
Definition is_space (c : N) : bool :=
  (in_range 0x09 0x0D c || (c =? 0x20))%N.

(** [Py_UNICODE_ISSPACE] beyond ASCII. *)
Definition unicode_space (c : N) : bool :=
  ((c =? 0x85) || (c =? 0xA0) || (c =? 0x1680) || in_range 0x2000 0x200A c
   || (c =? 0x2028) || (c =? 0x2029) || (c =? 0x202F) || (c =? 0x205F)
   || (c =? 0x3000))%N.

(** The digit zero of every run of decimal digits (category Nd) in the
    Unicode database of CPython 3.11 (Unicode 14.0); the digits one to
    nine follow their zero. *)
Definition decimal_zeros : list N :=
  [0x30; 0x660; 0x6F0; 0x7C0; 0x966; 0x9E6; 0xA66; 0xAE6; 0xB66; 0xBE6;
   0xC66; 0xCE6; 0xD66; 0xDE6; 0xE50; 0xED0; 0xF20; 0x1040; 0x1090; 0x17E0;
   0x1810; 0x1946; 0x19D0; 0x1A80; 0x1A90; 0x1B50; 0x1BB0; 0x1C40; 0x1C50;
   0xA620; 0xA8D0; 0xA900; 0xA9D0; 0xA9F0; 0xAA50; 0xABF0; 0xFF10; 0x104A0;
   0x10D30; 0x11066; 0x110F0; 0x11136; 0x111D0; 0x112F0; 0x11450; 0x114D0;
   0x11650; 0x116C0; 0x11730; 0x118E0; 0x11950; 0x11C50; 0x11D50; 0x11DA0;
   0x16A60; 0x16AC0; 0x16B50; 0x1D7CE; 0x1D7D8; 0x1D7E2; 0x1D7EC; 0x1D7F6;
   0x1E140; 0x1E2F0; 0x1E950; 0x1FBF0]%N.

(** [Py_UNICODE_TODECIMAL]: the value of a decimal digit of any script. *)
Definition unicode_decimal (c : N) : option N :=
  (fun zero => c - zero)%N
    <$> List.find (fun zero => in_range zero (zero + 9) c) decimal_zeros.

(** One character of the text [int] parses, as
    [_PyUnicode_TransformDecimalAndSpaceToASCII] prepares it: characters
    below 127 as they are, other whitespace as a space, other decimal
    digits as their ASCII digit, anything else as ['?']. *)
Definition to_ascii (c : N) : N :=
  if (c <? 127)%N then c
  else if unicode_space c then 32%N
  else match unicode_decimal c with
       | Some d => digit_cp d
       | None => 63%N
       end.

Fixpoint lstrip (s : str) : str :=
  match s with
  | c :: s' => if is_space c then lstrip s' else s
  | [] => []
  end.

Definition strip (s : str) : str := rev (lstrip (rev (lstrip s))).

(** The digits of a decimal literal: one or more digits, single
    underscores allowed between two digits. [seen] tells whether the
    previous character was a digit. *)
Fixpoint digits_value (acc : Z) (seen : bool) (s : str) : option Z :=
  match s with
  | [] => if seen then Some acc else None
  | c :: s' =>
      if in_range 48 57 c
      then digits_value (acc * 10 + (Z.of_N c - 48)) true s'
      else if (c =? 95)%N && seen then digits_value acc false s'
      else None
  end.

(** The number of digits of a literal, underscores left out. *)
Definition count_digits (s : str) : nat :=
  length (List.filter (in_range 48 57) s).

(** An unsigned decimal literal within the digit limit. *)
Definition literal_value (ds : str) : option Z :=
  match digits_value 0 false ds with
  | Some v => if (max_str_digits <? count_digits ds)%nat then None else Some v
  | None => None
  end.

(** [int(s)] in base 10: the text is brought to ASCII, whitespace around
    it is skipped, then come an optional sign and a decimal literal of at
    most [max_str_digits] digits.  [None] stands for [ValueError]. *)
Definition py_int (s : str) : option Z :=
  match strip (map to_ascii s) with
  | 45%N :: ds => Z.opp <$> literal_value ds
  | 43%N :: ds => literal_value ds
  | ds => literal_value ds
  end.

(** ** RAGFileWriter *)

(** A keyword-content pair, [{"keyword": ..., "content": ...}]. *)
Record kc_pair : Type := { keyword : str; content : str }.

(** The attributes of a writer: the growing buffer, the registered index
    entries [(name, start, end)] and the byte order of the host. *)
Record RAGFileWriter : Type := {
  buf : list byte;
  index_entries : list (str * Z * Z);
  endian_flag : Z;
  struct_prefix : byteorder }.

Definition MAGIC : list byte := bytes_lit "RAGFILE".

(** [RAGFileWriter(filepath)] on a host of byte order [host]
    ([sys.byteorder]). *)
Definition new_writer (host : byteorder) : RAGFileWriter :=
  let flag := match host with Little => 0 | Big => 1 end in
  {| buf := [];
     index_entries := [];
     endian_flag := flag;
     struct_prefix := if flag =? 0 then Little else Big |}.

Definition set_buf (b : list byte) (w : RAGFileWriter) : RAGFileWriter :=
  {| buf := b;
     index_entries := index_entries w;
     endian_flag := endian_flag w;
     struct_prefix := struct_prefix w |}.

Definition set_index_entries (es : list (str * Z * Z)) (w : RAGFileWriter)
  : RAGFileWriter :=
  {| buf := buf w;
     index_entries := es;
     endian_flag := endian_flag w;
     struct_prefix := struct_prefix w |}.

Abbreviation W := (M RAGFileWriter).

(** [self.buf += bs] *)
Definition buf_extend (bs : list byte) : W unit :=
  modify (fun w => set_buf (buf w ++ bs) w).

(** [len(self.buf)] *)
Definition buf_len : W Z :=
  w <- get ;; ret (Z.of_nat (length (buf w))).

(** [self.buf[lo:hi] = bs] *)
Definition buf_assign (lo hi : Z) (bs : list byte) : W unit :=
  modify (fun w => set_buf (py_slice_assign (buf w) lo hi bs) w).

(** [assert c] *)
Definition assert {S} (c : bool) : M S unit :=
  if c then ret tt else raise AssertionError.

Definition _u8 (v : Z) : W (list byte) := lift (pack_B v).

Definition _u64 (v : Z) : W (list byte) :=
  w <- get ;; lift (pack_Q (struct_prefix w) v).

Definition _pad (data : list byte) (alignment : Z) : result (list byte) :=
  if alignment =? 0 then inl ZeroDivisionError
  else
    let pad_len := (alignment - Z.of_nat (length data) mod alignment) mod alignment in
    inr (data ++ repeat x00 (Z.to_nat pad_len)).

(** [struct.pack("BBB", a, b, c)] *)
Definition pack_BBB (a b c : Z) : result (list byte) :=
  rbind (pack_B a) (fun x =>
  rbind (pack_B b) (fun y =>
  rbind (pack_B c) (fun z => inr (x ++ y ++ z)))).

Definition write_header (major minor patch : Z) : W unit :=
  buf_extend MAGIC ;;;
  version <- lift (pack_BBB major minor patch) ;;
  buf_extend version ;;;
  w <- get ;;
  endian <- lift (pack_B (endian_flag w)) ;;
  buf_extend endian.

(** The text of one index entry, [name-(start,end)]. *)
Definition entry_text (name : str) (start end_ : Z) : str :=
  name ++ str_lit "-(" ++ py_str start ++ str_lit "," ++ py_str end_
       ++ str_lit ")".

(** [f"{name}-({start},{end})"]: the text of the entry, unless one of the
    offsets is beyond the digit limit. *)
Definition format_entry (name : str) (start end_ : Z) : result str :=
  rbind (format_int start) (fun start_text =>
  rbind (format_int end_) (fun end_text =>
  inr (name ++ str_lit "-(" ++ start_text ++ str_lit "," ++ end_text
            ++ str_lit ")"))).

(** The loop of [write_index_strategy] over the registered entries,
    accumulating the local [table]. *)
Fixpoint index_table (entries : list (str * Z * Z)) (table : list byte)
  : result (list byte) :=
  match entries with
  | [] => inr table
  | (name, start, end_) :: rest =>
      rbind (format_entry name start end_) (fun text =>
      rbind (encode_utf8 text) (fun entry =>
      index_table rest (table ++ entry ++ [x00])))
  end.

Definition write_index_strategy : W unit :=
  w <- get ;;
  table <- lift (index_table (index_entries w) []) ;;
  let header_end := Z.of_nat (length MAGIC) + 3 + 1 in
  let table_len := Z.of_nat (length table) in
  len <- buf_len ;;
  (if len <? header_end + table_len
   then buf_extend (repeat x00 (Z.to_nat (header_end + table_len - len)))
   else ret tt) ;;;
  buf_assign header_end (header_end + table_len) table.

(** [self.index_entries.append(e)] *)
Definition register (e : str * Z * Z) : W unit :=
  modify (fun w => set_index_entries (index_entries w ++ [e]) w).

Definition write_keyword_section (pairs : list kc_pair) (padding : Z) : W unit :=
  assert (bool_decide (padding ∈ [4; 8; 16])) ;;;
  start <- buf_len ;;
  (placeholder <- _u64 0 ;; buf_extend placeholder) ;;;
  (placeholder <- _u64 0 ;; buf_extend placeholder) ;;;
  (p <- _u8 padding ;; buf_extend p) ;;;
  data_start <- buf_len ;;
  for_each pairs (fun pair =>
    record <- lift (encode_utf8 (keyword pair ++ str_lit "-" ++ content pair)) ;;
    padded <- lift (_pad record padding) ;;
    buf_extend padded) ;;;
  data_end <- buf_len ;;
  (patch <- _u64 data_start ;; buf_assign start (start + 8) patch) ;;;
  (patch <- _u64 data_end ;; buf_assign (start + 8) (start + 16) patch) ;;;
  register (str_lit "keyword", data_start, data_end).

(** The element type an embedding is cast to before serialization. *)
Inductive dtype : Type := float16 | float32.

Section Embedding.
(** [numpy] arrays are kept abstract: all the writer does with one is
    [emb.astype(t).tobytes()]. *)
Variable ndarray : Type.
Variable astype_tobytes : ndarray -> dtype -> list byte.

(** An embedding-content pair, [{"embedding": ..., "content": ...}]. *)
Record ec_pair : Type := { embedding : ndarray; emb_content : str }.

Definition write_embedding_section (pairs : list ec_pair) (padding precision : Z)
  : W unit :=
  assert (bool_decide (padding ∈ [4; 8; 16])) ;;;
  assert (bool_decide (precision ∈ [16; 32])) ;;;
  start <- buf_len ;;
  (p <- _u8 precision ;; buf_extend p) ;;;
  (placeholder <- _u64 0 ;; buf_extend placeholder) ;;;
  (placeholder <- _u64 0 ;; buf_extend placeholder) ;;;
  (p <- _u8 padding ;; buf_extend p) ;;;
  data_start <- buf_len ;;
  for_each pairs (fun pair =>
    let emb_bytes :=
      astype_tobytes (embedding pair)
        (if precision =? 16 then float16 else float32) in
    content_bytes <- lift (encode_utf8 (emb_content pair)) ;;
    let record := emb_bytes ++ bytes_lit "-" ++ content_bytes in
    padded <- lift (_pad record padding) ;;
    buf_extend padded) ;;;
  data_end <- buf_len ;;
  (patch <- _u64 data_start ;; buf_assign (start + 1) (start + 9) patch) ;;;
  (patch <- _u64 data_end ;; buf_assign (start + 9) (start + 17) patch) ;;;
  register (str_lit "vector", data_start, data_end).
End Embedding.

Arguments embedding {ndarray} _.
Arguments emb_content {ndarray} _.
Arguments write_embedding_section {ndarray} astype_tobytes pairs padding precision.

(** [finalize]: place the index table, then write the whole buffer to
    [self.filepath]; the value returned here is the content of that file. *)
Definition finalize : W (list byte) :=
  write_index_strategy ;;;
  w <- get ;;
  ret (buf w).

(** ** RAGFileReader *)

(** The attributes of a reader: the cached index table.  The file at
    [self.filepath] is an argument of the methods that open it. *)
Record RAGFileReader : Type := { _index : gmap str (Z * Z) }.

Definition new_reader : RAGFileReader := {| _index := ∅ |}.

(** [self._header_end]: 7 (magic) + 3 (version) + 1 (endianness) *)
Definition _header_end : Z := 11.

Abbreviation R := (M RAGFileReader).

(** The read loop of [parse_index]: [f.read(1)] until the end of the file
    or the first [0x00]; [f] is what is left of the file, [acc] the local
    [buf]. *)
Fixpoint read_index_bytes (f acc : list byte) : list byte :=
  match f with
  | [] => acc
  | b :: f' => if bool_decide (b = x00) then acc else read_index_bytes f' (acc ++ [b])
  end.

(** The body of the [try] of [parse_index]: [None] when any step raises. *)
Definition decode_entry (entry : list byte) : option (str * Z * Z) :=
  match decode_utf8 entry with
  | inl _ => None
  | inr s =>
      match py_split (str_lit "-(") s with
      | [name; rest] =>
          match py_split (str_lit ",") (py_slice rest 0 (-1)) with
          | [start_str; end_str] =>
              match py_int start_str, py_int end_str with
              | Some start, Some end_ => Some (name, start, end_)
              | _, _ => None
              end
          | _ => None
          end
      | _ => None
      end
  end.

Definition parse_index (file : list byte) : R unit :=
  modify (fun _ => {| _index := ∅ |}) ;;;
  let buf := read_index_bytes (skipn (Z.to_nat _header_end) file) [] in
  let entries := py_split [x00] buf in
  for_each entries (fun entry =>
    match entry with
    | [] => ret tt
    | _ :: _ =>
        match decode_entry entry with
        | Some (name, start, end_) =>
            modify (fun r => {| _index := <[name := (start, end_)]> (_index r) |})
        | None => ret tt
        end
    end).

(** The loop over the records of one window. *)
Fixpoint scan_records (query : str) (records : list (list byte))
    (results : list kc_pair) : result (list kc_pair) :=
  match records with
  | [] => inr results
  | rec :: records' =>
      if negb (contains (bytes_lit "-") rec)
      then scan_records query records' results
      else
        match py_split_once (bytes_lit "-") rec with
        | None => inl ValueError
        | Some (k, v) =>
            rbind (decode_utf8 k) (fun k_text =>
            if bool_decide (k_text = query)
            then
              rbind (decode_utf8 k) (fun k_text' =>
              rbind (decode_utf8 v) (fun v_text =>
              scan_records query records'
                (results ++ [{| keyword := k_text'; content := v_text |}])))
            else scan_records query records' results)
        end
  end.

(** The [while pos < end] loop of [search_keyword] over the mapped file
    [mm].  Every round that goes on consumes a non-empty block, so the
    distance to [end_] decreases. *)
Equations search_loop (mm : list byte) (query : str) (padding end_ pos : Z)
    (results : list kc_pair) : result (list kc_pair)
    by wf (Z.to_nat (end_ - pos)) lt :=
  search_loop mm query padding end_ pos results with Z_lt_dec pos end_ := {
    | right _ => inr results
    | left _ with py_slice mm pos (pos + padding * 256) := {
        | [] => inr results
        | b :: block with scan_records query (py_split [x00] (b :: block)) results := {
            | inl e => inl e
            | inr results' =>
                search_loop mm query padding end_
                  (pos + Z.of_nat (length (b :: block))) results' } } }.
Next Obligation. simpl. lia. Qed.

Definition search_keyword (file : list byte) (query : str) (padding : Z)
  : R (list kc_pair) :=
  r <- get ;;
  (if bool_decide (_index r = ∅) then parse_index file else ret tt) ;;;
  r <- get ;;
  match _index r !! str_lit "keyword" with
  | None => ret []
  | Some (start, end_) =>
      match file with
      | [] => raise ValueError
      | _ :: _ => lift (search_loop file query padding end_ start [])
      end
  end.

(** ** The write path of [keyword_bench.py]

    [writer = RAGFileWriter(path); writer.write_header(major, minor, patch);
     writer.write_keyword_section(pairs, padding); writer.finalize()]
    on a host of byte order [host]: the writer afterwards and the file. *)
Definition write_keyword_file (host : byteorder) (major minor patch : Z)
    (pairs : list kc_pair) (padding : Z) : RAGFileWriter * result (list byte) :=
  (write_header major minor patch ;;;
   write_keyword_section pairs padding ;;;
   finalize) (new_writer host).

(** ** The write path of [ragfile_tester.py]

    [writer.write_header(...); writer.write_keyword_section(...);
     writer.write_embedding_section(...)], up to the call of [finalize]. *)
Definition write_sections {ndarray} (astype_tobytes : ndarray -> dtype -> list byte)
    (major minor patch : Z) (kpairs : list kc_pair)
    (epairs : list (ec_pair ndarray)) (padding precision : Z) : W unit :=
  write_header major minor patch ;;;
  write_keyword_section kpairs padding ;;;
  write_embedding_section astype_tobytes epairs padding precision.

(** ** The reference search of [keyword_bench.py]

    [[p for p in keyword_content_pairs if p["keyword"] == search_kw]] *)
Definition reference_search (search_kw : str) (pairs : list kc_pair) : list kc_pair :=
  filter (fun p => keyword p = search_kw) pairs.

(** * Auxiliary definitions for the statements *)

(** [chunk] is [record] followed by at most [a - 1] zero bytes, and its
    length is a multiple of [a]. *)
Definition padded_record (a : Z) (record chunk : list byte) : Prop :=
  exists pad : list byte,
    chunk = record ++ pad
    /\ Z.of_nat (length chunk) mod a = 0
    /\ 0 <= Z.of_nat (length pad) <= a - 1
    /\ Forall (fun b => b = x00) pad.

(** The bytes the loop of [write_keyword_section] appends for one pair. *)
Definition kw_chunk (padding : Z) (pair : kc_pair) : result (list byte) :=
  rbind (encode_utf8 (keyword pair ++ str_lit "-" ++ content pair))
    (fun record => _pad record padding).

(** The bytes the loop of [write_embedding_section] appends for one pair. *)
Definition ec_chunk {ndarray} (astype_tobytes : ndarray -> dtype -> list byte)
    (padding precision : Z) (pair : ec_pair ndarray) : result (list byte) :=
  rbind (encode_utf8 (emb_content pair)) (fun content_bytes =>
    _pad (astype_tobytes (embedding pair)
            (if precision =? 16 then float16 else float32)
          ++ bytes_lit "-" ++ content_bytes) padding).

(** The record stream of a section loop: the chunks appended until the end
    of the list or the first chunk that raises, and how the loop ends. *)
Fixpoint emit {A} (chunk : A -> result (list byte)) (xs : list A)
  : list byte * result unit :=
  match xs with
  | [] => ([], inr tt)
  | x :: xs' =>
      match chunk x with
      | inl e => ([], inl e)
      | inr c => let '(rest, r) := emit chunk xs' in (c ++ rest, r)
      end
  end.

(** What a keyword section write with alignment [a] leaves in the buffer,
    whether it returns or raises on the way: a 17-byte metadata block, then
    one padded chunk for each pair it got to, in order; all the pairs when
    it returns. *)
Definition keyword_section_appended (a : Z) (kpairs : list kc_pair)
    (w : RAGFileWriter) (out : RAGFileWriter * result unit) : Prop :=
  exists meta chunks,
    length meta = 17%nat
    /\ buf (fst out) = buf w ++ meta ++ concat chunks
    /\ Forall2 (fun pair chunk =>
                  exists record,
                    encode_utf8 (keyword pair ++ str_lit "-" ++ content pair)
                    = inr record
                    /\ padded_record a record chunk)
         (firstn (length chunks) kpairs) chunks
    /\ (snd out = inr tt -> length chunks = length kpairs).

(** The same for an embedding section: an 18-byte metadata block, then one
    padded chunk per pair. *)
Definition embedding_section_appended {ndarray}
    (astype_tobytes : ndarray -> dtype -> list byte) (a precision : Z)
    (epairs : list (ec_pair ndarray))
    (w : RAGFileWriter) (out : RAGFileWriter * result unit) : Prop :=
  exists meta chunks,
    length meta = 18%nat
    /\ buf (fst out) = buf w ++ meta ++ concat chunks
    /\ Forall2 (fun pair chunk =>
                  exists content_bytes,
                    encode_utf8 (emb_content pair) = inr content_bytes
                    /\ padded_record a
                         (astype_tobytes (embedding pair)
                            (if precision =? 16 then float16 else float32)
                          ++ bytes_lit "-" ++ content_bytes) chunk)
         (firstn (length chunks) epairs) chunks
    /\ (snd out = inr tt -> length chunks = length epairs).

(** The bytes [parse_index] collects: from offset 11 up to the first 0x00
    or the end of the file. *)
Definition first_entry_bytes (file : list byte) : list byte :=
  read_index_bytes (skipn (Z.to_nat _header_end) file) [].

(** The mapping [parse_index] caches for one collected entry. *)
Definition index_of_entry (entry : list byte) : gmap str (Z * Z) :=
  match decode_entry entry with
  | Some (name, start, end_) => {[ name := (start, end_) ]}
  | None => ∅
  end.

(** A section name the entry grammar can carry: ASCII text without NUL
    in which the separator "-(" does not occur. *)
Definition entry_name (name : str) : Prop :=
  Forall (fun c => (0 < c < 128)%N) name
  /\ contains (str_lit "-(") name = false.

(** The entry grammar in the words of the specification: the text
    [name-(start,end)] with [start <= end], both offsets unsigned 64-bit
    numbers. *)
Definition spec_entry_grammar (entry : list byte) : Prop :=
  exists name start end_,
    entry_name name /\ 0 <= start <= end_ /\ end_ < 2 ^ 64
    /\ encode_utf8 (entry_text name start end_) = inr entry.

(** What the [try] of [parse_index] asks of an entry, in terms of its
    text: UTF-8 text made of a name in which the separator "-(" does not
    occur, the separator, a field [a], a comma, a field [b] and one last
    character [c], whatever it is, where [int] reads [a] and [b] as
    [start] and [end_]. *)
Definition accepted_entry (entry : list byte) (name : str) (start end_ : Z)
  : Prop :=
  exists (a b : str) (c : N),
    decode_utf8 entry
    = inr (name ++ str_lit "-(" ++ a ++ str_lit "," ++ b ++ [c])
    /\ contains (str_lit "-(") name = false
    /\ py_int a = Some start /\ py_int b = Some end_.

(** The record of a pair of ASCII fields, as it is serialized. *)
Definition record_bytes (pair : kc_pair) : list byte :=
  map byte_of_N (keyword pair ++ 45%N :: content pair).

(** A pair the scan can recover at alignment [a]: ASCII fields without
    NUL, no '-' in the keyword, and a record that is not a whole number of
    alignment units long, so that at least one pad byte follows it. *)
Definition separated (a : Z) (pair : kc_pair) : Prop :=
  Forall (fun c => (0 < c < 128)%N) (keyword pair)
  /\ (45%N ∉ keyword pair)
  /\ Forall (fun c => (0 < c < 128)%N) (content pair)
  /\ Z.of_nat (length (record_bytes pair)) mod a <> 0.

(** ** Sample data *)

Definition ab_xy : kc_pair := {| keyword := str_lit "ab"; content := str_lit "xy" |}.

(** Byte strings standing for arrays already cast: [astype_tobytes] is then
    the identity. *)
Definition raw_tobytes (v : list byte) (_ : dtype) : list byte := v.

Definition ab_zz : ec_pair (list byte) :=
  {| embedding := bytes_lit "ab"; emb_content := str_lit "zz" |}.

Definition ab_x : kc_pair := {| keyword := str_lit "ab"; content := str_lit "x" |}.
Definition cd_y : kc_pair := {| keyword := str_lit "cd"; content := str_lit "y" |}.

Definition cd_ww : ec_pair (list byte) :=
  {| embedding := bytes_lit "cd"; emb_content := str_lit "ww" |}.

(** A file laid out as the class docstrings describe, index table first and
    no region overlapping another: header, the two index entries, a keyword
    section holding ("ab", "xy") at [60, 68), an embedding section holding
    two records at [86, 102). *)
Definition layout_file : list byte :=
  MAGIC ++ [x00; x01; x00; x00]
  ++ bytes_lit "keyword-(60,68)" ++ [x00]
  ++ bytes_lit "vector-(86,102)" ++ [x00]
  ++ (le_bytes 8 60 ++ le_bytes 8 68 ++ [x08])
  ++ (bytes_lit "ab-xy" ++ [x00; x00; x00])
  ++ ([x10] ++ le_bytes 8 86 ++ le_bytes 8 102 ++ [x08])
  ++ (bytes_lit "cd-ww" ++ [x00; x00; x00])
  ++ (bytes_lit "ab-zz" ++ [x00; x00; x00]).

(** The header written by [write_header()] on a little-endian host. *)
Definition sample_header : list byte := MAGIC ++ [x00; x01; x00; x00].

(** * Further code of [ragfile_utils.py] and its callers *)

(** ** The debugging helpers *)

(** One hexadecimal digit of [bytes.hex()], lower case. *)
Definition hex_digit (n : N) : N := (if n <? 10 then 48 + n else 87 + n)%N.

(** [bs.hex()] *)
Definition hex (bs : list byte) : str :=
  flat_map (fun b => [hex_digit (Byte.to_N b / 16); hex_digit (Byte.to_N b mod 16)]) bs.

(** [RAGFileWriter.hexdump(length)]: the text it prints. *)
Definition writer_hexdump (length : Z) : W str :=
  w <- get ;; ret (hex (py_slice (buf w) 0 length)).

(** [f.read(length)] on a file opened with ["rb"] and positioned at its
    start: the first [length] bytes, the whole file for -1, [ValueError]
    below -1. *)
Definition file_read (file : list byte) (length : Z) : result (list byte) :=
  if length <? -1 then inl ValueError
  else if length =? -1 then inr file
  else inr (firstn (Z.to_nat length) file).

(** [RAGFileReader.hexdump(length)]: the text it prints. *)
Definition reader_hexdump (file : list byte) (length : Z) : R str :=
  raw <- lift (file_read file length) ;; ret (hex raw).

(** ** Programs over a writer

    A caller of [RAGFileWriter] makes method calls one after the other; a
    call that raises is assumed caught, which leaves the writer as the call
    left it, so that every prefix of every program is covered. *)

Section Calls.
Context {ndarray : Type} (astype_tobytes : ndarray -> dtype -> list byte).

Inductive writer_call : Type :=
| CallHeader (major minor patch : Z)
| CallKeywordSection (pairs : list kc_pair) (padding : Z)
| CallEmbeddingSection (pairs : list (ec_pair ndarray)) (padding precision : Z)
| CallFinalize.

(** The writer after one call, whatever its outcome. *)
Definition after_call (w : RAGFileWriter) (c : writer_call) : RAGFileWriter :=
  match c with
  | CallHeader major minor patch => fst (write_header major minor patch w)
  | CallKeywordSection pairs padding => fst (write_keyword_section pairs padding w)
  | CallEmbeddingSection pairs padding precision =>
      fst (write_embedding_section astype_tobytes pairs padding precision w)
  | CallFinalize => fst (finalize w)
  end.

Definition after_calls (w : RAGFileWriter) (cs : list writer_call) : RAGFileWriter :=
  fold_left after_call cs w.
End Calls.

Arguments writer_call ndarray : clear implicits.

(** The names the section writers register. *)
Definition section_names : list str := [str_lit "keyword"; str_lit "vector"].

(** The registered entries, in order, name data regions that lie one after
    the other within the first [limit] bytes: each starts at least 17 bytes
    (a metadata block) after the end of the one before, and none ends
    before it starts. *)
Fixpoint entries_chained (from : Z) (es : list (str * Z * Z)) (limit : Z) : Prop :=
  match es with
  | [] => from <= limit
  | (name, start, end_) :: es' =>
      name ∈ section_names
      /\ from + 17 <= start /\ start <= end_
      /\ entries_chained end_ es' limit
  end.

Definition offsets_consistent (w : RAGFileWriter) : Prop :=
  entries_chained 0 (index_entries w) (Z.of_nat (length (buf w))).

(** Every registered offset fits the unsigned 64-bit field it was packed
    into when its section was written. *)
Definition offsets_fit (w : RAGFileWriter) : Prop :=
  Forall (fun '(_, start, end_) => 0 <= start < 2 ^ 64 /\ 0 <= end_ < 2 ^ 64)
    (index_entries w).

(** Three pairs, two of them under the same keyword. *)
Definition ab_cd_ab : list kc_pair :=
  [ab_xy;
   {| keyword := str_lit "cd"; content := str_lit "zz" |};
   {| keyword := str_lit "ab"; content := str_lit "wv" |}].

(** * Properties *)

(** ** Running methods *)

Lemma set_buf_buf w : set_buf (buf w) w = w.
Proof. destruct w; reflexivity. Qed.

Lemma set_buf_twice b b' w : set_buf b (set_buf b' w) = set_buf b w.
Proof. reflexivity. Qed.

(** ** Slices *)

Lemma firstn_app_exact {A} (l1 l2 : list A) : firstn (length l1) (l1 ++ l2) = l1.
Proof. apply take_app_length. Qed.

Lemma skipn_app_exact {A} (l1 l2 : list A) : skipn (length l1) (l1 ++ l2) = l2.
Proof. apply drop_app_length. Qed.

(** Replacing the middle of a buffer: [(pre + old + post)[|pre| : |pre| + |old|] = new]. *)
Lemma py_slice_assign_middle {A} (pre old post new : list A) :
  py_slice_assign (pre ++ old ++ post)
    (Z.of_nat (length pre)) (Z.of_nat (length pre) + Z.of_nat (length old)) new
  = pre ++ new ++ post.
Proof.
  unfold py_slice_assign, adjust_index.
  rewrite !length_app.
  destruct (Z.ltb_spec (Z.of_nat (length pre)) 0); [lia |].
  destruct (Z.ltb_spec (Z.of_nat (length pre) + Z.of_nat (length old)) 0); [lia |].
  replace (Z.to_nat (Z.min (Z.of_nat (length pre)) _)) with (length pre) by lia.
  replace (Z.to_nat (Z.max _ _)) with (length (pre ++ old))
    by (rewrite length_app; lia).
  rewrite firstn_app_exact, (app_assoc pre old post), skipn_app_exact. reflexivity.
Qed.

Lemma py_slice_assign_at {A} (pre old post new : list A) (lo hi : Z) :
  lo = Z.of_nat (length pre) -> hi = lo + Z.of_nat (length old) ->
  py_slice_assign (pre ++ old ++ post) lo hi new = pre ++ new ++ post.
Proof. intros -> ->. apply py_slice_assign_middle. Qed.

(** ** Padding *)

Lemma _pad_padded (data : list byte) (a : Z) :
  0 < a -> exists chunk, _pad data a = inr chunk /\ padded_record a data chunk.
Proof.
  intros Ha. unfold _pad.
  destruct (Z.eqb_spec a 0) as [|_]; [lia |].
  eexists. split; [reflexivity |].
  set (n := Z.of_nat (length data)).
  exists (repeat x00 (Z.to_nat ((a - n mod a) mod a))).
  assert (Hm : 0 <= (a - n mod a) mod a < a) by (apply Z.mod_pos_bound; lia).
  split; [reflexivity |].
  rewrite length_app, repeat_length.
  split; [| split].
  - rewrite Nat2Z.inj_add, Z2Nat.id by lia. fold n.
    rewrite Zplus_mod_idemp_r.
    replace (n + (a - n mod a)) with (a + (n - n mod a)) by lia.
    rewrite (Z.div_mod n a) at 1 by lia.
    replace (a + (a * (n / a) + n mod a - n mod a)) with ((1 + n / a) * a) by lia.
    apply Z_mod_mult.
  - lia.
  - apply Forall_forall. intros b Hb. eapply repeat_spec.
    apply list_elem_of_In. exact Hb.
Qed.

(** ** The section writers, run *)

Lemma for_each_emit {A} (chunk : A -> result (list byte))
    (body : A -> W unit) (xs : list A) :
  (forall x w, body x w = match chunk x with
                          | inr c => (set_buf (buf w ++ c) w, inr tt)
                          | inl e => (w, inl e)
                          end) ->
  forall w, for_each xs body w
            = (set_buf (buf w ++ fst (emit chunk xs)) w, snd (emit chunk xs)).
Proof.
  intros Hbody. induction xs as [| x xs IH]; intros w; simpl.
  - rewrite app_nil_r, set_buf_buf. reflexivity.
  - unfold bind. rewrite Hbody. destruct (chunk x) as [e | c]; simpl.
    + rewrite app_nil_r, set_buf_buf. reflexivity.
    + rewrite IH. destruct (emit chunk xs) as [rest r]. simpl.
      rewrite <- app_assoc. reflexivity.
Qed.

Lemma pack_Q_zero o : pack_Q o 0 = inr (repeat x00 8).
Proof. destruct o; reflexivity. Qed.

Lemma pack_B_ok v : 0 <= v <= 255 -> pack_B v = inr [byte_of_Z v].
Proof.
  intros H. unfold pack_B.
  destruct (Z.leb_spec 0 v); [| lia]. destruct (Z.leb_spec v 255); [| lia].
  reflexivity.
Qed.

Lemma padding_cases (padding : Z) :
  bool_decide (padding ∈ [4; 8; 16]) = true ->
  padding = 4 \/ padding = 8 \/ padding = 16.
Proof.
  intros H. apply bool_decide_eq_true_1 in H.
  rewrite !elem_of_cons, elem_of_nil in H. tauto.
Qed.

(** One statement at a time: what each line of a section writer does to
    the writer it runs on. *)

Lemma run_bind {S A B} (m : M S A) (k : A -> M S B) s :
  bind m k s = match m s with
               | (s', inr a) => k a s'
               | (s', inl e) => (s', inl e)
               end.
Proof. reflexivity. Qed.

Lemma run_ret {S A B} (a : A) (k : A -> M S B) s : bind (ret a) k s = k a s.
Proof. reflexivity. Qed.

Lemma run_buf_len {B} (k : Z -> W B) w :
  bind buf_len k w = k (Z.of_nat (length (buf w))) w.
Proof. reflexivity. Qed.

Lemma run_extend_u64 {B} v (k : unit -> W B) w :
  bind (placeholder <- _u64 v ;; buf_extend placeholder) k w
  = match pack_Q (struct_prefix w) v with
    | inr bs => k tt (set_buf (buf w ++ bs) w)
    | inl e => (w, inl e)
    end.
Proof.
  cbv [bind _u64 buf_extend get lift modify].
  destruct (pack_Q (struct_prefix w) v); reflexivity.
Qed.

Lemma run_extend_u8 {B} v (k : unit -> W B) w :
  bind (p <- _u8 v ;; buf_extend p) k w
  = match pack_B v with
    | inr bs => k tt (set_buf (buf w ++ bs) w)
    | inl e => (w, inl e)
    end.
Proof.
  cbv [bind _u8 buf_extend get lift modify].
  destruct (pack_B v); reflexivity.
Qed.

Lemma run_patch_u64 {B} v lo hi (k : unit -> W B) w :
  bind (patch <- _u64 v ;; buf_assign lo hi patch) k w
  = match pack_Q (struct_prefix w) v with
    | inr bs => k tt (set_buf (py_slice_assign (buf w) lo hi bs) w)
    | inl e => (w, inl e)
    end.
Proof.
  cbv [bind _u64 buf_assign get lift modify].
  destruct (pack_Q (struct_prefix w) v); reflexivity.
Qed.

Lemma run_for_each {A B} (chunk : A -> result (list byte))
    (body : A -> W unit) (xs : list A) (k : unit -> W B) w :
  (forall x w, body x w = match chunk x with
                          | inr c => (set_buf (buf w ++ c) w, inr tt)
                          | inl e => (w, inl e)
                          end) ->
  bind (for_each xs body) k w
  = match snd (emit chunk xs) with
    | inr _ => k tt (set_buf (buf w ++ fst (emit chunk xs)) w)
    | inl e => (set_buf (buf w ++ fst (emit chunk xs)) w, inl e)
    end.
Proof.
  intros Hbody. rewrite run_bind, (for_each_emit chunk body xs Hbody).
  destruct (snd (emit chunk xs)) as [e | []]; reflexivity.
Qed.

Lemma kw_body_chunk padding (pair : kc_pair) w :
  (record <- lift (encode_utf8 (keyword pair ++ str_lit "-" ++ content pair)) ;;
   padded <- lift (_pad record padding) ;;
   buf_extend padded) w
  = match kw_chunk padding pair with
    | inr c => (set_buf (buf w ++ c) w, inr tt)
    | inl e => (w, inl e)
    end.
Proof.
  cbv [kw_chunk bind lift buf_extend modify rbind].
  destruct (encode_utf8 _) as [e | record]; [reflexivity |].
  destruct (_pad record padding); reflexivity.
Qed.

Lemma pack_Q_length o v bs : pack_Q o v = inr bs -> length bs = 8%nat.
Proof.
  unfold pack_Q. destruct (_ && _); [| discriminate].
  intros [= <-]. destruct o; reflexivity.
Qed.

Lemma write_keyword_section_run pairs padding w :
  write_keyword_section pairs padding w =
  if bool_decide (padding ∈ [4; 8; 16]) then
    let start := Z.of_nat (length (buf w)) in
    let zeros := repeat x00 8 in
    let '(stream, r) := emit (kw_chunk padding) pairs in
    let data_start := start + 17 in
    let data_end := data_start + Z.of_nat (length stream) in
    match r with
    | inl e =>
        (set_buf (buf w ++ zeros ++ zeros ++ [byte_of_Z padding] ++ stream) w, inl e)
    | inr _ =>
        match pack_Q (struct_prefix w) data_start with
        | inl e =>
            (set_buf (buf w ++ zeros ++ zeros ++ [byte_of_Z padding] ++ stream) w,
             inl e)
        | inr s =>
            match pack_Q (struct_prefix w) data_end with
            | inl e =>
                (set_buf (buf w ++ s ++ zeros ++ [byte_of_Z padding] ++ stream) w,
                 inl e)
            | inr e =>
                (set_index_entries
                   (index_entries w ++ [(str_lit "keyword", data_start, data_end)])
                   (set_buf (buf w ++ s ++ e ++ [byte_of_Z padding] ++ stream) w),
                 inr tt)
            end
        end
    end
  else (w, inl AssertionError).
Proof.
  unfold write_keyword_section.
  destruct (bool_decide (padding ∈ [4; 8; 16])) eqn:Hpad; [| reflexivity].
  assert (Hrange : 0 <= padding <= 255)
    by (destruct (padding_cases _ Hpad) as [-> | [-> | ->]]; lia).
  change (assert true) with (@ret RAGFileWriter unit tt).
  rewrite run_ret, run_buf_len.
  rewrite run_extend_u64, pack_Q_zero.
  rewrite run_extend_u64, pack_Q_zero.
  rewrite run_extend_u8, (pack_B_ok _ Hrange).
  rewrite run_buf_len.
  rewrite (run_for_each (kw_chunk padding)) by (intros; apply kw_body_chunk).
  destruct (emit (kw_chunk padding) pairs) as [stream r].
  cbn [fst snd set_buf buf struct_prefix].
  rewrite <- !app_assoc.
  destruct r as [e | []]; [reflexivity |].
  rewrite run_buf_len.
  cbn [fst snd set_buf buf struct_prefix].
  set (L := Z.of_nat (length (buf w))).
  set (zeros := repeat x00 8).
  replace (Z.of_nat (length (buf w ++ zeros ++ zeros ++ [byte_of_Z padding])))
    with (L + 17) by (rewrite !length_app; simpl; lia).
  replace (Z.of_nat (length (buf w ++ zeros ++ zeros ++ [byte_of_Z padding] ++ stream)))
    with (L + 17 + Z.of_nat (length stream)) by (rewrite !length_app; simpl; lia).
  rewrite !set_buf_twice.
  rewrite run_patch_u64. cbn [set_buf buf struct_prefix].
  destruct (pack_Q (struct_prefix w) (L + 17)) as [e | s] eqn:Hs; [reflexivity |].
  rewrite (py_slice_assign_at (buf w) zeros _ s) by (subst L zeros; simpl; lia).
  rewrite run_patch_u64. cbn [set_buf buf struct_prefix].
  destruct (pack_Q (struct_prefix w) (L + 17 + Z.of_nat (length stream)))
    as [e | e] eqn:He; [reflexivity |].
  rewrite (app_assoc (buf w) s).
  rewrite (py_slice_assign_at (buf w ++ s) zeros _ e)
    by (pose proof (pack_Q_length _ _ _ Hs); subst L zeros;
        rewrite ?length_app; simpl; lia).
  rewrite <- app_assoc. reflexivity.
Qed.

Lemma precision_cases (precision : Z) :
  bool_decide (precision ∈ [16; 32]) = true -> precision = 16 \/ precision = 32.
Proof.
  intros H. apply bool_decide_eq_true_1 in H.
  rewrite !elem_of_cons, elem_of_nil in H. tauto.
Qed.

Section EmbeddingRun.
Context {ndarray : Type} (astype_tobytes : ndarray -> dtype -> list byte).

Lemma ec_body_chunk padding precision (pair : ec_pair ndarray) w :
  (let emb_bytes :=
     astype_tobytes (embedding pair)
       (if precision =? 16 then float16 else float32) in
   content_bytes <- lift (encode_utf8 (emb_content pair)) ;;
   let record := emb_bytes ++ bytes_lit "-" ++ content_bytes in
   padded <- lift (_pad record padding) ;;
   buf_extend padded) w
  = match ec_chunk astype_tobytes padding precision pair with
    | inr c => (set_buf (buf w ++ c) w, inr tt)
    | inl e => (w, inl e)
    end.
Proof.
  cbv [ec_chunk bind lift buf_extend modify rbind].
  destruct (encode_utf8 _) as [e | content_bytes]; [reflexivity |].
  destruct (_pad _ padding); reflexivity.
Qed.

Lemma write_embedding_section_run pairs padding precision w :
  write_embedding_section astype_tobytes pairs padding precision w =
  if bool_decide (padding ∈ [4; 8; 16]) && bool_decide (precision ∈ [16; 32]) then
    let start := Z.of_nat (length (buf w)) in
    let zeros := repeat x00 8 in
    let '(stream, r) := emit (ec_chunk astype_tobytes padding precision) pairs in
    let data_start := start + 18 in
    let data_end := data_start + Z.of_nat (length stream) in
    let placeholders :=
      buf w ++ [byte_of_Z precision] ++ zeros ++ zeros
            ++ [byte_of_Z padding] ++ stream in
    match r with
    | inl e => (set_buf placeholders w, inl e)
    | inr _ =>
        match pack_Q (struct_prefix w) data_start with
        | inl e => (set_buf placeholders w, inl e)
        | inr s =>
            match pack_Q (struct_prefix w) data_end with
            | inl e =>
                (set_buf (buf w ++ [byte_of_Z precision] ++ s ++ zeros
                                ++ [byte_of_Z padding] ++ stream) w,
                 inl e)
            | inr e =>
                (set_index_entries
                   (index_entries w ++ [(str_lit "vector", data_start, data_end)])
                   (set_buf (buf w ++ [byte_of_Z precision] ++ s ++ e
                                   ++ [byte_of_Z padding] ++ stream) w),
                 inr tt)
            end
        end
    end
  else (w, inl AssertionError).
Proof.
  unfold write_embedding_section.
  destruct (bool_decide (padding ∈ [4; 8; 16])) eqn:Hpad; [| reflexivity].
  destruct (bool_decide (precision ∈ [16; 32])) eqn:Hprec; [| reflexivity].
  assert (Hrange : 0 <= padding <= 255)
    by (destruct (padding_cases _ Hpad) as [-> | [-> | ->]]; lia).
  assert (Hrange' : 0 <= precision <= 255)
    by (destruct (precision_cases _ Hprec) as [-> | ->]; lia).
  change (assert true) with (@ret RAGFileWriter unit tt).
  rewrite !run_ret, run_buf_len.
  rewrite run_extend_u8, (pack_B_ok _ Hrange').
  rewrite run_extend_u64, pack_Q_zero.
  rewrite run_extend_u64, pack_Q_zero.
  rewrite run_extend_u8, (pack_B_ok _ Hrange).
  rewrite run_buf_len.
  rewrite (run_for_each (ec_chunk astype_tobytes padding precision))
    by (intros; apply ec_body_chunk).
  destruct (emit (ec_chunk astype_tobytes padding precision) pairs) as [stream r].
  cbn [fst snd set_buf buf struct_prefix andb].
  rewrite <- !app_assoc.
  destruct r as [e | []]; [reflexivity |].
  rewrite run_buf_len.
  cbn [fst snd set_buf buf struct_prefix].
  set (L := Z.of_nat (length (buf w))).
  set (zeros := repeat x00 8).
  replace (Z.of_nat (length (buf w ++ [byte_of_Z precision] ++ zeros ++ zeros
                               ++ [byte_of_Z padding])))
    with (L + 18) by (rewrite !length_app; simpl; lia).
  replace (Z.of_nat (length (buf w ++ [byte_of_Z precision] ++ zeros ++ zeros
                               ++ [byte_of_Z padding] ++ stream)))
    with (L + 18 + Z.of_nat (length stream)) by (rewrite !length_app; simpl; lia).
  rewrite !set_buf_twice.
  rewrite run_patch_u64. cbn [set_buf buf struct_prefix].
  destruct (pack_Q (struct_prefix w) (L + 18)) as [e | s] eqn:Hs; [reflexivity |].
  rewrite (app_assoc (buf w) [byte_of_Z precision]).
  rewrite (py_slice_assign_at (buf w ++ [byte_of_Z precision]) zeros _ s)
    by (subst L zeros; rewrite ?length_app; simpl; lia).
  rewrite run_patch_u64. cbn [set_buf buf struct_prefix].
  destruct (pack_Q (struct_prefix w) (L + 18 + Z.of_nat (length stream)))
    as [e | e] eqn:He; [rewrite <- app_assoc; reflexivity |].
  rewrite (app_assoc (buf w ++ [byte_of_Z precision]) s).
  rewrite (py_slice_assign_at ((buf w ++ [byte_of_Z precision]) ++ s) zeros _ e)
    by (pose proof (pack_Q_length _ _ _ Hs); subst L zeros;
        rewrite ?length_app; simpl; lia).
  rewrite <- !app_assoc. reflexivity.
Qed.
End EmbeddingRun.

(** ** Bad alignment or precision *)

(** C6. A call of [write_keyword_section] with an alignment outside
    {4, 8, 16}, and a call of [write_embedding_section] with an alignment
    outside {4, 8, 16} or a precision outside {16, 32}, raises at once (the
    failed [assert], the writer's invalid-argument failure) and leaves the
    writer, buffer and index entries, exactly as it was before the call. *)
Theorem invalid_argument_leaves_writer_unchanged
    {ndarray : Type} (astype_tobytes : ndarray -> dtype -> list byte)
    (w : RAGFileWriter) (kpairs : list kc_pair) (epairs : list (ec_pair ndarray))
    (padding precision : Z) :
  (padding ∉ [4; 8; 16] ->
   write_keyword_section kpairs padding w = (w, inl AssertionError))
  /\ (padding ∉ [4; 8; 16] \/ precision ∉ [16; 32] ->
      write_embedding_section astype_tobytes epairs padding precision w
      = (w, inl AssertionError)).
Proof.
  split.
  - intros H. rewrite write_keyword_section_run.
    rewrite (bool_decide_eq_false_2 _ H). reflexivity.
  - intros H. rewrite write_embedding_section_run.
    destruct H as [H | H]; rewrite (bool_decide_eq_false_2 _ H).
    + reflexivity.
    + rewrite andb_false_r. reflexivity.
Qed.

Lemma invalid_argument_witness :
  write_keyword_section [ab_xy] 5 (new_writer Little)
  = (new_writer Little, inl AssertionError)
  /\ write_embedding_section raw_tobytes [ab_zz] 8 64
       (new_writer Little)
     = (new_writer Little, inl AssertionError).
Proof.
  split.
  - apply (invalid_argument_leaves_writer_unchanged raw_tobytes
             (new_writer Little) [ab_xy] [] 5 64).
    rewrite !elem_of_cons, elem_of_nil. lia.
  - apply (invalid_argument_leaves_writer_unchanged raw_tobytes
             (new_writer Little) [] [ab_zz] 8 64).
    right. rewrite !elem_of_cons, elem_of_nil. lia.
Defined.

(** ** Section writes only append *)

Lemma write_keyword_section_appends (w : RAGFileWriter) pairs padding :
  exists appended,
    buf (fst (write_keyword_section pairs padding w)) = buf w ++ appended.
Proof.
  rewrite write_keyword_section_run.
  destruct (bool_decide (padding ∈ [4; 8; 16]));
    [| exists []; simpl; now rewrite app_nil_r].
  cbv zeta. destruct (emit _ pairs) as [stream [e | []]]; [eexists; reflexivity |].
  repeat (destruct (pack_Q _ _)); eexists; reflexivity.
Qed.

Lemma write_embedding_section_appends
    {ndarray : Type} (astype_tobytes : ndarray -> dtype -> list byte)
    (w : RAGFileWriter) pairs padding precision :
  exists appended,
    buf (fst (write_embedding_section astype_tobytes pairs padding precision w))
    = buf w ++ appended.
Proof.
  rewrite write_embedding_section_run.
  destruct (_ && _); [| exists []; simpl; now rewrite app_nil_r].
  cbv zeta. destruct (emit _ pairs) as [stream [e | []]]; [eexists; reflexivity |].
  repeat (destruct (pack_Q _ _)); eexists; reflexivity.
Qed.

(** Offset by offset, for the keyword section. *)
Lemma keyword_section_keeps_offsets (w : RAGFileWriter) pairs padding i b :
  buf w !! i = Some b ->
  buf (fst (write_keyword_section pairs padding w)) !! i = Some b.
Proof.
  intros Hi. destruct (write_keyword_section_appends w pairs padding) as [appended ->].
  now apply lookup_app_l_Some.
Qed.

(** C9. Whatever a section write is called with and however it ends, the
    buffer afterwards is the buffer before followed by what the call
    appended (its metadata block, patched in place, and its padded
    records): every offset that existed before the call holds the byte it
    held, so the header and the earlier sections are untouched. *)
Theorem section_write_preserves_existing_bytes
    {ndarray : Type} (astype_tobytes : ndarray -> dtype -> list byte)
    (w : RAGFileWriter) (kpairs : list kc_pair) (epairs : list (ec_pair ndarray))
    (padding precision : Z) :
  (exists appended,
     buf (fst (write_keyword_section kpairs padding w)) = buf w ++ appended)
  /\ (exists appended,
        buf (fst (write_embedding_section astype_tobytes epairs padding precision w))
        = buf w ++ appended).
Proof.
  split.
  - apply write_keyword_section_appends.
  - apply write_embedding_section_appends.
Qed.

(** ** The padding invariant *)

Lemma emit_chunks {A} (chunk : A -> result (list byte)) (xs : list A) :
  exists chunks,
    fst (emit chunk xs) = concat chunks
    /\ Forall2 (fun x c => chunk x = inr c) (firstn (length chunks) xs) chunks
    /\ (snd (emit chunk xs) = inr tt -> length chunks = length xs).
Proof.
  induction xs as [| x xs IH]; simpl.
  - exists []. repeat split; constructor.
  - destruct (chunk x) as [e | c] eqn:Hc.
    + exists []. split; [reflexivity |]. split; [constructor | discriminate].
    + destruct IH as (chunks & Hstream & Hall & Hlen).
      destruct (emit chunk xs) as [rest r]. simpl in *.
      exists (c :: chunks). split; [now rewrite Hstream |].
      split; [now constructor |]. intros Hr. simpl. now rewrite Hlen.
Qed.

Lemma kw_chunk_padded a pair chunk :
  0 < a -> kw_chunk a pair = inr chunk ->
  exists record,
    encode_utf8 (keyword pair ++ str_lit "-" ++ content pair) = inr record
    /\ padded_record a record chunk.
Proof.
  intros Ha. unfold kw_chunk, rbind.
  destruct (encode_utf8 _) as [e | record]; [discriminate |].
  intros H. exists record. split; [reflexivity |].
  destruct (_pad_padded record a Ha) as (chunk' & H' & Hp). congruence.
Qed.

Lemma ec_chunk_padded {ndarray} (astype_tobytes : ndarray -> dtype -> list byte)
    a precision pair chunk :
  0 < a -> ec_chunk astype_tobytes a precision pair = inr chunk ->
  exists content_bytes,
    encode_utf8 (emb_content pair) = inr content_bytes
    /\ padded_record a
         (astype_tobytes (embedding pair)
            (if precision =? 16 then float16 else float32)
          ++ bytes_lit "-" ++ content_bytes) chunk.
Proof.
  intros Ha. unfold ec_chunk, rbind.
  destruct (encode_utf8 _) as [e | content_bytes]; [discriminate |].
  intros H. exists content_bytes. split; [reflexivity |].
  destruct (_pad_padded (astype_tobytes (embedding pair)
                           (if precision =? 16 then float16 else float32)
                         ++ bytes_lit "-" ++ content_bytes) a Ha)
    as (chunk' & H' & Hp).
  congruence.
Qed.

(** Closes the four parts of [keyword_section_appended] and
    [embedding_section_appended] once the metadata block and the chunks
    are given. *)
Ltac section_shape :=
  cbn [fst snd buf set_index_entries set_buf];
  repeat split;
  first [ assumption
        | discriminate
        | now auto
        | rewrite !length_app; cbn [length repeat]; lia
        | now rewrite <- ?app_assoc ].

(** C7. With an alignment [a] of {4, 8, 16} (and, for embeddings, a
    precision of {16, 32}), what a section write appends is its metadata
    block (17 bytes for keywords, 18 for embeddings) followed by one chunk
    per serialized pair, in order; each chunk is the pair's record followed
    by pad bytes, the chunk's length is a multiple of [a], there are between
    0 and [a - 1] pad bytes, and each of them is 0x00.  This holds for
    every record written, also when the call raises further on. *)
Theorem serialized_records_are_padded
    {ndarray : Type} (astype_tobytes : ndarray -> dtype -> list byte)
    (w : RAGFileWriter) (kpairs : list kc_pair) (epairs : list (ec_pair ndarray))
    (a precision : Z) :
  a ∈ [4; 8; 16] ->
  keyword_section_appended a kpairs w (write_keyword_section kpairs a w)
  /\ (precision ∈ [16; 32] ->
      embedding_section_appended astype_tobytes a precision epairs w
        (write_embedding_section astype_tobytes epairs a precision w)).
Proof.
  intros Ha.
  assert (Hpos : 0 < a) by (rewrite !elem_of_cons, elem_of_nil in Ha; lia).
  unfold keyword_section_appended, embedding_section_appended. split.
  - rewrite write_keyword_section_run, (bool_decide_eq_true_2 _ Ha). cbv zeta.
    destruct (emit_chunks (kw_chunk a) kpairs) as (chunks & Hstream & Hall & Hlen).
    assert (Hpadded :
      Forall2 (fun pair chunk =>
                 exists record,
                   encode_utf8 (keyword pair ++ str_lit "-" ++ content pair)
                   = inr record
                   /\ padded_record a record chunk)
        (firstn (length chunks) kpairs) chunks).
    { eapply Forall2_impl; [exact Hall |].
      intros pair chunk Hc. now apply kw_chunk_padded. }
    destruct (emit (kw_chunk a) kpairs) as [stream r]. cbn [fst snd] in *.
    subst stream.
    destruct r as [e | []].
    { exists (repeat x00 8 ++ repeat x00 8 ++ [byte_of_Z a]), chunks.
      section_shape. }
    destruct (pack_Q _ _) as [e | s] eqn:Hs.
    { exists (repeat x00 8 ++ repeat x00 8 ++ [byte_of_Z a]), chunks.
      section_shape. }
    destruct (pack_Q _ (_ + _ + _)) as [e | e] eqn:He.
    { exists (s ++ repeat x00 8 ++ [byte_of_Z a]), chunks.
      pose proof (pack_Q_length _ _ _ Hs). section_shape. }
    exists (s ++ e ++ [byte_of_Z a]), chunks.
    pose proof (pack_Q_length _ _ _ Hs). pose proof (pack_Q_length _ _ _ He).
    section_shape.
  - intros Hprec.
    rewrite write_embedding_section_run,
      (bool_decide_eq_true_2 _ Ha), (bool_decide_eq_true_2 _ Hprec).
    cbv zeta. cbn [andb].
    destruct (emit_chunks (ec_chunk astype_tobytes a precision) epairs)
      as (chunks & Hstream & Hall & Hlen).
    assert (Hpadded :
      Forall2 (fun pair chunk =>
                 exists content_bytes,
                   encode_utf8 (emb_content pair) = inr content_bytes
                   /\ padded_record a
                        (astype_tobytes (embedding pair)
                           (if precision =? 16 then float16 else float32)
                         ++ bytes_lit "-" ++ content_bytes) chunk)
        (firstn (length chunks) epairs) chunks).
    { eapply Forall2_impl; [exact Hall |].
      intros pair chunk Hc. now apply (ec_chunk_padded astype_tobytes). }
    destruct (emit (ec_chunk astype_tobytes a precision) epairs) as [stream r].
    cbn [fst snd] in *. subst stream.
    destruct r as [e | []].
    { exists ([byte_of_Z precision] ++ repeat x00 8 ++ repeat x00 8 ++ [byte_of_Z a]),
        chunks.
      section_shape. }
    destruct (pack_Q _ _) as [e | s] eqn:Hs.
    { exists ([byte_of_Z precision] ++ repeat x00 8 ++ repeat x00 8 ++ [byte_of_Z a]),
        chunks.
      section_shape. }
    destruct (pack_Q _ (_ + _ + _)) as [e | e] eqn:He.
    { exists ([byte_of_Z precision] ++ s ++ repeat x00 8 ++ [byte_of_Z a]), chunks.
      pose proof (pack_Q_length _ _ _ Hs). section_shape. }
    exists ([byte_of_Z precision] ++ s ++ e ++ [byte_of_Z a]), chunks.
    pose proof (pack_Q_length _ _ _ Hs). pose proof (pack_Q_length _ _ _ He).
    section_shape.
Qed.

Lemma serialized_records_are_padded_witness :
  keyword_section_appended 8 [ab_xy] (new_writer Little)
    (write_keyword_section [ab_xy] 8 (new_writer Little))
  /\ embedding_section_appended raw_tobytes 8 16 [ab_zz] (new_writer Little)
       (write_embedding_section raw_tobytes [ab_zz] 8 16 (new_writer Little)).
Proof.
  assert (H8 : 8 ∈ [4; 8; 16]) by (rewrite !elem_of_cons; auto).
  assert (H16 : 16 ∈ [16; 32]) by (rewrite !elem_of_cons; auto).
  split.
  - apply (serialized_records_are_padded raw_tobytes
             (new_writer Little) [ab_xy] [ab_zz] 8 16 H8).
  - apply (serialized_records_are_padded raw_tobytes
             (new_writer Little) [ab_xy] [ab_zz] 8 16 H8). exact H16.
Defined.

(** ** The scenario of the specification *)

(** C8. On either byte order, writing the single pair ("ab", "xy") with
    alignment 8 (header, keyword section, finalize) serializes the record as
    the five bytes of "ab-xy" followed by three zero bytes, registered as
    the keyword section [28, 36) of a 36-byte file; on that file
    [search_keyword("ab", 8)] returns exactly that pair and
    [search_keyword("zz", 8)] returns nothing, whether each search uses a
    reader of its own or both use the same one. *)
Theorem scenario_ab_xy (host : byteorder) :
  kw_chunk 8 ab_xy = inr (bytes_lit "ab-xy" ++ [x00; x00; x00])
  /\ exists w file,
       write_keyword_file host 0 1 0 [ab_xy] 8 = (w, inr file)
       /\ index_entries w = [(str_lit "keyword", 28, 36)]
       /\ length file = 36%nat
       /\ py_slice file 28 36 = bytes_lit "ab-xy" ++ [x00; x00; x00]
       /\ snd (search_keyword file (str_lit "ab") 8 new_reader) = inr [ab_xy]
       /\ snd (search_keyword file (str_lit "zz") 8 new_reader) = inr []
       /\ snd ((found <- search_keyword file (str_lit "ab") 8 ;;
                missing <- search_keyword file (str_lit "zz") 8 ;;
                ret (found, missing)) new_reader)
          = inr ([ab_xy], []).
Proof.
  split; [reflexivity |].
  destruct host; do 2 eexists;
    (split; [vm_compute; reflexivity |]);
    repeat split; vm_compute; reflexivity.
Qed.

(** ** An empty keyword section *)

Lemma write_header_run host major minor patch :
  0 <= major <= 255 -> 0 <= minor <= 255 -> 0 <= patch <= 255 ->
  write_header major minor patch (new_writer host)
  = (set_buf (MAGIC ++ [byte_of_Z major; byte_of_Z minor; byte_of_Z patch]
                    ++ [byte_of_Z (endian_flag (new_writer host))])
       (new_writer host),
     inr tt).
Proof.
  intros H1 H2 H3.
  cbv [write_header bind buf_extend modify lift get pack_BBB rbind].
  rewrite !pack_B_ok by assumption.
  destruct host; reflexivity.
Qed.

Lemma pack_Q_ok o v :
  0 <= v < 2 ^ 64 -> exists bs, pack_Q o v = inr bs /\ length bs = 8%nat.
Proof.
  intros H. unfold pack_Q.
  destruct (Z.leb_spec 0 v); [| lia]. destruct (Z.ltb_spec v (2 ^ 64)); [| lia].
  eexists. split; [reflexivity |]. destruct o; reflexivity.
Qed.

Lemma write_empty_keyword_section (w : RAGFileWriter) (padding : Z) :
  padding ∈ [4; 8; 16] ->
  Z.of_nat (length (buf w)) + 17 < 2 ^ 64 ->
  exists meta,
    length meta = 17%nat
    /\ last meta = Some (byte_of_Z padding)
    /\ write_keyword_section [] padding w
       = (set_index_entries
            (index_entries w
             ++ [(str_lit "keyword",
                  Z.of_nat (length (buf w)) + 17, Z.of_nat (length (buf w)) + 17)])
            (set_buf (buf w ++ meta) w),
          inr tt).
Proof.
  intros Hpad Hlen. rewrite write_keyword_section_run.
  rewrite (bool_decide_eq_true_2 _ Hpad). cbn [emit length]. cbv zeta.
  rewrite Z.add_0_r.
  destruct (pack_Q_ok (struct_prefix w) (Z.of_nat (length (buf w)) + 17))
    as (s & -> & Hs); [lia |].
  exists (s ++ s ++ [byte_of_Z padding]). split; [| split].
  - rewrite !length_app, Hs. reflexivity.
  - rewrite !last_app. reflexivity.
  - rewrite !app_nil_r. reflexivity.
Qed.

Lemma empty_keyword_file host major minor patch padding :
  0 <= major <= 255 -> 0 <= minor <= 255 -> 0 <= patch <= 255 ->
  padding ∈ [4; 8; 16] ->
  exists w,
    write_keyword_file host major minor patch [] padding
    = (w, inr (MAGIC
               ++ [byte_of_Z major; byte_of_Z minor; byte_of_Z patch;
                   byte_of_Z (endian_flag (new_writer host))]
               ++ bytes_lit "keyword-(28,28)" ++ [x00]
               ++ [byte_of_Z padding]))
    /\ index_entries w = [(str_lit "keyword", 28, 28)].
Proof.
  intros H1 H2 H3 Hpad. unfold write_keyword_file.
  rewrite run_bind, write_header_run by assumption.
  rewrite run_bind, write_keyword_section_run.
  rewrite (bool_decide_eq_true_2 _ Hpad).
  rewrite !elem_of_cons, elem_of_nil in Hpad.
  destruct host; destruct Hpad as [-> | [-> | [-> | []]]];
    eexists; split; reflexivity.
Qed.

Lemma search_empty_section a b c d pad query padding :
  search_keyword
    (MAGIC ++ [a; b; c; d] ++ bytes_lit "keyword-(28,28)" ++ [x00] ++ [pad])
    query padding new_reader
  = ({| _index := {[ str_lit "keyword" := (28, 28) ]} |}, inr []).
Proof.
  vm_compute. reflexivity.
Qed.

(** C10. Called with no pairs and an alignment of {4, 8, 16} on a buffer
    with room for it, [write_keyword_section] returns normally, appends
    exactly its 17-byte metadata block and registers a "keyword" entry whose
    start equals its end.  Written that way after a header, the finalized
    file makes [search_keyword] return the empty list, without raising, for
    every query and every window parameter. *)
Theorem empty_keyword_section_is_searchable
    (w : RAGFileWriter) (host : byteorder) (major minor patch padding : Z)
    (query : str) (window : Z) :
  padding ∈ [4; 8; 16] ->
  Z.of_nat (length (buf w)) + 17 < 2 ^ 64 ->
  0 <= major <= 255 -> 0 <= minor <= 255 -> 0 <= patch <= 255 ->
  (exists meta data_start,
     length meta = 17%nat
     /\ write_keyword_section [] padding w
        = (set_index_entries
             (index_entries w ++ [(str_lit "keyword", data_start, data_start)])
             (set_buf (buf w ++ meta) w),
           inr tt))
  /\ (exists w' file,
        write_keyword_file host major minor patch [] padding = (w', inr file)
        /\ index_entries w' = [(str_lit "keyword", 28, 28)]
        /\ snd (search_keyword file query window new_reader) = inr []).
Proof.
  intros Hpad Hlen H1 H2 H3. split.
  - destruct (write_empty_keyword_section w padding Hpad Hlen) as (meta & Hm & _ & Hw).
    exists meta, (Z.of_nat (length (buf w)) + 17). split; assumption.
  - destruct (empty_keyword_file host major minor patch padding H1 H2 H3 Hpad)
      as (w' & Hfile & Hentries).
    exists w'. eexists. split; [exact Hfile |]. split; [exact Hentries |].
    rewrite search_empty_section. reflexivity.
Qed.

Lemma empty_keyword_section_witness :
  (exists meta data_start,
     length meta = 17%nat
     /\ write_keyword_section [] 8 (new_writer Little)
        = (set_index_entries
             (index_entries (new_writer Little)
              ++ [(str_lit "keyword", data_start, data_start)])
             (set_buf (buf (new_writer Little) ++ meta) (new_writer Little)),
           inr tt))
  /\ (exists w' file,
        write_keyword_file Little 0 1 0 [] 8 = (w', inr file)
        /\ index_entries w' = [(str_lit "keyword", 28, 28)]
        /\ snd (search_keyword file (str_lit "ab") 8 new_reader) = inr []).
Proof.
  apply (empty_keyword_section_is_searchable
           (new_writer Little) Little 0 1 0 8 (str_lit "ab") 8).
  - rewrite !elem_of_cons. auto.
  - vm_compute. reflexivity.
  - lia.
  - lia.
  - lia.
Defined.

(** ** The index table, placed *)

Lemma py_slice_assign_inside {A} (l new : list A) (lo : Z) :
  0 <= lo -> lo + Z.of_nat (length new) <= Z.of_nat (length l) ->
  py_slice_assign l lo (lo + Z.of_nat (length new)) new
  = firstn (Z.to_nat lo) l ++ new
    ++ skipn (Z.to_nat lo + length new) l.
Proof.
  intros Hlo Hhi. unfold py_slice_assign, adjust_index.
  destruct (Z.ltb_spec lo 0); [lia |].
  destruct (Z.ltb_spec (lo + Z.of_nat (length new)) 0); [lia |].
  replace (Z.to_nat (Z.min lo _)) with (Z.to_nat lo) by lia.
  replace (Z.to_nat (Z.max _ _)) with (Z.to_nat lo + length new)%nat by lia.
  reflexivity.
Qed.

(** When the buffer already reaches past the table, [write_index_strategy]
    replaces the bytes at [11, 11 + len(table)) by the table and moves
    nothing: every section byte that was in that range is lost. *)
Lemma write_index_strategy_replaces (w : RAGFileWriter) (table : list byte) :
  index_table (index_entries w) [] = inr table ->
  11 + Z.of_nat (length table) <= Z.of_nat (length (buf w)) ->
  write_index_strategy w
  = (set_buf (firstn 11 (buf w) ++ table
              ++ skipn (11 + length table) (buf w)) w,
     inr tt).
Proof.
  intros Htable Hlen. unfold write_index_strategy.
  rewrite run_bind. cbn [get]. rewrite run_bind. cbn [lift]. rewrite Htable.
  rewrite run_buf_len.
  change (Z.of_nat (length MAGIC) + 3 + 1) with 11.
  destruct (Z.ltb_spec (Z.of_nat (length (buf w))) (11 + Z.of_nat (length table)));
    [lia |].
  rewrite run_ret. unfold buf_assign, modify.
  rewrite py_slice_assign_inside by lia. reflexivity.
Qed.

Lemma finalize_replaces_post_header_bytes (w w' : RAGFileWriter)
    (table file : list byte) :
  index_table (index_entries w) [] = inr table ->
  11 + Z.of_nat (length table) <= Z.of_nat (length (buf w)) ->
  finalize w = (w', inr file) ->
  length file = length (buf w)
  /\ firstn 11 file = firstn 11 (buf w)
  /\ py_slice file 11 (11 + Z.of_nat (length table)) = table
  /\ skipn (11 + length table) file = skipn (11 + length table) (buf w).
Proof.
  intros Htable Hlen. unfold finalize.
  rewrite run_bind, (write_index_strategy_replaces w table Htable Hlen).
  rewrite run_bind. unfold get, ret.
  set (pre := firstn 11 (buf w)).
  set (post := skipn (11 + length table) (buf w)).
  intros Hrun. assert (file = pre ++ table ++ post) as -> by (simpl in Hrun; congruence).
  clear Hrun.
  assert (H11 : length pre = 11%nat) by (subst pre; rewrite length_take; lia).
  assert (Hpost : length post = (length (buf w) - (11 + length table))%nat)
    by (subst post; apply length_drop).
  assert (Hfile : length (pre ++ table ++ post) = length (buf w))
    by (rewrite !length_app, H11, Hpost; lia).
  split; [exact Hfile |]. split; [| split].
  - rewrite <- H11 at 1. apply take_app_length.
  - unfold py_slice, adjust_index. rewrite Hfile.
    destruct (Z.ltb_spec 11 0); [lia |].
    destruct (Z.ltb_spec (11 + Z.of_nat (length table)) 0); [lia |].
    replace (Z.to_nat (Z.min 11 _)) with (length pre) by lia.
    rewrite drop_app_length.
    replace (Z.to_nat _) with (length table) by lia.
    apply take_app_length.
  - rewrite app_assoc.
    replace (11 + length table)%nat with (length (pre ++ table))
      by (rewrite length_app, H11; reflexivity).
    apply drop_app_length.
Qed.

(** ** Where the code departs from the documented container *)

(** C1. The index table overwrites bytes already emitted.  On the write
    path of the tester (header, keyword section, embedding section,
    finalize) with the pair ("ab", "xy") and two embedding records, the
    keyword entry names [28, 36) and the buffer holds the padded record
    there before [finalize]; after [finalize] that range holds a piece of
    the index table, and the metadata block of the section is gone too. *)
Theorem finalize_overwrites_section_bytes :
  exists before after file,
    write_sections raw_tobytes 0 1 0 [ab_xy] [cd_ww; ab_zz] 8 16 (new_writer Little)
    = (before, inr tt)
    /\ finalize before = (after, inr file)
    /\ file = buf after
    /\ index_entries after
       = [(str_lit "keyword", 28, 36); (str_lit "vector", 54, 70)]
    /\ kw_chunk 8 ab_xy = inr (bytes_lit "ab-xy" ++ [x00; x00; x00])
    /\ py_slice (buf before) 28 36 = bytes_lit "ab-xy" ++ [x00; x00; x00]
    /\ py_slice (buf after) 28 36 = bytes_lit "ector-(5"
    /\ py_slice (buf before) 11 28 = le_bytes 8 28 ++ le_bytes 8 36 ++ [x08]
    /\ py_slice (buf after) 11 28 = bytes_lit "keyword-(28,36)" ++ [x00]
                                    ++ bytes_lit "v".
Proof.
  do 3 eexists.
  split; [vm_compute; reflexivity |].
  split; [vm_compute; reflexivity |].
  repeat split; vm_compute; reflexivity.
Qed.

(** The smallest case: with a single keyword section the table already
    replaces the patched start and end fields of the metadata block. *)
Lemma finalize_overwrites_metadata (host : byteorder) :
  exists before after file,
    (write_header 0 1 0 ;;; write_keyword_section [ab_xy] 8) (new_writer host)
    = (before, inr tt)
    /\ finalize before = (after, inr file)
    /\ py_slice (buf after) 11 27 = bytes_lit "keyword-(28,36)" ++ [x00]
    /\ py_slice (buf before) 11 27 <> py_slice (buf after) 11 27.
Proof.
  destruct host; do 3 eexists;
    (split; [vm_compute; reflexivity |]);
    (split; [vm_compute; reflexivity |]);
    (split; [vm_compute; reflexivity |]);
    vm_compute; discriminate.
Qed.

(** C2. Search does not agree with the reference filter.  Two pairs whose
    records are exactly one alignment unit long get no pad byte, so nothing
    separates them in the file: with ("ab", "x") and ("cd", "y") at
    alignment 4 the search for "ab" returns the content "xcd-y" and the
    search for "cd" returns nothing. *)
Theorem search_differs_from_reference :
  exists w file,
    write_keyword_file Little 0 1 0 [ab_x; cd_y] 4 = (w, inr file)
    /\ py_slice file 28 36 = bytes_lit "ab-xcd-y"
    /\ snd (search_keyword file (str_lit "ab") 4 new_reader)
       = inr [{| keyword := str_lit "ab"; content := str_lit "xcd-y" |}]
    /\ reference_search (str_lit "ab") [ab_x; cd_y] = [ab_x]
    /\ snd (search_keyword file (str_lit "cd") 4 new_reader) = inr []
    /\ reference_search (str_lit "cd") [ab_x; cd_y] = [cd_y].
Proof.
  do 2 eexists.
  split; [vm_compute; reflexivity |].
  repeat split; vm_compute; reflexivity.
Qed.

(** C4. The scan is not confined to the keyword section.  In a file laid
    out as documented, whose keyword entry names [60, 68), the window read
    at 60 runs on to the end of the file, and the search for "ab" also
    returns ("ab", "zz"), a record of the embedding section at [94, 102).
    A file produced by the writer itself behaves the same way: the only
    pair returned for "ab" comes from the embedding section. *)
Theorem search_reads_past_section_end :
  length layout_file = 102%nat
  /\ snd (parse_index layout_file new_reader) = inr tt
  /\ _index (fst (parse_index layout_file new_reader)) !! str_lit "keyword"
     = Some (60, 68)
  /\ py_slice layout_file 60 68 = bytes_lit "ab-xy" ++ [x00; x00; x00]
  /\ py_slice layout_file 94 102 = bytes_lit "ab-zz" ++ [x00; x00; x00]
  /\ snd (search_keyword layout_file (str_lit "ab") 8 new_reader)
     = inr [ab_xy; {| keyword := str_lit "ab"; content := str_lit "zz" |}]
  /\ exists w file,
       (write_sections raw_tobytes 0 1 0 [ab_xy] [cd_ww; ab_zz] 8 16 ;;; finalize)
         (new_writer Little)
       = (w, inr file)
       /\ _index (fst (parse_index file new_reader)) !! str_lit "keyword"
          = Some (28, 36)
       /\ py_slice file 62 70 = bytes_lit "ab-zz" ++ [x00; x00; x00]
       /\ snd (search_keyword file (str_lit "ab") 8 new_reader)
          = inr [{| keyword := str_lit "ab"; content := str_lit "zz" |}].
Proof.
  repeat (split; [vm_compute; reflexivity |]).
  do 2 eexists.
  split; [vm_compute; reflexivity |].
  repeat split; vm_compute; reflexivity.
Qed.

(** ** Splitting text *)

Section Split.
Context {A : Type} `{EqDecision A}.
Implicit Types (s cur : list A).

Lemma split_go_one_absent (c : A) s cur :
  c ∉ s -> split_go [c] 0 cur s = [rev cur ++ s].
Proof.
  revert cur. induction s as [| x s IH]; intros cur Hc; simpl.
  - now rewrite app_nil_r.
  - apply not_elem_of_cons in Hc as [Hx Hs].
    rewrite bool_decide_eq_false_2 by congruence. simpl.
    rewrite IH by assumption. simpl. now rewrite <- app_assoc.
Qed.

Lemma split_go_one_found (c : A) s1 s2 cur :
  c ∉ s1 ->
  split_go [c] 0 cur (s1 ++ c :: s2) = (rev cur ++ s1) :: split_go [c] 0 [] s2.
Proof.
  revert cur. induction s1 as [| x s1 IH]; intros cur Hc; simpl.
  - rewrite bool_decide_eq_true_2 by reflexivity. simpl. now rewrite app_nil_r.
  - apply not_elem_of_cons in Hc as [Hx Hs].
    rewrite bool_decide_eq_false_2 by congruence. simpl.
    rewrite IH by assumption. simpl. now rewrite <- app_assoc.
Qed.

Lemma is_prefix_two_absent (a b : A) s : b ∉ s -> is_prefix [a; b] s = false.
Proof.
  intros Hb. destruct s as [| x [| y s]]; simpl; try reflexivity.
  - now rewrite andb_false_r.
  - apply not_elem_of_cons in Hb as [_ Hb]. apply not_elem_of_cons in Hb as [Hy _].
    rewrite (bool_decide_eq_false_2 (b = y)) by assumption.
    now rewrite andb_false_r.
Qed.

Lemma split_go_two_absent (a b : A) s cur :
  b ∉ s -> split_go [a; b] 0 cur s = [rev cur ++ s].
Proof.
  revert cur. induction s as [| x s IH]; intros cur Hb.
  - simpl. now rewrite app_nil_r.
  - cbn [split_go]. rewrite is_prefix_two_absent by assumption.
    apply not_elem_of_cons in Hb as [_ Hb].
    rewrite IH by assumption. simpl. now rewrite <- app_assoc.
Qed.

Lemma split_go_two_found (a b : A) name rest cur :
  a <> b -> contains [a; b] name = false ->
  split_go [a; b] 0 cur (name ++ a :: b :: rest)
  = (rev cur ++ name) :: split_go [a; b] 0 [] rest.
Proof.
  intros Hab. revert cur. induction name as [| x name IH]; intros cur Hname.
  - simpl. rewrite !bool_decide_eq_true_2 by reflexivity. simpl.
    now rewrite app_nil_r.
  - cbn [contains] in Hname. apply orb_false_elim in Hname as [Hhere Hlater].
    change ((x :: name) ++ a :: b :: rest) with (x :: (name ++ a :: b :: rest)).
    cbn [split_go].
    assert (Hpre : is_prefix [a; b] (x :: name ++ a :: b :: rest) = false).
    { destruct name as [| y name].
      - simpl. rewrite (bool_decide_eq_false_2 (b = a)) by congruence.
        simpl. now rewrite andb_false_r.
      - exact Hhere. }
    rewrite Hpre, IH by assumption. simpl. now rewrite <- app_assoc.
Qed.

(** [(l + [x])[:-1] = l] *)
Lemma py_slice_drop_last (l : list A) (x : A) : py_slice (l ++ [x]) 0 (-1) = l.
Proof.
  unfold py_slice, adjust_index. rewrite length_app. simpl.
  replace (Z.to_nat (Z.min 0 _)) with 0%nat by lia.
  replace (Z.to_nat _) with (length l) by lia.
  simpl. apply take_app_length.
Qed.
End Split.

(** ** ASCII text through the UTF-8 codec *)

Lemma to_N_byte_of_N (c : N) : (c < 256)%N -> Byte.to_N (byte_of_N c) = c.
Proof.
  intros Hc. unfold byte_of_N, byte_of_Z.
  rewrite Z.mod_small by lia. rewrite N2Z.id.
  destruct (Byte.of_N c) as [b |] eqn:Hb.
  - now apply Byte.to_of_N.
  - apply Byte.of_N_None_iff in Hb. lia.
Qed.

Definition ascii (c : N) : Prop := (c < 128)%N.

Lemma encode_utf8_ascii (s : str) :
  Forall ascii s -> encode_utf8 s = inr (map byte_of_N s).
Proof.
  induction 1 as [| c s Hc _ IH]; [reflexivity |].
  simpl. unfold encode_cp. unfold ascii in Hc.
  destruct (N.ltb_spec c 128); [| lia].
  rewrite IH. reflexivity.
Qed.

Lemma decode_utf8_ascii (s : str) :
  Forall ascii s -> decode_utf8 (map byte_of_N s) = inr s.
Proof.
  induction 1 as [| c s Hc _ IH]; [reflexivity |].
  unfold ascii in Hc. cbn [map decode_utf8].
  rewrite to_N_byte_of_N by lia.
  destruct (N.ltb_spec c 128); [| lia].
  rewrite IH. reflexivity.
Qed.

Lemma byte_of_N_nonzero (c : N) : (0 < c < 256)%N -> byte_of_N c <> x00.
Proof.
  intros Hc Heq. apply (f_equal Byte.to_N) in Heq.
  rewrite to_N_byte_of_N in Heq by lia. simpl in Heq. lia.
Qed.

(** ** Integers as text *)

(** The characters of a printed integer: the sign and the ten digits. *)
Definition int_char (c : N) : Prop := c = 45%N \/ (48 <= c <= 57)%N.

Lemma uint_cps_digits d : Forall (fun c => (48 <= c <= 57)%N) (uint_cps d).
Proof. induction d; simpl; constructor; try assumption; unfold digit_cp; lia. Qed.

Lemma py_str_chars z : Forall int_char (py_str z).
Proof.
  destruct z as [| p | p]; simpl.
  - constructor; [right; unfold digit_cp; lia | constructor].
  - eapply Forall_impl; [apply uint_cps_digits |]. intros c Hc. now right.
  - constructor; [now left |].
    eapply Forall_impl; [apply uint_cps_digits |]. intros c Hc. now right.
Qed.

Lemma digits_value_acc d acc :
  digits_value (Zpos acc) true (uint_cps d) = Some (Zpos (Pos.of_uint_acc d acc)).
Proof.
  revert acc. induction d; intros acc; simpl; try reflexivity;
    rewrite <- IHd; f_equal; lia.
Qed.

Lemma digits_value_uint d seen :
  d <> Decimal.Nil \/ seen = true ->
  digits_value 0 seen (uint_cps d) = Some (Z.of_N (Pos.of_uint d)).
Proof.
  revert seen. induction d; intros seen Hd; simpl;
    try (rewrite <- digits_value_acc; f_equal; lia).
  - destruct Hd as [Hd | ->]; [congruence | reflexivity].
  - apply IHd. now right.
Qed.

Lemma lstrip_id (s : str) :
  match s with c :: _ => is_space c = false | [] => True end -> lstrip s = s.
Proof. destruct s as [| c s]; simpl; [reflexivity |]. now intros ->. Qed.

Lemma strip_id (s : str) : Forall (fun c => is_space c = false) s -> strip s = s.
Proof.
  intros Hs. unfold strip.
  rewrite (lstrip_id s) by (destruct Hs; auto).
  rewrite lstrip_id, rev_involutive; [reflexivity |].
  apply Forall_rev in Hs. destruct Hs; auto.
Qed.

Lemma int_char_not_space c : int_char c -> is_space c = false.
Proof.
  intros [-> | Hc]; [reflexivity |].
  unfold is_space, in_range.
  repeat match goal with
         | |- context [(?a <=? ?b)%N] => destruct (N.leb_spec a b); try lia
         | |- context [(?a =? ?b)%N] => destruct (N.eqb_spec a b); try lia
         end; reflexivity.
Qed.

(** *** The digit limit *)

Lemma uint_cps_length d : length (uint_cps d) = Decimal.nb_digits d.
Proof. induction d; simpl; congruence. Qed.

Lemma double_digits d :
  (Decimal.nb_digits (Decimal.Little.double d) <= S (Decimal.nb_digits d))%nat
  /\ (Decimal.nb_digits (Decimal.Little.succ_double d) <= S (Decimal.nb_digits d))%nat.
Proof. induction d; simpl; lia. Qed.

(** A number of [n] bits has at most [n] decimal digits. *)
Lemma digits_le_bits (p : positive) :
  forall n : nat, Z.pos p < 2 ^ Z.of_nat n ->
    (Decimal.nb_digits (Pos.to_little_uint p) <= n)%nat.
Proof.
  induction p as [p IH | p IH |]; intros n Hp;
    (destruct n as [| n]; [simpl in Hp; lia |]);
    rewrite Nat2Z.inj_succ, Z.pow_succ_r in Hp by lia; cbn [Pos.to_little_uint].
  - pose proof (proj2 (double_digits (Pos.to_little_uint p))).
    specialize (IH n ltac:(lia)). lia.
  - pose proof (proj1 (double_digits (Pos.to_little_uint p))).
    specialize (IH n ltac:(lia)). lia.
  - simpl. lia.
Qed.

Lemma py_str_length (z : Z) :
  0 <= z < 2 ^ 64 -> (length (py_str z) <= 64)%nat.
Proof.
  intros Hz. destruct z as [| p | p]; [simpl; lia | | lia].
  cbn [py_str]. rewrite uint_cps_length. unfold Pos.to_uint.
  rewrite DecimalFacts.nb_digits_rev. apply digits_le_bits.
  change (Z.of_nat 64) with 64. lia.
Qed.

(** An offset that fits an unsigned 64-bit field is formatted as its
    decimal text. *)
Lemma format_int_fits (z : Z) : 0 <= z < 2 ^ 64 -> format_int z = inr (py_str z).
Proof.
  intros Hz. unfold format_int. rewrite Z.abs_eq by lia.
  pose proof (py_str_length z Hz) as Hlen. unfold max_str_digits.
  destruct (Nat.ltb_spec 4300 (length (py_str z))); [lia | reflexivity].
Qed.

Lemma format_entry_fits (name : str) (s e : Z) :
  0 <= s < 2 ^ 64 -> 0 <= e < 2 ^ 64 ->
  format_entry name s e = inr (entry_text name s e).
Proof.
  intros Hs He. unfold format_entry.
  now rewrite !format_int_fits by assumption.
Qed.

Lemma to_ascii_id (c : N) : (c < 127)%N -> to_ascii c = c.
Proof. intros Hc. unfold to_ascii. now destruct (N.ltb_spec c 127); [| lia]. Qed.

Lemma map_to_ascii_id (s : str) :
  Forall (fun c => (c < 127)%N) s -> map to_ascii s = s.
Proof.
  induction 1 as [| c s Hc _ IH]; [reflexivity |].
  cbn [map]. now rewrite to_ascii_id, IH.
Qed.

Lemma count_digits_length (s : str) : (count_digits s <= length s)%nat.
Proof. unfold count_digits. apply List.filter_length_le. Qed.

(** Reading back a printed offset. *)
Lemma py_int_py_str (z : Z) : 0 <= z < 2 ^ 64 -> py_int (py_str z) = Some z.
Proof.
  intros Hz. pose proof (py_str_length z Hz) as Hlen.
  unfold py_int. rewrite map_to_ascii_id
    by (eapply Forall_impl; [apply py_str_chars |]; intros c [-> | Hc]; lia).
  rewrite strip_id
    by (eapply Forall_impl; [apply py_str_chars | apply int_char_not_space]).
  assert (Hlit : literal_value (py_str z) = Some z).
  { unfold literal_value.
    pose proof (count_digits_length (py_str z)) as Hcount. unfold max_str_digits.
    destruct (Nat.ltb_spec 4300 (count_digits (py_str z))) as [| _]; [lia |].
    destruct z as [| p | p]; [reflexivity | | lia].
    cbn [py_str].
    pose proof (DecimalPos.Unsigned.to_uint_nonnil p) as Hnil.
    rewrite (digits_value_uint (Pos.to_uint p) false (or_introl Hnil)).
    now rewrite DecimalPos.Unsigned.of_to. }
  destruct z as [| p | p]; [reflexivity | | lia].
  cbn [py_str] in *.
  pose proof (uint_cps_digits (Pos.to_uint p)) as Hdig.
  destruct (uint_cps (Pos.to_uint p)) as [| c s] eqn:Hcs; [exact Hlit |].
  apply Forall_cons in Hdig as [Hc _].
  destruct c as [| q]; [lia |].
  repeat (destruct q as [q | q |]; try lia; try exact Hlit).
Qed.

(** ** The index parser, run *)

Lemma read_index_bytes_acc f acc :
  read_index_bytes f acc = acc ++ read_index_bytes f [].
Proof.
  revert acc. induction f as [| b f IH]; intros acc; simpl.
  - now rewrite app_nil_r.
  - destruct (bool_decide (b = x00)); [now rewrite app_nil_r |].
    rewrite (IH (acc ++ [b])), (IH [b]). now rewrite <- app_assoc.
Qed.

Lemma read_index_bytes_no_nul f : x00 ∉ read_index_bytes f [].
Proof.
  induction f as [| b f IH]; simpl; [apply not_elem_of_nil |].
  destruct (bool_decide (b = x00)) eqn:Hb; [apply not_elem_of_nil |].
  apply bool_decide_eq_false_1 in Hb.
  rewrite read_index_bytes_acc. simpl.
  apply not_elem_of_cons. split; [congruence | exact IH].
Qed.

Lemma read_index_bytes_terminated e rest :
  x00 ∉ e -> read_index_bytes (e ++ x00 :: rest) [] = e.
Proof.
  induction e as [| b e IH]; intros He; simpl; [reflexivity |].
  apply not_elem_of_cons in He as [Hb He].
  rewrite bool_decide_eq_false_2 by congruence.
  rewrite read_index_bytes_acc, IH by assumption. reflexivity.
Qed.

Lemma decode_entry_empty : decode_entry [] = None.
Proof. reflexivity. Qed.

(** [parse_index] always returns, and caches what the bytes before the
    first terminator decode to, if they decode, and nothing otherwise. *)
Lemma parse_index_run (file : list byte) (r : RAGFileReader) :
  parse_index file r
  = ({| _index := index_of_entry (first_entry_bytes file) |}, inr tt).
Proof.
  unfold parse_index, first_entry_bytes, index_of_entry.
  set (entry := read_index_bytes _ []).
  rewrite run_bind. cbn [modify].
  unfold py_split.
  rewrite (split_go_one_absent x00 entry [])
    by (apply read_index_bytes_no_nul).
  cbn [rev app for_each]. rewrite run_bind.
  destruct entry as [| b entry'] eqn:He.
  - rewrite decode_entry_empty. reflexivity.
  - destruct (decode_entry (b :: entry')) as [[[name start] end_] |];
      [| reflexivity].
    cbn [modify ret _index]. rewrite insert_empty. reflexivity.
Qed.

(** ** Entries written by [write_index_strategy], read by [parse_index] *)

Lemma int_char_absent (c : N) z :
  c <> 45%N -> ~ (48 <= c <= 57)%N -> c ∉ py_str z.
Proof.
  intros H1 H2 Hin.
  pose proof (py_str_chars z) as Hall.
  rewrite Forall_forall in Hall. destruct (Hall c Hin) as [-> | H]; [congruence | tauto].
Qed.

Lemma entry_text_chars name s e :
  Forall (fun c => (0 < c < 128)%N) name ->
  Forall (fun c => (0 < c < 128)%N) (entry_text name s e).
Proof.
  intros Hname. unfold entry_text.
  assert (Hint : forall z, Forall (fun c => (0 < c < 128)%N) (py_str z)).
  { intros z. eapply Forall_impl; [apply py_str_chars |].
    intros c [-> | Hc]; lia. }
  repeat apply Forall_app_2; auto;
    repeat constructor; cbv; try reflexivity.
Qed.

Lemma decode_entry_entry_text (name : str) (s e : Z) :
  entry_name name -> 0 <= s < 2 ^ 64 -> 0 <= e < 2 ^ 64 ->
  exists bs,
    encode_utf8 (entry_text name s e) = inr bs
    /\ (x00 ∉ bs)
    /\ decode_entry bs = Some (name, s, e).
Proof.
  intros [Hname Hsep] Hs He.
  pose proof (entry_text_chars name s e Hname) as Hchars.
  assert (Hascii : Forall ascii (entry_text name s e))
    by (eapply Forall_impl; [exact Hchars |]; intros c Hc; unfold ascii;
        cbv beta in Hc; lia).
  exists (map byte_of_N (entry_text name s e)).
  split; [now apply encode_utf8_ascii |]. split.
  - intros Hin. apply list_elem_of_fmap in Hin as (c & Hc & Hin).
    rewrite Forall_forall in Hchars. specialize (Hchars c Hin).
    symmetry in Hc. revert Hc. apply byte_of_N_nonzero. lia.
  - unfold decode_entry. rewrite decode_utf8_ascii by assumption.
    unfold entry_text, py_split.
    change (str_lit "-(") with [45%N; 40%N] in *.
    change (str_lit ",") with [44%N]. change (str_lit ")") with [41%N].
    cbn [app].
    rewrite (split_go_two_found 45%N 40%N name _ []) by (congruence || assumption).
    rewrite (split_go_two_absent 45%N 40%N _ []).
    2:{ repeat (rewrite not_elem_of_app || rewrite not_elem_of_cons).
        repeat split; try (apply int_char_absent; lia); try lia.
        apply not_elem_of_nil. }
    cbn [rev app].
    replace (py_str s ++ 44%N :: py_str e ++ [41%N])
      with ((py_str s ++ 44%N :: py_str e) ++ [41%N])
      by (now rewrite <- app_assoc).
    rewrite py_slice_drop_last.
    rewrite (split_go_one_found 44%N (py_str s) (py_str e) [])
      by (apply int_char_absent; lia).
    rewrite (split_go_one_absent 44%N (py_str e) [])
      by (apply int_char_absent; lia).
    cbn [rev app]. rewrite !py_int_py_str by assumption. reflexivity.
Qed.

Lemma first_entry_bytes_terminated hdr entry rest :
  length hdr = 11%nat -> x00 ∉ entry ->
  first_entry_bytes (hdr ++ entry ++ x00 :: rest) = entry.
Proof.
  intros Hhdr Hentry. unfold first_entry_bytes.
  change (Z.to_nat _header_end) with 11%nat. rewrite <- Hhdr.
  rewrite drop_app_length. now apply read_index_bytes_terminated.
Qed.

Lemma parse_index_written_entry hdr name s e entry rest r :
  length hdr = 11%nat -> entry_name name ->
  0 <= s < 2 ^ 64 -> 0 <= e < 2 ^ 64 ->
  encode_utf8 (entry_text name s e) = inr entry ->
  first_entry_bytes (hdr ++ entry ++ x00 :: rest) = entry
  /\ parse_index (hdr ++ entry ++ x00 :: rest) r
     = ({| _index := {[ name := (s, e) ]} |}, inr tt).
Proof.
  intros Hhdr Hname Hs He Henc.
  destruct (decode_entry_entry_text name s e Hname Hs He) as (bs & Hbs & Hnul & Hdec).
  assert (bs = entry) as -> by congruence.
  assert (Hfirst : first_entry_bytes (hdr ++ entry ++ x00 :: rest) = entry)
    by now apply first_entry_bytes_terminated.
  split; [exact Hfirst |].
  rewrite parse_index_run, Hfirst. unfold index_of_entry. rewrite Hdec.
  reflexivity.
Qed.

(** C3. In a file whose index table holds two entries or more, each
    followed by its 0x00 and each with offsets that fit the unsigned 64-bit
    fields of the format, the read loop of [parse_index] stops at the first
    terminator: what it collects is the first entry alone, and the mapping
    it caches is exactly that entry; the second entry, and whatever follows
    it, is never looked at. *)
Theorem parse_index_recovers_first_entry_only
    (hdr entry1 entry2 rest : list byte) (name1 name2 : str) (s1 e1 s2 e2 : Z)
    (r : RAGFileReader) :
  length hdr = 11%nat ->
  entry_name name1 -> entry_name name2 ->
  0 <= s1 < 2 ^ 64 -> 0 <= e1 < 2 ^ 64 ->
  0 <= s2 < 2 ^ 64 -> 0 <= e2 < 2 ^ 64 ->
  encode_utf8 (entry_text name1 s1 e1) = inr entry1 ->
  encode_utf8 (entry_text name2 s2 e2) = inr entry2 ->
  let file := hdr ++ entry1 ++ x00 :: entry2 ++ x00 :: rest in
  first_entry_bytes file = entry1
  /\ parse_index file r = ({| _index := {[ name1 := (s1, e1) ]} |}, inr tt)
  /\ (name2 <> name1 -> _index (fst (parse_index file r)) !! name2 = None).
Proof.
  intros Hhdr Hn1 Hn2 Hs1 He1 _ _ H1 H2 file.
  destruct (parse_index_written_entry hdr name1 s1 e1 entry1
              (entry2 ++ x00 :: rest) r Hhdr Hn1 Hs1 He1 H1) as [Hfirst Hrun].
  split; [exact Hfirst |]. split; [exact Hrun |].
  intros Hne. unfold file. rewrite Hrun. cbn [fst _index].
  apply lookup_singleton_ne. congruence.
Qed.

Lemma parse_index_recovers_first_entry_only_witness :
  let file :=
    sample_header ++ bytes_lit "keyword-(28,36)" ++ x00
      :: bytes_lit "vector-(54,70)" ++ x00 :: bytes_lit "ab-zz" in
  first_entry_bytes file = bytes_lit "keyword-(28,36)"
  /\ parse_index file new_reader
     = ({| _index := {[ str_lit "keyword" := (28, 36) ]} |}, inr tt)
  /\ (str_lit "vector" <> str_lit "keyword" ->
      _index (fst (parse_index file new_reader)) !! str_lit "vector" = None).
Proof.
  apply (parse_index_recovers_first_entry_only
           sample_header (bytes_lit "keyword-(28,36)") (bytes_lit "vector-(54,70)")
           (bytes_lit "ab-zz") (str_lit "keyword") (str_lit "vector")
           28 36 54 70 new_reader).
  - reflexivity.
  - split; [repeat constructor; cbv; reflexivity | reflexivity].
  - split; [repeat constructor; cbv; reflexivity | reflexivity].
  - lia.
  - lia.
  - lia.
  - lia.
  - vm_compute. reflexivity.
  - vm_compute. reflexivity.
Defined.

(** ** What the index parser accepts *)

Section Pieces.
Context {A : Type} `{EqDecision A}.

Lemma split_go_nonempty (sep : list A) skip cur s : split_go sep skip cur s <> [].
Proof.
  revert skip cur. induction s as [| c s IH]; intros skip cur; cbn [split_go].
  - discriminate.
  - destruct skip; [| apply IH].
    destruct (is_prefix sep (c :: s)); [discriminate | apply IH].
Qed.

Lemma split_go_no_separator (sep : list A) cur s :
  contains sep s = false -> split_go sep 0 cur s = [rev cur ++ s].
Proof.
  revert cur. induction s as [| c s IH]; intros cur Hs; cbn [split_go].
  - now rewrite app_nil_r.
  - cbn [contains] in Hs. apply orb_false_elim in Hs as [-> Hs].
    rewrite IH by assumption. cbn [rev]. now rewrite <- app_assoc.
Qed.

(** A split that gives one piece gave back the whole sequence. *)
Lemma split_go_single (sep : list A) cur s p :
  split_go sep 0 cur s = [p] -> p = rev cur ++ s.
Proof.
  revert cur. induction s as [| c s IH]; intros cur H; cbn [split_go] in H.
  - injection H as <-. now rewrite app_nil_r.
  - destruct (is_prefix sep (c :: s)).
    + injection H as _ H. now apply split_go_nonempty in H.
    + apply IH in H. rewrite H. cbn [rev]. now rewrite <- app_assoc.
Qed.

(** A split at a one-character separator that gives two pieces. *)
Lemma split_go_one_two_pieces (c : A) cur s p1 p2 :
  split_go [c] 0 cur s = [p1; p2] ->
  exists n0, p1 = rev cur ++ n0 /\ s = n0 ++ c :: p2.
Proof.
  revert cur. induction s as [| x s IH]; intros cur H; [discriminate |].
  cbn [split_go is_prefix] in H.
  destruct (bool_decide (c = x)) eqn:Hx; cbn [andb length Nat.sub] in H.
  - apply bool_decide_eq_true_1 in Hx as <-. injection H as <- H.
    apply split_go_single in H. cbn [rev app] in H. subst p2.
    exists []. now rewrite app_nil_r.
  - apply IH in H as (n0 & -> & ->). exists (x :: n0).
    cbn [rev]. now rewrite <- app_assoc.
Qed.

Lemma is_prefix_app (p l l' : list A) :
  is_prefix p l = true -> is_prefix p (l ++ l') = true.
Proof.
  revert l. induction p as [| x p IH]; intros l H; [reflexivity |].
  destruct l as [| y l]; [discriminate |].
  cbn [is_prefix app] in *. apply andb_prop in H as [-> H].
  now rewrite IH.
Qed.

(** A split at a two-character separator that gives two pieces: the
    separator occurs after the first piece and not inside it. *)
Lemma split_go_two_pieces (x y : A) cur s p1 p2 :
  split_go [x; y] 0 cur s = [p1; p2] ->
  exists n0, p1 = rev cur ++ n0 /\ s = n0 ++ x :: y :: p2
             /\ contains [x; y] n0 = false.
Proof.
  revert cur. induction s as [| c s IH]; intros cur H; [discriminate |].
  cbn [split_go] in H.
  destruct (is_prefix [x; y] (c :: s)) eqn:Hp.
  - destruct s as [| c' s]; cbn [is_prefix] in Hp;
      [now rewrite andb_false_r in Hp |].
    apply andb_prop in Hp as [Hc Hp]. apply andb_prop in Hp as [Hc' _].
    apply bool_decide_eq_true_1 in Hc as <-.
    apply bool_decide_eq_true_1 in Hc' as <-.
    injection H as <- H. cbn [length Nat.sub split_go] in H.
    apply split_go_single in H. cbn [rev app] in H. subst p2.
    exists []. now rewrite app_nil_r.
  - apply IH in H as (n0 & -> & -> & Hn0). exists (c :: n0).
    cbn [rev]. rewrite <- app_assoc. repeat split.
    cbn [contains]. rewrite Hn0, orb_false_r.
    destruct (is_prefix [x; y] (c :: n0)) eqn:Hq; [| reflexivity].
    apply (is_prefix_app _ _ (x :: y :: p2)) in Hq.
    cbn [app] in Hq. congruence.
Qed.

(** The separator cannot start inside a run that its second character
    does not occur in, unless the rest starts with that character. *)
Lemma contains_two_skip (x y : A) (l rest : list A) :
  y ∉ l -> head rest <> Some y ->
  contains [x; y] (l ++ rest) = contains [x; y] rest.
Proof.
  induction l as [| c l IH]; intros Hl Hrest; [reflexivity |].
  apply not_elem_of_cons in Hl as [Hc Hl].
  cbn [app contains]. rewrite IH by assumption.
  replace (is_prefix [x; y] (c :: l ++ rest)) with false; [reflexivity |].
  symmetry. cbn [is_prefix].
  destruct l as [| c' l]; cbn [app].
  - destruct rest as [| c' rest]; [apply andb_false_r |].
    rewrite (bool_decide_eq_false_2 (y = c')), andb_false_r; [reflexivity |].
    intros <-. now apply Hrest.
  - apply not_elem_of_cons in Hl as [Hc' _].
    now rewrite (bool_decide_eq_false_2 (y = c')), andb_false_r.
Qed.

Lemma py_slice_drop_last_inv (l t : list A) :
  py_slice l 0 (-1) = t -> t <> [] -> exists c, l = t ++ [c].
Proof.
  intros H Ht. destruct l as [| c l _] using rev_ind.
  - vm_compute in H. congruence.
  - rewrite py_slice_drop_last in H. subst. now exists c.
Qed.
End Pieces.

(** *** The text [int] reads *)

Lemma lstrip_spaces (s : str) :
  exists sp, s = sp ++ lstrip s /\ Forall (fun c => is_space c = true) sp.
Proof.
  induction s as [| c s (sp & IH & Hsp)]; [now exists [] |].
  cbn [lstrip]. destruct (is_space c) eqn:Hc.
  - exists (c :: sp). cbn [app]. split; [congruence | now constructor].
  - now exists [].
Qed.

Lemma strip_spaces (s : str) :
  exists sp1 sp2,
    s = sp1 ++ strip s ++ sp2
    /\ Forall (fun c => is_space c = true) sp1
    /\ Forall (fun c => is_space c = true) sp2.
Proof.
  destruct (lstrip_spaces s) as (sp1 & H1 & Hsp1).
  destruct (lstrip_spaces (rev (lstrip s))) as (sp2 & H2 & Hsp2).
  exists sp1, (rev sp2). repeat split; [| assumption | now apply Forall_rev].
  unfold strip. rewrite <- rev_app_distr, <- H2, rev_involutive. exact H1.
Qed.

Lemma digits_value_chars (ds : str) :
  forall acc seen v,
    digits_value acc seen ds = Some v ->
    Forall (fun c => in_range 48 57 c = true \/ c = 95%N) ds
    /\ match last ds with
       | Some c => in_range 48 57 c = true
       | None => seen = true
       end.
Proof.
  induction ds as [| c ds IH]; intros acc seen v H; cbn [digits_value] in H.
  - split; [constructor |]. cbn. now destruct seen.
  - destruct (in_range 48 57 c) eqn:Hc.
    + apply IH in H as [Hall Hlast]. split; [constructor; auto |].
      destruct ds as [| c' ds]; [exact Hc |].
      change (last (c :: c' :: ds)) with (last (c' :: ds)).
      destruct (last (c' :: ds)) eqn:Hl; [exact Hlast |].
      now apply last_None in Hl.
    + destruct (N.eqb_spec c 95) as [-> |]; [| discriminate].
      destruct seen; [| discriminate]. cbn [andb] in H.
      apply IH in H as [Hall Hlast]. split; [constructor; auto |].
      destruct ds as [| c' ds]; [discriminate |].
      change (last (95%N :: c' :: ds)) with (last (c' :: ds)).
      destruct (last (c' :: ds)) eqn:Hl; [exact Hlast |].
      now apply last_None in Hl.
Qed.

Lemma literal_value_chars (ds : str) v :
  literal_value ds = Some v ->
  Forall (fun c => in_range 48 57 c = true \/ c = 95%N) ds
  /\ exists c, last ds = Some c /\ in_range 48 57 c = true.
Proof.
  unfold literal_value. intros H.
  destruct (digits_value 0 false ds) as [v' |] eqn:Hv; [| discriminate].
  apply digits_value_chars in Hv as [Hall Hlast]. split; [exact Hall |].
  destruct (last ds) as [c |]; [now exists c | discriminate].
Qed.

(** The characters of a text that [int] reads, once brought to ASCII:
    whitespace, digits, the underscore and the two signs. *)
Definition int_text_char (c : N) : Prop :=
  is_space c = true \/ in_range 48 57 c = true
  \/ c = 95%N \/ c = 43%N \/ c = 45%N.

(** Such a text is made of these characters and ends with a digit or with
    whitespace. *)
Lemma py_int_ascii_text (u : str) :
  (exists v, match strip u with
             | 45%N :: ds => Z.opp <$> literal_value ds
             | 43%N :: ds => literal_value ds
             | ds => literal_value ds
             end = Some v) ->
  Forall int_text_char u
  /\ exists c, last u = Some c
               /\ (is_space c = true \/ in_range 48 57 c = true).
Proof.
  intros [v Hv].
  destruct (strip_spaces u) as (sp1 & sp2 & Hu & Hsp1 & Hsp2).
  assert (Hbody : Forall int_text_char (strip u)
                  /\ exists c, last (strip u) = Some c
                               /\ in_range 48 57 c = true).
  { assert (Hlit : forall ds w, literal_value ds = Some w ->
                Forall int_text_char ds
                /\ exists c, last ds = Some c /\ in_range 48 57 c = true).
    { intros ds w Hw. apply literal_value_chars in Hw as [Hall Hlast].
      split; [| exact Hlast].
      eapply Forall_impl; [exact Hall |]. intros c [Hc | Hc]; red; auto. }
    assert (Hsigned : forall sign ds w,
                int_text_char sign -> literal_value ds = Some w ->
                Forall int_text_char (sign :: ds)
                /\ exists c, last (sign :: ds) = Some c
                             /\ in_range 48 57 c = true).
    { intros sign ds w Hsign Hw. apply Hlit in Hw as [Hall (c & Hlast & Hc)].
      split; [now constructor |]. exists c. split; [| exact Hc].
      destruct ds; [discriminate | exact Hlast]. }
    destruct (strip u) as [| c ds] eqn:Hstrip; [now apply (Hlit [] v) |].
    destruct (N.eq_dec c 45%N) as [-> | H45].
    { destruct (literal_value ds) as [w |] eqn:Hw; [| discriminate].
      apply (Hsigned _ _ w); [red; auto 6 | exact Hw]. }
    destruct (N.eq_dec c 43%N) as [-> | H43].
    { apply (Hsigned _ _ v); [red; auto 6 | exact Hv]. }
    apply (Hlit _ v).
    destruct c as [| p]; [exact Hv |].
    repeat (destruct p as [p | p |]; try exact Hv; try congruence). }
  destruct Hbody as [Hall (c & Hlast & Hc)].
  assert (Hspace : forall sp, Forall (fun c => is_space c = true) sp ->
                     Forall int_text_char sp)
    by (intros sp Hsp; eapply Forall_impl; [exact Hsp |]; intros x Hx; red; auto).
  split.
  - rewrite Hu. repeat apply Forall_app_2; auto.
  - rewrite Hu, app_assoc.
    destruct sp2 as [| x sp2 _] using rev_ind.
    + rewrite app_nil_r.
      destruct (strip u) as [| y t _] using rev_ind; [discriminate |].
      rewrite app_assoc, last_snoc. rewrite last_snoc in Hlast.
      exists c. split; [exact Hlast | now right].
    + rewrite app_assoc, last_snoc. exists x. split; [reflexivity | left].
      apply Forall_app in Hsp2 as [_ Hx]. now apply Forall_cons in Hx as [Hx _].
Qed.

Lemma to_ascii_punctuation (c : N) :
  int_text_char (to_ascii c) -> c <> 40%N /\ c <> 44%N.
Proof.
  intros H. split; intros ->; cbv in H; intuition discriminate.
Qed.

Lemma to_ascii_minus (c : N) :
  is_space (to_ascii c) = true \/ in_range 48 57 (to_ascii c) = true ->
  c <> 45%N.
Proof. intros H ->. cbv in H. intuition discriminate. Qed.

(** A text that [int] reads holds no '(' and no ',', is not empty and
    does not end with '-'. *)
Lemma py_int_text (t : str) (v : Z) :
  py_int t = Some v ->
  (40%N ∉ t) /\ (44%N ∉ t) /\ exists t' x, t = t' ++ [x] /\ x <> 45%N.
Proof.
  intros H.
  destruct (py_int_ascii_text (map to_ascii t) (ex_intro _ v H))
    as [Hall (c & Hlast & Hc)].
  assert (Hchars : Forall (fun c => c <> 40%N /\ c <> 44%N) t).
  { rewrite List.Forall_map in Hall. eapply Forall_impl; [exact Hall |].
    intros x Hx. now apply to_ascii_punctuation. }
  rewrite Forall_forall in Hchars.
  split; [intros Hin; now destruct (Hchars _ Hin) |].
  split; [intros Hin; now destruct (Hchars _ Hin) |].
  destruct t as [| x t' _] using rev_ind; [discriminate |].
  exists t', x. split; [reflexivity |].
  rewrite map_app in Hlast. cbn [map] in Hlast. rewrite last_snoc in Hlast.
  injection Hlast as <-. now apply to_ascii_minus.
Qed.

(** The parser caches an entry exactly when it is accepted. *)
Lemma accepted_entry_decodes (entry : list byte) (name : str) (s e : Z) :
  accepted_entry entry name s e <-> decode_entry entry = Some (name, s, e).
Proof.
  unfold accepted_entry, decode_entry.
  change (str_lit "-(") with [45%N; 40%N]. change (str_lit ",") with [44%N].
  split.
  - intros (a & b & c & -> & Hname & Ha & Hb).
    destruct (py_int_text a s Ha) as (Ha40 & Ha44 & _).
    destruct (py_int_text b e Hb) as (Hb40 & Hb44 & b' & x & -> & Hx).
    unfold py_split. cbn [app].
    rewrite (split_go_two_found 45%N 40%N name _ []) by (congruence || assumption).
    rewrite split_go_no_separator.
    2:{ rewrite contains_two_skip; [| assumption | cbn; congruence].
        cbn [contains is_prefix]. rewrite (bool_decide_eq_false_2 (45%N = 44%N)) by lia.
        cbn [andb orb]. rewrite <- app_assoc.
        rewrite contains_two_skip;
          [| intros Hin; apply Hb40; apply elem_of_app; now left
           | cbn; intros [= ->]; apply Hb40; apply elem_of_app; right; now left].
        cbn [app contains is_prefix].
        rewrite (bool_decide_eq_false_2 (45%N = x)) by congruence.
        cbn [andb orb]. now rewrite andb_false_r. }
    cbn [rev app].
    replace (a ++ 44%N :: (b' ++ [x]) ++ [c])
      with ((a ++ 44%N :: b' ++ [x]) ++ [c])
      by (now rewrite <- app_assoc).
    rewrite py_slice_drop_last.
    rewrite (split_go_one_found 44%N a (b' ++ [x]) []) by assumption.
    rewrite (split_go_one_absent 44%N (b' ++ [x]) []) by assumption.
    cbn [rev app]. now rewrite Ha, Hb.
  - intros H.
    destruct (decode_utf8 entry) as [| text]; [discriminate |].
    destruct (py_split [45%N; 40%N] text) as [| p1 [| rest [| ? ?]]] eqn:Hsplit;
      try discriminate.
    destruct (py_split [44%N] (py_slice rest 0 (-1)))
      as [| a [| b [| ? ?]]] eqn:Hfields; try discriminate.
    destruct (py_int a) as [s' |] eqn:Ha; [| discriminate].
    destruct (py_int b) as [e' |] eqn:Hb; [| discriminate].
    injection H as -> -> ->.
    apply split_go_two_pieces in Hsplit as (n0 & -> & -> & Hn0).
    apply split_go_one_two_pieces in Hfields as (a0 & -> & Hrest).
    cbn [rev app] in *.
    apply py_slice_drop_last_inv in Hrest as [c ->];
      [| now destruct a0].
    exists a0, b, c. repeat split; try assumption.
    cbn [app]. now rewrite <- app_assoc.
Qed.

(** ** Malformed entries *)

(** An entry of the grammar decodes to its own fields. *)
Lemma spec_entry_grammar_decodes entry :
  spec_entry_grammar entry ->
  exists name s e, decode_entry entry = Some (name, s, e) /\ s <= e.
Proof.
  intros (name & s & e & Hname & Hle & Hfit & Henc).
  destruct (decode_entry_entry_text name s e Hname ltac:(lia) ltac:(lia))
    as (bs & Hbs & _ & Hdec).
  assert (bs = entry) as -> by congruence.
  exists name, s, e. split; [exact Hdec | lia].
Qed.

(** C5, as stated, fails.  An entry without the '-' of the separator is
    outside the grammar and [parse_index] skips it without raising; an
    entry whose start exceeds its end is outside the grammar and is cached
    as it stands; so is an entry whose last character is not ')'. *)
Lemma malformed_entries_are_not_rejected :
  (~ spec_entry_grammar (bytes_lit "keyword(28,36)")
   /\ parse_index (sample_header ++ bytes_lit "keyword(28,36)" ++ [x00]) new_reader
      = ({| _index := ∅ |}, inr tt))
  /\ (~ spec_entry_grammar (bytes_lit "keyword-(36,28)")
      /\ parse_index (sample_header ++ bytes_lit "keyword-(36,28)" ++ [x00]) new_reader
         = ({| _index := {[ str_lit "keyword" := (36, 28) ]} |}, inr tt))
  /\ (~ spec_entry_grammar (bytes_lit "keyword-(28,36]")
      /\ parse_index (sample_header ++ bytes_lit "keyword-(28,36]" ++ [x00]) new_reader
         = ({| _index := {[ str_lit "keyword" := (28, 36) ]} |}, inr tt)).
Proof.
  split; [| split]; split.
  - intros H. apply spec_entry_grammar_decodes in H as (name & s & e & Hdec & _).
    vm_compute in Hdec. discriminate.
  - rewrite parse_index_run. vm_compute. reflexivity.
  - intros H. apply spec_entry_grammar_decodes in H as (name & s & e & Hdec & Hle).
    vm_compute in Hdec. injection Hdec as _ <- <-. lia.
  - rewrite parse_index_run. vm_compute. reflexivity.
  - intros (name & s & e & Hname & _ & _ & Henc).
    pose proof (entry_text_chars name s e (proj1 Hname)) as Hchars.
    assert (Hascii : Forall ascii (entry_text name s e))
      by (eapply Forall_impl; [exact Hchars |]; intros c Hc; unfold ascii;
          cbv beta in Hc; lia).
    rewrite (encode_utf8_ascii _ Hascii) in Henc. injection Henc as Henc.
    apply (f_equal (@last byte)) in Henc.
    unfold entry_text in Henc.
    rewrite !app_assoc, map_app, last_app in Henc.
    vm_compute in Henc. discriminate.
  - rewrite parse_index_run. vm_compute. reflexivity.
Qed.

(** C5, amended.  Decoding an index entry never fails: [parse_index]
    returns normally on every file.  The entry it collects is cached
    exactly when it is accepted: UTF-8 text made of a name without the
    separator "-(", the separator, two fields that [int] reads with a
    comma between them, and one last character that is dropped without
    being compared with ')'.  Every other entry is skipped and nothing is
    cached for it.  No order of start and end is asked for: an entry as
    the writer formats it, with offsets that fit the unsigned 64-bit
    fields, is cached whatever the order of its start and end. *)
Theorem malformed_entry_is_skipped_silently
    (file hdr entry rest : list byte) (r : RAGFileReader) :
  snd (parse_index file r) = inr tt
  /\ (length hdr = 11%nat -> x00 ∉ entry ->
      (forall name s e,
          accepted_entry entry name s e ->
          parse_index (hdr ++ entry ++ x00 :: rest) r
          = ({| _index := {[ name := (s, e) ]} |}, inr tt))
      /\ ((forall name s e, ~ accepted_entry entry name s e) ->
          parse_index (hdr ++ entry ++ x00 :: rest) r
          = ({| _index := ∅ |}, inr tt))
      /\ (forall name s e,
             entry_name name -> 0 <= s < 2 ^ 64 -> 0 <= e < 2 ^ 64 ->
             encode_utf8 (entry_text name s e) = inr entry ->
             parse_index (hdr ++ entry ++ x00 :: rest) r
             = ({| _index := {[ name := (s, e) ]} |}, inr tt))).
Proof.
  split; [rewrite parse_index_run; reflexivity |].
  intros Hhdr Hnul.
  assert (Hrun : parse_index (hdr ++ entry ++ x00 :: rest) r
                 = ({| _index := index_of_entry entry |}, inr tt))
    by (rewrite parse_index_run, first_entry_bytes_terminated by assumption;
        reflexivity).
  split; [| split].
  - intros name s e Hacc. apply accepted_entry_decodes in Hacc.
    rewrite Hrun. unfold index_of_entry. now rewrite Hacc.
  - intros Hnone. rewrite Hrun. unfold index_of_entry.
    destruct (decode_entry entry) as [[[name s] e] |] eqn:Hdec; [| reflexivity].
    apply accepted_entry_decodes in Hdec. now apply Hnone in Hdec.
  - intros name s e Hname Hs He Henc. now apply parse_index_written_entry.
Qed.

Lemma malformed_entry_is_skipped_silently_witness :
  snd (parse_index layout_file new_reader) = inr tt
  /\ parse_index (sample_header ++ bytes_lit "keyword-(28,36" ++ x00 :: []) new_reader
     = ({| _index := {[ str_lit "keyword" := (28, 3) ]} |}, inr tt)
  /\ parse_index (sample_header ++ bytes_lit "keyword(28,36)" ++ x00 :: []) new_reader
     = ({| _index := ∅ |}, inr tt)
  /\ parse_index (sample_header ++ bytes_lit "keyword-(36,28)" ++ x00 :: []) new_reader
     = ({| _index := {[ str_lit "keyword" := (36, 28) ]} |}, inr tt).
Proof.
  split; [| split; [| split]].
  - apply (malformed_entry_is_skipped_silently
             layout_file sample_header (bytes_lit "keyword(28,36)") [] new_reader).
  - refine (proj1 (proj2 (malformed_entry_is_skipped_silently
                            layout_file sample_header (bytes_lit "keyword-(28,36")
                            [] new_reader) eq_refl _)
              (str_lit "keyword") 28 3 _).
    + apply (bool_decide_unpack _). vm_compute. exact I.
    + exists (str_lit "28"), (str_lit "3"), 54%N.
      vm_compute. repeat split.
  - refine (proj1 (proj2 (proj2 (malformed_entry_is_skipped_silently
                                   layout_file sample_header
                                   (bytes_lit "keyword(28,36)") [] new_reader)
                            eq_refl _)) _).
    + apply (bool_decide_unpack _). vm_compute. exact I.
    + intros name s e Hacc. apply accepted_entry_decodes in Hacc.
      vm_compute in Hacc. discriminate.
  - refine (proj2 (proj2 (proj2 (malformed_entry_is_skipped_silently
                                   layout_file sample_header
                                   (bytes_lit "keyword-(36,28)") [] new_reader)
                            eq_refl _))
              (str_lit "keyword") 36 28 _ _ _ _).
    + apply (bool_decide_unpack _). vm_compute. exact I.
    + split; [repeat constructor; cbv; reflexivity | reflexivity].
    + lia.
    + lia.
    + vm_compute. reflexivity.
Defined.

(** ** When the search does agree with the reference

    The scan returns the reference result under three conditions that the
    container does not enforce: every record is followed by at least one
    pad byte, the index table fits in the space of the metadata block it
    overwrites, and the section fits in one window. *)

Lemma search_loop_step mm query padding end_ pos results :
  search_loop mm query padding end_ pos results =
  if Z_lt_dec pos end_ then
    match py_slice mm pos (pos + padding * 256) with
    | [] => inr results
    | b :: block =>
        match scan_records query (py_split [x00] (b :: block)) results with
        | inl e => inl e
        | inr results' =>
            search_loop mm query padding end_
              (pos + Z.of_nat (length (b :: block))) results'
        end
    end
  else inr results.
Proof.
  rewrite search_loop_equation_1.
  destruct (Z_lt_dec pos end_) as [Hlt | Hge]; [| reflexivity].
  simp search_loop.
  destruct (py_slice mm pos (pos + padding * 256)) as [| b block]; [reflexivity |].
  simp search_loop.
  destruct (scan_records query (py_split [x00] (b :: block)) results); reflexivity.
Qed.

Lemma split_go_nul_run (k : nat) (rest : list byte) :
  split_go [x00] 0 [] (repeat x00 k ++ rest)
  = repeat [] k ++ split_go [x00] 0 [] rest.
Proof.
  induction k as [| k IH]; [reflexivity |].
  cbn [repeat app split_go is_prefix].
  rewrite bool_decide_eq_true_2 by reflexivity. cbn [andb length Nat.sub rev].
  now rewrite IH.
Qed.

Lemma split_go_chunk (rec rest : list byte) (k : nat) :
  x00 ∉ rec ->
  split_go [x00] 0 [] ((rec ++ repeat x00 (S k)) ++ rest)
  = rec :: repeat [] k ++ split_go [x00] 0 [] rest.
Proof.
  intros Hrec. rewrite <- app_assoc. cbn [repeat app].
  rewrite split_go_one_found by assumption. cbn [rev app].
  now rewrite split_go_nul_run.
Qed.

Lemma scan_records_skip_empty query (k : nat) pieces results :
  scan_records query (repeat [] k ++ pieces) results
  = scan_records query pieces results.
Proof. induction k as [| k IH]; [reflexivity | exact IH]. Qed.

Lemma split_once_go_found {A} `{EqDecision A} (c : A) (l1 l2 cur : list A) :
  c ∉ l1 ->
  split_once_go [c] cur (l1 ++ c :: l2) = Some (rev cur ++ l1, l2).
Proof.
  revert cur. induction l1 as [| x l1 IH]; intros cur Hc; simpl.
  - rewrite bool_decide_eq_true_2 by reflexivity. simpl. now rewrite app_nil_r.
  - apply not_elem_of_cons in Hc as [Hx Hl].
    rewrite bool_decide_eq_false_2 by congruence. simpl.
    rewrite IH by assumption. simpl. now rewrite <- app_assoc.
Qed.

Lemma contains_found {A} `{EqDecision A} (c : A) (l1 l2 : list A) :
  contains [c] (l1 ++ c :: l2) = true.
Proof.
  induction l1 as [| x l1 IH]; simpl.
  - now rewrite bool_decide_eq_true_2.
  - rewrite IH. apply orb_true_r.
Qed.

Lemma byte_of_N_absent (c : N) (s : str) :
  (c < 256)%N -> Forall (fun x => (0 < x < 128)%N) s -> c ∉ s ->
  byte_of_N c ∉ map byte_of_N s.
Proof.
  intros Hc Hs Hin Hmem. apply list_elem_of_fmap in Hmem as (x & Hx & Hmem).
  rewrite Forall_forall in Hs. specialize (Hs x Hmem).
  apply (f_equal Byte.to_N) in Hx. rewrite !to_N_byte_of_N in Hx by lia.
  congruence.
Qed.

Lemma ascii_of_nonzero (s : str) :
  Forall (fun c => (0 < c < 128)%N) s -> Forall ascii s.
Proof.
  intros H. eapply Forall_impl; [exact H |].
  intros c Hc. unfold ascii. cbv beta in Hc. lia.
Qed.

Lemma scan_records_record a query (pair : kc_pair) pieces results :
  separated a pair ->
  scan_records query (record_bytes pair :: pieces) results
  = scan_records query pieces (results ++ reference_search query [pair]).
Proof.
  intros (Hkw & Hdash & Hct & _). destruct pair as [kw ct]. cbn [keyword content] in *.
  unfold record_bytes. cbn [keyword content scan_records].
  rewrite map_app. cbn [map].
  change (bytes_lit "-") with [byte_of_N 45].
  rewrite contains_found. cbn [negb]. unfold py_split_once.
  rewrite split_once_go_found
    by (apply byte_of_N_absent; [lia | assumption | assumption]).
  cbn [rev app rbind].
  rewrite !decode_utf8_ascii by now apply ascii_of_nonzero.
  cbn [rbind]. unfold reference_search. cbn [filter list_filter keyword].
  destruct (decide (kw = query)) as [Heq | Hne].
  - rewrite bool_decide_eq_true_2 by assumption. reflexivity.
  - rewrite bool_decide_eq_false_2 by assumption. now rewrite app_nil_r.
Qed.

Lemma record_bytes_no_nul a (pair : kc_pair) :
  separated a pair -> x00 ∉ record_bytes pair.
Proof.
  intros (Hkw & _ & Hct & _). unfold record_bytes.
  change x00 with (byte_of_N 0). intros Hin.
  apply list_elem_of_fmap in Hin as (c & Hc & Hin).
  assert (Hall : Forall (fun c => (0 < c < 128)%N) (keyword pair ++ 45%N :: content pair))
    by (apply Forall_app_2; [assumption | constructor; [lia | assumption]]).
  rewrite Forall_forall in Hall. specialize (Hall c Hin).
  apply (f_equal Byte.to_N) in Hc. rewrite !to_N_byte_of_N in Hc by lia. lia.
Qed.

Lemma kw_chunk_separated a (pair : kc_pair) :
  0 < a -> separated a pair ->
  exists k, kw_chunk a pair = inr (record_bytes pair ++ repeat x00 (S k)).
Proof.
  intros Ha (Hkw & _ & Hct & Hmod). unfold kw_chunk.
  change (str_lit "-") with [45%N]. cbn [app].
  rewrite encode_utf8_ascii.
  2:{ apply ascii_of_nonzero.
      apply Forall_app_2; [assumption | constructor; [lia | assumption]]. }
  cbn [rbind]. fold (record_bytes pair). unfold _pad.
  destruct (Z.eqb_spec a 0) as [| _]; [lia |].
  set (n := Z.of_nat (length (record_bytes pair))) in *.
  pose proof (Z.mod_pos_bound n a Ha) as Hn.
  rewrite (Z.mod_small (a - n mod a) a) by lia.
  exists (Nat.pred (Z.to_nat (a - n mod a))).
  replace (S (Nat.pred (Z.to_nat (a - n mod a)))) with (Z.to_nat (a - n mod a)) by lia.
  reflexivity.
Qed.

Lemma reference_search_cons query (pair : kc_pair) pairs :
  reference_search query (pair :: pairs)
  = reference_search query [pair] ++ reference_search query pairs.
Proof.
  unfold reference_search. cbn [filter list_filter].
  destruct (decide (keyword pair = query)); reflexivity.
Qed.

Lemma emit_separated a (pairs : list kc_pair) :
  0 < a -> Forall (separated a) pairs ->
  exists stream,
    emit (kw_chunk a) pairs = (stream, inr tt)
    /\ (stream = [] -> pairs = [])
    /\ forall query results,
         scan_records query (py_split [x00] stream) results
         = inr (results ++ reference_search query pairs).
Proof.
  intros Ha. induction 1 as [| pair pairs Hpair _ IH].
  - exists []. split; [reflexivity |]. split; [reflexivity |].
    intros query results. cbn. now rewrite app_nil_r.
  - destruct IH as (stream & Hemit & _ & Hscan).
    destruct (kw_chunk_separated a pair Ha Hpair) as (k & Hchunk).
    exists ((record_bytes pair ++ repeat x00 (S k)) ++ stream).
    split; [| split].
    + cbn [emit]. rewrite Hchunk, Hemit. reflexivity.
    + intros Hnil. apply app_eq_nil in Hnil as [Hnil _].
      apply app_eq_nil in Hnil as [_ Hnil]. discriminate.
    + intros query results. unfold py_split.
      rewrite split_go_chunk by (eapply record_bytes_no_nul; eassumption).
      rewrite (scan_records_record a) by assumption.
      rewrite scan_records_skip_empty. fold (py_split [x00] stream).
      rewrite Hscan, (reference_search_cons query pair pairs), app_assoc.
      reflexivity.
Qed.

Lemma py_str_short (z : Z) : 0 <= z < 1000 -> (length (py_str z) <= 3)%nat.
Proof.
  intros Hz.
  assert (Hall : forallb (fun n => length (py_str (Z.of_nat n)) <=? 3)%nat
                   (seq 0 1000) = true) by (vm_compute; reflexivity).
  rewrite forallb_forall in Hall.
  specialize (Hall (Z.to_nat z)). rewrite Z2Nat.id in Hall by lia.
  apply Nat.leb_le, Hall, in_seq. lia.
Qed.

Lemma entry_name_keyword : entry_name (str_lit "keyword").
Proof. split; [repeat constructor; cbv; reflexivity | reflexivity]. Qed.

(** The file of the benchmark's write path when the table fits in the
    metadata block: header, the one entry and its terminator, what is left
    of the metadata block, and the record stream from offset 28 on. *)
Lemma keyword_file_shape host major minor patch pairs a stream :
  a ∈ [4; 8; 16] ->
  0 <= major <= 255 -> 0 <= minor <= 255 -> 0 <= patch <= 255 ->
  emit (kw_chunk a) pairs = (stream, inr tt) ->
  28 + Z.of_nat (length stream) < 1000 ->
  exists w hdr entry filler,
    write_keyword_file host major minor patch pairs a
    = (w, inr (hdr ++ entry ++ x00 :: filler ++ stream))
    /\ length hdr = 11%nat
    /\ encode_utf8 (entry_text (str_lit "keyword") 28
                      (28 + Z.of_nat (length stream))) = inr entry
    /\ length (hdr ++ entry ++ x00 :: filler) = 28%nat.
Proof.
  intros Ha H1 H2 H3 Hemit Hsmall.
  pose proof (Nat2Z.is_nonneg (length stream)) as Hn.
  set (n := Z.of_nat (length stream)) in *.
  destruct (decode_entry_entry_text (str_lit "keyword") 28 (28 + n)
              entry_name_keyword ltac:(lia) ltac:(lia)) as (entry & Henc & _ & _).
  assert (Hentry : (length entry <= 16)%nat).
  { pose proof (entry_text_chars (str_lit "keyword") 28 (28 + n)
                  (proj1 entry_name_keyword)) as Hchars.
    rewrite (encode_utf8_ascii _ (ascii_of_nonzero _ Hchars)) in Henc.
    injection Henc as <-. cbn [length]. rewrite length_map, length_app.
    change (length (str_lit ")")) with 1%nat.
    pose proof (py_str_short (28 + n)). lia. }
  unfold write_keyword_file.
  rewrite run_bind, write_header_run by assumption.
  set (hdr := MAGIC ++ [byte_of_Z major; byte_of_Z minor; byte_of_Z patch]
                    ++ [byte_of_Z (endian_flag (new_writer host))]).
  assert (Hhdr : length hdr = 11%nat) by reflexivity.
  rewrite run_bind, write_keyword_section_run.
  rewrite (bool_decide_eq_true_2 _ Ha). cbv zeta. rewrite Hemit.
  cbn [buf set_buf struct_prefix index_entries]. rewrite Hhdr.
  change (Z.of_nat 11 + 17) with 28. fold n.
  destruct (pack_Q_ok (struct_prefix (new_writer host)) 28) as (s & -> & Hs); [lia |].
  destruct (pack_Q_ok (struct_prefix (new_writer host)) (28 + n))
    as (e & -> & He); [lia |].
  set (w2 := set_index_entries _ _).
  assert (Htable : index_table (index_entries w2) [] = inr (entry ++ [x00])).
  { subst w2. cbn [index_entries set_index_entries set_buf new_writer app index_table].
    rewrite format_entry_fits by lia. cbn [rbind]. rewrite Henc. reflexivity. }
  assert (Hbuf : buf w2 = hdr ++ (s ++ e ++ [byte_of_Z a]) ++ stream)
    by (subst w2; cbn [buf set_index_entries set_buf]; now rewrite <- !app_assoc).
  assert (Hmeta : length (s ++ e ++ [byte_of_Z a]) = 17%nat)
    by (rewrite !length_app, Hs, He; reflexivity).
  unfold finalize. rewrite run_bind.
  rewrite (write_index_strategy_replaces w2 (entry ++ [x00]) Htable)
    by (rewrite Hbuf, !length_app, Hhdr, Hs, He; simpl; lia).
  rewrite run_bind. unfold get, ret. cbn [buf set_buf].
  rewrite Hbuf. rewrite (take_app_length' hdr _ 11) by (symmetry; exact Hhdr).
  rewrite (drop_app_add' hdr _ 11) by (symmetry; exact Hhdr).
  rewrite drop_app_le by (rewrite Hmeta, length_app; simpl; lia).
  eexists _, hdr, entry, (skipn (length (entry ++ [x00])) (s ++ e ++ [byte_of_Z a])).
  split; [rewrite <- !app_assoc; reflexivity |].
  split; [exact Hhdr |]. split; [exact Henc |].
  rewrite length_app, Hhdr. cbn [length].
  rewrite length_app. cbn [length]. rewrite length_drop, Hmeta, length_app.
  cbn [length]. lia.
Qed.

(** A window that starts where [l] starts and reaches its end reads [l]. *)
Lemma py_slice_suffix {A} (pre l : list A) (lo hi : Z) :
  lo = Z.of_nat (length pre) -> lo + Z.of_nat (length l) <= hi ->
  py_slice (pre ++ l) lo hi = l.
Proof.
  intros -> Hhi. unfold py_slice, adjust_index. rewrite length_app.
  destruct (Z.ltb_spec (Z.of_nat (length pre)) 0); [lia |].
  destruct (Z.ltb_spec hi 0); [lia |].
  replace (Z.to_nat (Z.min (Z.of_nat (length pre)) _)) with (length pre) by lia.
  rewrite drop_app_length.
  apply firstn_all2. lia.
Qed.

(** X16. The search agrees with the reference filter on the benchmark's write
    path when every record is followed by a pad byte and the section ends
    before offset 1000, so that the index table stays within the metadata
    block and one window covers the section. *)
Lemma search_agrees_when_separated host major minor patch pairs a query :
  a ∈ [4; 8; 16] ->
  0 <= major <= 255 -> 0 <= minor <= 255 -> 0 <= patch <= 255 ->
  Forall (separated a) pairs ->
  28 + Z.of_nat (length (fst (emit (kw_chunk a) pairs))) < 1000 ->
  exists w file,
    write_keyword_file host major minor patch pairs a = (w, inr file)
    /\ snd (search_keyword file query a new_reader)
       = inr (reference_search query pairs).
Proof.
  intros Ha H1 H2 H3 Hpairs Hsmall.
  assert (Hpos : 4 <= a)
    by (rewrite !elem_of_cons, elem_of_nil in Ha; lia).
  destruct (emit_separated a pairs ltac:(lia) Hpairs) as (stream & Hemit & Hnil & Hscan).
  rewrite Hemit in Hsmall. cbn [fst] in Hsmall.
  destruct (keyword_file_shape host major minor patch pairs a stream
              Ha H1 H2 H3 Hemit Hsmall)
    as (w & hdr & entry & filler & Hfile & Hhdr & Henc & Hpre).
  exists w, (hdr ++ entry ++ x00 :: filler ++ stream). split; [exact Hfile |].
  unfold search_keyword.
  rewrite run_bind. cbn [get new_reader _index].
  rewrite bool_decide_eq_true_2 by reflexivity.
  rewrite run_bind.
  destruct (parse_index_written_entry hdr (str_lit "keyword") 28
              (28 + Z.of_nat (length stream)) entry (filler ++ stream)
              new_reader Hhdr entry_name_keyword ltac:(lia) ltac:(lia) Henc)
    as [_ ->].
  rewrite run_bind. cbn [get _index]. rewrite lookup_singleton_eq.
  replace (hdr ++ entry ++ x00 :: filler ++ stream)
    with ((hdr ++ entry ++ x00 :: filler) ++ stream)
    by (rewrite <- !app_assoc; reflexivity).
  set (pre := hdr ++ entry ++ x00 :: filler) in *.
  destruct (pre ++ stream) as [| b0 file'] eqn:Hcons.
  { apply (f_equal (@length byte)) in Hcons. rewrite length_app, Hpre in Hcons.
    discriminate. }
  rewrite <- Hcons. cbn [lift snd].
  rewrite search_loop_step.
  destruct (Z_lt_dec 28 (28 + Z.of_nat (length stream))) as [Hlt | Hge].
  - rewrite (py_slice_suffix pre stream) by (rewrite ?Hpre; lia).
    destruct stream as [| b block] eqn:Hstream; [simpl in Hlt; lia |].
    rewrite Hscan. cbn [app].
    rewrite search_loop_step.
    destruct (Z_lt_dec _ _) as [Hlt' | _]; [lia | reflexivity].
  - assert (stream = []) as -> by (destruct stream; [reflexivity | simpl in Hge; lia]).
    rewrite (Hnil eq_refl). reflexivity.
Qed.

(** * Further properties of the writer *)

(** ** The header *)

Lemma write_header_any (w : RAGFileWriter) (major minor patch : Z) :
  write_header major minor patch w
  = match pack_BBB major minor patch with
    | inl e => (set_buf (buf w ++ MAGIC) w, inl e)
    | inr version =>
        match pack_B (endian_flag w) with
        | inl e => (set_buf (buf w ++ MAGIC ++ version) w, inl e)
        | inr flag => (set_buf (buf w ++ MAGIC ++ version ++ flag) w, inr tt)
        end
    end.
Proof.
  cbv [write_header bind buf_extend modify lift get].
  destruct (pack_BBB major minor patch) as [e | version]; [reflexivity |].
  cbn [buf set_buf endian_flag].
  destruct (pack_B (endian_flag w)) as [e | flag]; cbn [buf set_buf];
    rewrite <- ?app_assoc; reflexivity.
Qed.

(** X1. [write_header] does not look at the buffer: with version numbers that
    fit a byte it appends the 11 header bytes to whatever is there, also
    after sections or a header already written. *)
Theorem write_header_appends_eleven_bytes
    (w : RAGFileWriter) (major minor patch : Z) :
  0 <= major <= 255 -> 0 <= minor <= 255 -> 0 <= patch <= 255 ->
  0 <= endian_flag w <= 255 ->
  write_header major minor patch w
  = (set_buf (buf w ++ MAGIC
              ++ [byte_of_Z major; byte_of_Z minor; byte_of_Z patch]
              ++ [byte_of_Z (endian_flag w)]) w,
     inr tt)
  /\ length (buf (fst (write_header major minor patch w)))
     = (length (buf w) + 11)%nat
  /\ index_entries (fst (write_header major minor patch w)) = index_entries w.
Proof.
  intros H1 H2 H3 Hflag.
  assert (Hrun : write_header major minor patch w
                 = (set_buf (buf w ++ MAGIC
                             ++ [byte_of_Z major; byte_of_Z minor; byte_of_Z patch]
                             ++ [byte_of_Z (endian_flag w)]) w,
                    inr tt)).
  { rewrite write_header_any. unfold pack_BBB, rbind.
    rewrite !pack_B_ok by assumption. reflexivity. }
  rewrite Hrun. split; [reflexivity |]. split; [| reflexivity].
  cbn [fst buf set_buf]. rewrite !length_app. reflexivity.
Qed.

Lemma write_header_appends_eleven_bytes_witness :
  let w := fst (write_header 0 1 0 (new_writer Big)) in
  write_header 2 0 255 w
  = (set_buf (buf w ++ MAGIC ++ [byte_of_Z 2; byte_of_Z 0; byte_of_Z 255]
              ++ [byte_of_Z (endian_flag w)]) w,
     inr tt)
  /\ length (buf (fst (write_header 2 0 255 w))) = (length (buf w) + 11)%nat
  /\ index_entries (fst (write_header 2 0 255 w)) = index_entries w.
Proof.
  apply (write_header_appends_eleven_bytes
           (fst (write_header 0 1 0 (new_writer Big))) 2 0 255);
    vm_compute; split; discriminate.
Defined.

Lemma pack_B_bad v : ~ 0 <= v <= 255 -> pack_B v = inl StructError.
Proof.
  intros H. unfold pack_B.
  destruct (Z.leb_spec 0 v); destruct (Z.leb_spec v 255); try reflexivity; lia.
Qed.

(** X2. A version number that does not fit a byte makes [write_header] raise
    [struct.error] after the magic has been appended: the buffer is left
    with the 7 magic bytes and no version or endianness byte. *)
Theorem write_header_bad_version_leaves_magic
    (w : RAGFileWriter) (major minor patch : Z) :
  ~ (0 <= major <= 255 /\ 0 <= minor <= 255 /\ 0 <= patch <= 255) ->
  write_header major minor patch w = (set_buf (buf w ++ MAGIC) w, inl StructError).
Proof.
  intros Hbad. rewrite write_header_any. unfold pack_BBB, rbind.
  destruct (Z_le_dec 0 major) as [? |]; [| now rewrite pack_B_bad by lia].
  destruct (Z_le_dec major 255) as [? |]; [| now rewrite pack_B_bad by lia].
  rewrite (pack_B_ok major) by lia.
  destruct (Z_le_dec 0 minor) as [? |]; [| now rewrite pack_B_bad by lia].
  destruct (Z_le_dec minor 255) as [? |]; [| now rewrite pack_B_bad by lia].
  rewrite (pack_B_ok minor) by lia.
  rewrite pack_B_bad by lia. reflexivity.
Qed.

Lemma write_header_bad_version_leaves_magic_witness :
  write_header 0 256 0 (new_writer Little)
  = (set_buf (buf (new_writer Little) ++ MAGIC) (new_writer Little), inl StructError).
Proof.
  apply (write_header_bad_version_leaves_magic (new_writer Little) 0 256 0). lia.
Defined.

(** ** Padding *)

Lemma _pad_aligned (data : list byte) (a : Z) :
  0 < a -> Z.of_nat (length data) mod a = 0 -> _pad data a = inr data.
Proof.
  intros Ha Hmod. unfold _pad.
  destruct (Z.eqb_spec a 0) as [| _]; [lia |].
  rewrite Hmod, Z.sub_0_r, Z_mod_same_full. cbn [Z.to_nat repeat].
  now rewrite app_nil_r.
Qed.

(** X3. [_pad] leaves data alone exactly when its length is already a whole
    number of alignment units, and padding twice is padding once. *)
Theorem pad_fixes_aligned_data (data : list byte) (a : Z) :
  0 < a ->
  (_pad data a = inr data <-> Z.of_nat (length data) mod a = 0)
  /\ (forall chunk, _pad data a = inr chunk -> _pad chunk a = inr chunk).
Proof.
  intros Ha. split; [split |].
  - intros Hfix.
    destruct (_pad_padded data a Ha) as (chunk & Hchunk & pad & _ & Hmod & _).
    assert (chunk = data) as -> by congruence. exact Hmod.
  - now apply _pad_aligned.
  - intros chunk Hchunk.
    destruct (_pad_padded data a Ha) as (chunk' & Hchunk' & pad & _ & Hmod & _).
    assert (chunk' = chunk) as -> by congruence.
    now apply _pad_aligned.
Qed.

Lemma pad_fixes_aligned_data_witness :
  (_pad (bytes_lit "ab-x") 4 = inr (bytes_lit "ab-x")
   <-> Z.of_nat (length (bytes_lit "ab-x")) mod 4 = 0)
  /\ (forall chunk, _pad (bytes_lit "ab-x") 4 = inr chunk -> _pad chunk 4 = inr chunk).
Proof. apply (pad_fixes_aligned_data (bytes_lit "ab-x") 4). lia. Defined.

(** ** Metadata block and index entry *)

Lemma concat_length_aligned (a : Z) (chunks : list (list byte)) :
  0 < a ->
  Forall (fun c => Z.of_nat (length c) mod a = 0) chunks ->
  Z.of_nat (length (concat chunks)) mod a = 0.
Proof.
  intros Ha. induction 1 as [| c chunks Hc _ IH]; [reflexivity |].
  cbn [concat]. rewrite length_app, Nat2Z.inj_add.
  rewrite Z.add_mod, Hc, IH by lia. reflexivity.
Qed.

Lemma emit_stream_aligned {A} (chunk : A -> result (list byte)) (a : Z) (xs : list A) :
  0 < a ->
  (forall x c, chunk x = inr c -> Z.of_nat (length c) mod a = 0) ->
  Z.of_nat (length (fst (emit chunk xs))) mod a = 0.
Proof.
  intros Ha Hchunk.
  destruct (emit_chunks chunk xs) as (chunks & -> & Hall & _).
  apply concat_length_aligned; [exact Ha |].
  revert Hall. generalize (firstn (length chunks) xs).
  intros l Hall. induction Hall; constructor; eauto.
Qed.

Lemma kw_stream_aligned (a : Z) (pairs : list kc_pair) :
  0 < a -> Z.of_nat (length (fst (emit (kw_chunk a) pairs))) mod a = 0.
Proof.
  intros Ha. apply emit_stream_aligned; [exact Ha |].
  intros pair c Hc.
  destruct (kw_chunk_padded a pair c Ha Hc) as (record & _ & pad & _ & Hmod & _).
  exact Hmod.
Qed.

Lemma ec_stream_aligned {ndarray} (astype_tobytes : ndarray -> dtype -> list byte)
    (a precision : Z) (pairs : list (ec_pair ndarray)) :
  0 < a ->
  Z.of_nat (length (fst (emit (ec_chunk astype_tobytes a precision) pairs))) mod a = 0.
Proof.
  intros Ha. apply emit_stream_aligned; [exact Ha |].
  intros pair c Hc.
  destruct (ec_chunk_padded astype_tobytes a precision pair c Ha Hc)
    as (content_bytes & _ & pad & _ & Hmod & _).
  exact Hmod.
Qed.

(** X4. When a section write returns, the two offsets patched into its metadata
    block are the ones of the index entry it registers: the data region
    starts right after the block (17 bytes after the old end of the buffer
    for keywords, 18 for embeddings), ends where the buffer now ends, and
    is a whole number of alignment units long. *)
Theorem section_metadata_matches_index_entry
    {ndarray : Type} (astype_tobytes : ndarray -> dtype -> list byte)
    (w w' : RAGFileWriter) (kpairs : list kc_pair) (epairs : list (ec_pair ndarray))
    (a precision : Z) :
  let old_end := Z.of_nat (length (buf w)) in
  let data_end := Z.of_nat (length (buf w')) in
  (write_keyword_section kpairs a w = (w', inr tt) ->
   exists start_field end_field data,
     buf w' = buf w ++ start_field ++ end_field ++ [byte_of_Z a] ++ data
     /\ pack_Q (struct_prefix w) (old_end + 17) = inr start_field
     /\ pack_Q (struct_prefix w) data_end = inr end_field
     /\ index_entries w'
        = index_entries w ++ [(str_lit "keyword", old_end + 17, data_end)]
     /\ (data_end - (old_end + 17)) mod a = 0)
  /\ (write_embedding_section astype_tobytes epairs a precision w = (w', inr tt) ->
      exists start_field end_field data,
        buf w' = buf w ++ [byte_of_Z precision] ++ start_field ++ end_field
                       ++ [byte_of_Z a] ++ data
        /\ pack_Q (struct_prefix w) (old_end + 18) = inr start_field
        /\ pack_Q (struct_prefix w) data_end = inr end_field
        /\ index_entries w'
           = index_entries w ++ [(str_lit "vector", old_end + 18, data_end)]
        /\ (data_end - (old_end + 18)) mod a = 0).
Proof.
  cbv zeta. split.
  - rewrite write_keyword_section_run.
    destruct (bool_decide (a ∈ [4; 8; 16])) eqn:Ha; [| discriminate].
    assert (Hpos : 0 < a) by (destruct (padding_cases _ Ha) as [-> | [-> | ->]]; lia).
    pose proof (kw_stream_aligned a kpairs Hpos) as Hmod.
    cbv zeta. destruct (emit _ kpairs) as [stream [e | []]]; [discriminate |].
    cbn [fst] in Hmod.
    destruct (pack_Q _ _) as [e | s] eqn:Hs; [discriminate |].
    destruct (pack_Q _ (_ + _ + _)) as [e | e] eqn:He; [discriminate |].
    intros [= <-]. cbn [buf index_entries set_index_entries set_buf].
    assert (Hlen : Z.of_nat (length (buf w ++ s ++ e ++ [byte_of_Z a] ++ stream))
                   = Z.of_nat (length (buf w)) + 17 + Z.of_nat (length stream)).
    { rewrite !length_app, (pack_Q_length _ _ _ Hs), (pack_Q_length _ _ _ He).
      cbn [length]. lia. }
    cbn [app] in Hlen. exists s, e, stream. cbn [app]. rewrite Hlen.
    repeat split; try assumption; try reflexivity.
    now replace (_ + 17 + _ - (_ + 17)) with (Z.of_nat (length stream)) by lia.
  - rewrite write_embedding_section_run.
    destruct (bool_decide (a ∈ [4; 8; 16])) eqn:Ha; [| discriminate].
    destruct (bool_decide (precision ∈ [16; 32])); [| discriminate].
    assert (Hpos : 0 < a) by (destruct (padding_cases _ Ha) as [-> | [-> | ->]]; lia).
    pose proof (ec_stream_aligned astype_tobytes a precision epairs Hpos) as Hmod.
    cbv zeta. cbn [andb].
    destruct (emit _ epairs) as [stream [e | []]]; [discriminate |].
    cbn [fst] in Hmod.
    destruct (pack_Q _ _) as [e | s] eqn:Hs; [discriminate |].
    destruct (pack_Q _ (_ + _ + _)) as [e | e] eqn:He; [discriminate |].
    intros [= <-]. cbn [buf index_entries set_index_entries set_buf].
    assert (Hlen : Z.of_nat (length (buf w ++ [byte_of_Z precision] ++ s ++ e
                                      ++ [byte_of_Z a] ++ stream))
                   = Z.of_nat (length (buf w)) + 18 + Z.of_nat (length stream)).
    { rewrite !length_app, (pack_Q_length _ _ _ Hs), (pack_Q_length _ _ _ He).
      cbn [length]. lia. }
    cbn [app] in Hlen. exists s, e, stream. cbn [app]. rewrite Hlen.
    repeat split; try assumption; try reflexivity.
    now replace (_ + 18 + _ - (_ + 18)) with (Z.of_nat (length stream)) by lia.
Qed.

Lemma section_metadata_matches_index_entry_witness :
  let w := fst (write_header 0 1 0 (new_writer Little)) in
  let w' := fst (write_keyword_section [ab_xy] 8 w) in
  exists start_field end_field data,
    buf w' = buf w ++ start_field ++ end_field ++ [byte_of_Z 8] ++ data
    /\ pack_Q (struct_prefix w) (Z.of_nat (length (buf w)) + 17) = inr start_field
    /\ pack_Q (struct_prefix w) (Z.of_nat (length (buf w'))) = inr end_field
    /\ index_entries w'
       = index_entries w
         ++ [(str_lit "keyword", Z.of_nat (length (buf w)) + 17,
              Z.of_nat (length (buf w')))]
    /\ (Z.of_nat (length (buf w')) - (Z.of_nat (length (buf w)) + 17)) mod 8 = 0.
Proof.
  apply (section_metadata_matches_index_entry raw_tobytes
           (fst (write_header 0 1 0 (new_writer Little)))
           (fst (write_keyword_section [ab_xy] 8
                   (fst (write_header 0 1 0 (new_writer Little)))))
           [ab_xy] [] 8 32).
  vm_compute. reflexivity.
Defined.

(** ** [finalize] *)

Lemma write_index_strategy_run (w : RAGFileWriter) :
  write_index_strategy w
  = match index_table (index_entries w) [] with
    | inl e => (w, inl e)
    | inr table =>
        let grown :=
          buf w ++ repeat x00 (Z.to_nat (11 + Z.of_nat (length table)
                                            - Z.of_nat (length (buf w)))) in
        (set_buf (firstn 11 grown ++ table ++ skipn (11 + length table) grown) w,
         inr tt)
    end.
Proof.
  unfold write_index_strategy.
  rewrite run_bind. cbn [get]. rewrite run_bind. cbn [lift].
  destruct (index_table (index_entries w) []) as [e | table]; [reflexivity |].
  rewrite run_buf_len. change (Z.of_nat (length MAGIC) + 3 + 1) with 11.
  cbv zeta.
  destruct (Z.ltb_spec (Z.of_nat (length (buf w))) (11 + Z.of_nat (length table)))
    as [Hshort | Hlong].
  - rewrite run_bind. unfold buf_extend, buf_assign, modify. cbn [buf set_buf].
    rewrite py_slice_assign_inside
      by (rewrite ?length_app, ?repeat_length; lia).
    reflexivity.
  - rewrite run_ret. unfold buf_assign, modify.
    rewrite py_slice_assign_inside by lia.
    replace (Z.to_nat (11 + Z.of_nat (length table) - Z.of_nat (length (buf w))))
      with 0%nat by lia.
    cbn [repeat]. rewrite app_nil_r. reflexivity.
Qed.

Lemma finalize_run (w : RAGFileWriter) :
  finalize w
  = match index_table (index_entries w) [] with
    | inl e => (w, inl e)
    | inr table =>
        let grown :=
          buf w ++ repeat x00 (Z.to_nat (11 + Z.of_nat (length table)
                                            - Z.of_nat (length (buf w)))) in
        let file := firstn 11 grown ++ table ++ skipn (11 + length table) grown in
        (set_buf file w, inr file)
    end.
Proof.
  unfold finalize. rewrite run_bind, write_index_strategy_run.
  destruct (index_table _ _); reflexivity.
Qed.

(** The buffer with the table put in place. *)
Lemma placed_table_shape (b table : list byte) :
  let grown :=
    b ++ repeat x00 (Z.to_nat (11 + Z.of_nat (length table) - Z.of_nat (length b))) in
  let file := firstn 11 grown ++ table ++ skipn (11 + length table) grown in
  length (firstn 11 grown) = 11%nat
  /\ Z.of_nat (length file) = Z.max (Z.of_nat (length b)) (11 + Z.of_nat (length table)).
Proof.
  intros grown file.
  assert (Hgrown : Z.of_nat (length grown)
                   = Z.max (Z.of_nat (length b)) (11 + Z.of_nat (length table)))
    by (unfold grown; rewrite length_app, repeat_length; lia).
  assert (H11 : length (firstn 11 grown) = 11%nat) by (rewrite length_take; lia).
  split; [exact H11 |].
  unfold file. rewrite !length_app, H11, length_drop. lia.
Qed.

(** X5. [finalize] computes the whole table before it touches the buffer.  It
    then grows the buffer with zero bytes up to the end of the table if it
    is shorter, replaces the bytes at [11, 11 + len(table)) by the table and
    writes the result out: everything outside that range is kept, nothing
    is shifted, and the index entries stay as they are. *)
Theorem finalize_writes_table_at_eleven (w : RAGFileWriter) (table : list byte) :
  index_table (index_entries w) [] = inr table ->
  let grown :=
    buf w ++ repeat x00 (Z.to_nat (11 + Z.of_nat (length table)
                                      - Z.of_nat (length (buf w)))) in
  let file := firstn 11 grown ++ table ++ skipn (11 + length table) grown in
  finalize w = (set_buf file w, inr file)
  /\ Z.of_nat (length file)
     = Z.max (Z.of_nat (length (buf w))) (11 + Z.of_nat (length table))
  /\ py_slice file 11 (11 + Z.of_nat (length table)) = table.
Proof.
  intros Htable grown file.
  destruct (placed_table_shape (buf w) table) as [H11 Hfile].
  fold grown in H11, Hfile. fold file in Hfile.
  split; [| split].
  - rewrite finalize_run, Htable. reflexivity.
  - exact Hfile.
  - unfold py_slice, adjust_index. rewrite Hfile.
    destruct (Z.ltb_spec 11 0); [lia |].
    destruct (Z.ltb_spec (11 + Z.of_nat (length table)) 0); [lia |].
    replace (Z.to_nat (Z.min 11 _)) with (length (firstn 11 grown)) by lia.
    unfold file. rewrite drop_app_length.
    replace (Z.to_nat _) with (length table) by lia.
    apply take_app_length.
Qed.

Lemma finalize_writes_table_at_eleven_witness :
  let w := new_writer Little in
  let file := repeat x00 11 in
  finalize w = (set_buf file w, inr file)
  /\ Z.of_nat (length file) = Z.max (Z.of_nat (length (buf w))) (11 + 0)
  /\ py_slice file 11 (11 + 0) = [].
Proof.
  apply (finalize_writes_table_at_eleven (new_writer Little) []). reflexivity.
Defined.

(** ** The registered offsets, over whole programs *)

Lemma entries_chained_grow from es limit limit' :
  entries_chained from es limit -> limit <= limit' ->
  entries_chained from es limit'.
Proof.
  revert from. induction es as [| [[name s] e] es IH]; intros from; simpl.
  - lia.
  - intros (Hname & Hs & He & Hrest) Hle. repeat split; auto.
Qed.

Lemma entries_chained_snoc from es limit name s e limit' :
  entries_chained from es limit ->
  name ∈ section_names -> limit + 17 <= s -> s <= e -> e <= limit' ->
  entries_chained from (es ++ [(name, s, e)]) limit'.
Proof.
  revert from. induction es as [| [[name0 s0] e0] es IH]; intros from; simpl.
  - intros Hfrom Hname Hs He Hlim. repeat split; auto; lia.
  - intros (Hname0 & Hs0 & He0 & Hrest) Hname Hs He Hlim. repeat split; auto.
Qed.

Lemma offsets_consistent_set_buf (w : RAGFileWriter) (b : list byte) :
  offsets_consistent w -> (length (buf w) <= length b)%nat ->
  offsets_consistent (set_buf b w).
Proof.
  unfold offsets_consistent. cbn [buf index_entries set_buf]. intros H Hle.
  eapply entries_chained_grow; [exact H | lia].
Qed.

Lemma offsets_consistent_header (w : RAGFileWriter) major minor patch :
  offsets_consistent w -> offsets_consistent (fst (write_header major minor patch w)).
Proof.
  intros H. rewrite write_header_any.
  destruct (pack_BBB _ _ _) as [e | version];
    [| destruct (pack_B _) as [e | flag]];
    cbn [fst]; apply offsets_consistent_set_buf; auto;
    rewrite !length_app; lia.
Qed.

Lemma offsets_consistent_keyword (w : RAGFileWriter) pairs padding :
  offsets_consistent w ->
  offsets_consistent (fst (write_keyword_section pairs padding w)).
Proof.
  intros H. rewrite write_keyword_section_run.
  destruct (bool_decide _); [| exact H]. cbv zeta.
  destruct (emit _ pairs) as [stream [e | []]].
  { cbn [fst]. apply offsets_consistent_set_buf; auto. rewrite !length_app. lia. }
  destruct (pack_Q _ _) as [e | s] eqn:Hs.
  { cbn [fst]. apply offsets_consistent_set_buf; auto. rewrite !length_app. lia. }
  destruct (pack_Q _ (_ + _ + _)) as [e | e] eqn:He.
  { cbn [fst]. apply offsets_consistent_set_buf; auto. rewrite !length_app. lia. }
  cbn [fst]. unfold offsets_consistent in *.
  cbn [buf index_entries set_index_entries set_buf].
  pose proof (pack_Q_length _ _ _ Hs). pose proof (pack_Q_length _ _ _ He).
  eapply entries_chained_snoc; [exact H | | | |].
  - unfold section_names. rewrite elem_of_cons. now left.
  - lia.
  - lia.
  - rewrite !length_app. cbn [length]. lia.
Qed.

Lemma offsets_consistent_embedding {ndarray}
    (astype_tobytes : ndarray -> dtype -> list byte)
    (w : RAGFileWriter) pairs padding precision :
  offsets_consistent w ->
  offsets_consistent
    (fst (write_embedding_section astype_tobytes pairs padding precision w)).
Proof.
  intros H. rewrite write_embedding_section_run.
  destruct (_ && _); [| exact H]. cbv zeta.
  destruct (emit _ pairs) as [stream [e | []]].
  { cbn [fst]. apply offsets_consistent_set_buf; auto. rewrite !length_app. lia. }
  destruct (pack_Q _ _) as [e | s] eqn:Hs.
  { cbn [fst]. apply offsets_consistent_set_buf; auto. rewrite !length_app. lia. }
  destruct (pack_Q _ (_ + _ + _)) as [e | e] eqn:He.
  { cbn [fst]. apply offsets_consistent_set_buf; auto. rewrite !length_app. lia. }
  cbn [fst]. unfold offsets_consistent in *.
  cbn [buf index_entries set_index_entries set_buf].
  pose proof (pack_Q_length _ _ _ Hs). pose proof (pack_Q_length _ _ _ He).
  eapply entries_chained_snoc; [exact H | | | |].
  - unfold section_names. rewrite !elem_of_cons. right. now left.
  - lia.
  - lia.
  - rewrite !length_app. cbn [length]. lia.
Qed.

Lemma offsets_consistent_finalize (w : RAGFileWriter) :
  offsets_consistent w -> offsets_consistent (fst (finalize w)).
Proof.
  intros H. rewrite finalize_run.
  destruct (index_table _ _) as [e | table]; [exact H |].
  cbv zeta. cbn [fst]. apply offsets_consistent_set_buf; [exact H |].
  destruct (placed_table_shape (buf w) table) as [_ Hfile]. cbv zeta in Hfile. lia.
Qed.

Lemma offsets_consistent_after_calls
    {ndarray : Type} (astype_tobytes : ndarray -> dtype -> list byte)
    (w : RAGFileWriter) (calls : list (writer_call ndarray)) :
  offsets_consistent w -> offsets_consistent (after_calls astype_tobytes w calls).
Proof.
  unfold after_calls. revert w.
  induction calls as [| c calls IH]; intros w Hw; [exact Hw |].
  cbn [fold_left]. apply IH.
  destruct c; cbn [after_call].
  - now apply offsets_consistent_header.
  - now apply offsets_consistent_keyword.
  - now apply offsets_consistent_embedding.
  - now apply offsets_consistent_finalize.
Qed.

Lemma offsets_consistent_new (host : byteorder) : offsets_consistent (new_writer host).
Proof. destruct host; unfold offsets_consistent; simpl; lia. Qed.

(** The offsets a section write registers went through [_u64] first. *)
Lemma pack_Q_range o v bs : pack_Q o v = inr bs -> 0 <= v < 2 ^ 64.
Proof.
  unfold pack_Q.
  destruct (Z.leb_spec 0 v); destruct (Z.ltb_spec v (2 ^ 64)); cbn [andb];
    intros [=]; lia.
Qed.

Lemma offsets_fit_header (w : RAGFileWriter) major minor patch :
  offsets_fit w -> offsets_fit (fst (write_header major minor patch w)).
Proof.
  intros H. rewrite write_header_any.
  destruct (pack_BBB _ _ _) as [e | version];
    [| destruct (pack_B _) as [e | flag]]; exact H.
Qed.

Lemma offsets_fit_keyword (w : RAGFileWriter) pairs padding :
  offsets_fit w -> offsets_fit (fst (write_keyword_section pairs padding w)).
Proof.
  intros H. rewrite write_keyword_section_run.
  destruct (bool_decide _); [| exact H]. cbv zeta.
  destruct (emit _ pairs) as [stream [e | []]]; [exact H |].
  destruct (pack_Q _ _) as [e | s] eqn:Hs; [exact H |].
  destruct (pack_Q _ (_ + _ + _)) as [e | e] eqn:He; [exact H |].
  cbn [fst]. unfold offsets_fit in *.
  cbn [buf index_entries set_index_entries set_buf].
  apply Forall_app_2; [exact H |]. constructor; [| constructor].
  split; [exact (pack_Q_range _ _ _ Hs) | exact (pack_Q_range _ _ _ He)].
Qed.

Lemma offsets_fit_embedding {ndarray}
    (astype_tobytes : ndarray -> dtype -> list byte)
    (w : RAGFileWriter) pairs padding precision :
  offsets_fit w ->
  offsets_fit
    (fst (write_embedding_section astype_tobytes pairs padding precision w)).
Proof.
  intros H. rewrite write_embedding_section_run.
  destruct (_ && _); [| exact H]. cbv zeta.
  destruct (emit _ pairs) as [stream [e | []]]; [exact H |].
  destruct (pack_Q _ _) as [e | s] eqn:Hs; [exact H |].
  destruct (pack_Q _ (_ + _ + _)) as [e | e] eqn:He; [exact H |].
  cbn [fst]. unfold offsets_fit in *.
  cbn [buf index_entries set_index_entries set_buf].
  apply Forall_app_2; [exact H |]. constructor; [| constructor].
  split; [exact (pack_Q_range _ _ _ Hs) | exact (pack_Q_range _ _ _ He)].
Qed.

Lemma offsets_fit_finalize (w : RAGFileWriter) :
  offsets_fit w -> offsets_fit (fst (finalize w)).
Proof.
  intros H. rewrite finalize_run.
  destruct (index_table _ _) as [e | table]; exact H.
Qed.

Lemma offsets_fit_after_calls
    {ndarray : Type} (astype_tobytes : ndarray -> dtype -> list byte)
    (w : RAGFileWriter) (calls : list (writer_call ndarray)) :
  offsets_fit w -> offsets_fit (after_calls astype_tobytes w calls).
Proof.
  unfold after_calls. revert w.
  induction calls as [| c calls IH]; intros w Hw; [exact Hw |].
  cbn [fold_left]. apply IH.
  destruct c; cbn [after_call].
  - now apply offsets_fit_header.
  - now apply offsets_fit_keyword.
  - now apply offsets_fit_embedding.
  - now apply offsets_fit_finalize.
Qed.

Lemma offsets_fit_new (host : byteorder) : offsets_fit (new_writer host).
Proof. constructor. Qed.

(** X6. After any program of writer calls on a new writer (header, section
    writes and finalize in any order and number, with any arguments,
    whether a call returns or raises), the registered entries are named
    "keyword" or "vector" and name data regions that lie one after the
    other inside the buffer: each starts at least 17 bytes after the one
    before ends, none ends before it starts, and the last ends within the
    buffer. *)
Theorem registered_offsets_stay_consistent
    {ndarray : Type} (astype_tobytes : ndarray -> dtype -> list byte)
    (host : byteorder) (calls : list (writer_call ndarray)) :
  offsets_consistent (after_calls astype_tobytes (new_writer host) calls).
Proof. apply offsets_consistent_after_calls, offsets_consistent_new. Qed.

Lemma entry_name_vector : entry_name (str_lit "vector").
Proof. split; [repeat constructor; cbv; reflexivity | reflexivity]. Qed.

Lemma section_names_entry_name (name : str) :
  name ∈ section_names -> entry_name name.
Proof.
  unfold section_names. rewrite !elem_of_cons, elem_of_nil.
  intros [-> | [-> | []]]; [apply entry_name_keyword | apply entry_name_vector].
Qed.

Lemma index_table_written from es limit acc :
  entries_chained from es limit ->
  Forall (fun '(_, start, end_) => 0 <= start < 2 ^ 64 /\ 0 <= end_ < 2 ^ 64) es ->
  exists table, index_table es acc = inr (acc ++ table).
Proof.
  revert from acc. induction es as [| [[name s] e] es IH]; intros from acc; simpl.
  - intros _ _. exists []. now rewrite app_nil_r.
  - intros (Hname & _ & _ & Hrest) Hfit.
    apply Forall_cons in Hfit as [[Hs He] Hfit].
    destruct (decode_entry_entry_text name s e
                (section_names_entry_name _ Hname) Hs He)
      as (entry & Henc & _ & _).
    rewrite format_entry_fits by assumption. cbn [rbind]. rewrite Henc.
    cbn [rbind].
    destruct (IH e (acc ++ entry ++ [x00]) Hrest Hfit) as (table & ->).
    exists (entry ++ [x00] ++ table). now rewrite <- !app_assoc.
Qed.

(** X7. After any program of writer calls on a new writer, [finalize] returns
    normally: the names it has to encode are the two literals, so building
    the table cannot raise.  The file it writes is the buffer it leaves,
    at least 11 bytes long even when no header was written. *)
Theorem finalize_returns_after_any_program
    {ndarray : Type} (astype_tobytes : ndarray -> dtype -> list byte)
    (host : byteorder) (calls : list (writer_call ndarray)) :
  exists w' file,
    finalize (after_calls astype_tobytes (new_writer host) calls) = (w', inr file)
    /\ file = buf w'
    /\ (11 <= length file)%nat
    /\ index_entries w'
       = index_entries (after_calls astype_tobytes (new_writer host) calls).
Proof.
  pose proof (offsets_consistent_after_calls astype_tobytes _ calls
                (offsets_consistent_new host)) as Hinv.
  pose proof (offsets_fit_after_calls astype_tobytes _ calls
                (offsets_fit_new host)) as Hfit.
  set (w := after_calls astype_tobytes (new_writer host) calls) in *.
  destruct (index_table_written 0 (index_entries w) _ [] Hinv Hfit)
    as (table & Htable).
  cbn [app] in Htable.
  destruct (placed_table_shape (buf w) table) as [_ Hlen]. cbv zeta in Hlen.
  rewrite finalize_run, Htable. cbv zeta.
  do 2 eexists. split; [reflexivity |]. split; [reflexivity |].
  split; [lia | reflexivity].
Qed.

(** * Further properties of the reader *)

(** ** What a search does to the cache *)

Lemma search_keyword_empty_cache file query padding (r : RAGFileReader) :
  _index r = ∅ ->
  search_keyword file query padding r
  = let idx := index_of_entry (first_entry_bytes file) in
    match idx !! str_lit "keyword" with
    | None => ({| _index := idx |}, inr [])
    | Some (start, end_) =>
        match file with
        | [] => ({| _index := idx |}, inl ValueError)
        | _ :: _ =>
            ({| _index := idx |}, search_loop file query padding end_ start [])
        end
    end.
Proof.
  intros Hempty. unfold search_keyword.
  rewrite run_bind. cbn [get]. rewrite (bool_decide_eq_true_2 _ Hempty).
  rewrite run_bind, parse_index_run, run_bind. cbn [get _index]. cbv zeta.
  destruct (index_of_entry (first_entry_bytes file) !! str_lit "keyword")
    as [[start end_] |]; [| reflexivity].
  destruct file; reflexivity.
Qed.

Lemma search_keyword_cached file query padding (r : RAGFileReader) :
  _index r <> ∅ ->
  search_keyword file query padding r
  = match _index r !! str_lit "keyword" with
    | None => (r, inr [])
    | Some (start, end_) =>
        match file with
        | [] => (r, inl ValueError)
        | _ :: _ => (r, search_loop file query padding end_ start [])
        end
    end.
Proof.
  intros Hcached. unfold search_keyword.
  rewrite run_bind. cbn [get]. rewrite (bool_decide_eq_false_2 _ Hcached).
  rewrite run_ret, run_bind. cbn [get].
  destruct (_index r !! str_lit "keyword") as [[start end_] |]; [| reflexivity].
  destruct file; reflexivity.
Qed.

(** X10. [search_keyword] parses the index only when nothing is cached.  A
    reader with a non-empty cache comes out of a search unchanged, whatever
    file it is given, so offsets cached from one file are applied to any
    other; a reader with an empty cache comes out as [parse_index] on that
    file leaves it. *)
Theorem search_parses_only_on_empty_cache
    (file : list byte) (query : str) (padding : Z) (r : RAGFileReader) :
  (_index r <> ∅ -> fst (search_keyword file query padding r) = r)
  /\ (_index r = ∅ ->
      fst (search_keyword file query padding r) = fst (parse_index file r)).
Proof.
  split.
  - intros H. rewrite (search_keyword_cached _ _ _ _ H).
    destruct (_index r !! str_lit "keyword") as [[start end_] |]; [| reflexivity].
    destruct file; reflexivity.
  - intros H. rewrite (search_keyword_empty_cache _ _ _ _ H), parse_index_run.
    cbv zeta.
    destruct (index_of_entry (first_entry_bytes file) !! str_lit "keyword")
      as [[start end_] |]; [| reflexivity].
    destruct file; reflexivity.
Qed.

Lemma search_parses_only_on_empty_cache_witness :
  fst (search_keyword layout_file (str_lit "ab") 8
         {| _index := {[ str_lit "keyword" := (28, 36) ]} |})
  = {| _index := {[ str_lit "keyword" := (28, 36) ]} |}
  /\ fst (search_keyword layout_file (str_lit "ab") 8 new_reader)
     = fst (parse_index layout_file new_reader).
Proof.
  split.
  - apply (search_parses_only_on_empty_cache layout_file (str_lit "ab") 8
             {| _index := {[ str_lit "keyword" := (28, 36) ]} |}).
    cbn [_index]. apply insert_non_empty.
  - apply (search_parses_only_on_empty_cache layout_file (str_lit "ab") 8 new_reader).
    reflexivity.
Defined.

(** ** Files without a keyword entry *)

Lemma first_entry_bytes_short (file : list byte) :
  (length file <= 11)%nat -> first_entry_bytes file = [].
Proof.
  intros Hlen. unfold first_entry_bytes.
  change (Z.to_nat _header_end) with 11%nat.
  now rewrite drop_ge by lia.
Qed.

(** X11. On a file of at most 11 bytes (no header, a truncated header, or a
    header and nothing else) a search on a reader without cache returns the
    empty list and raises nothing, not even on the empty file: the file is
    only mapped once a keyword entry has been found.  With a keyword entry
    already cached, a search on the empty file raises [ValueError]. *)
Theorem search_on_short_file
    (file : list byte) (query : str) (padding start end_ : Z) (r : RAGFileReader) :
  ((length file <= 11)%nat -> _index r = ∅ ->
   search_keyword file query padding r = ({| _index := ∅ |}, inr []))
  /\ (_index r !! str_lit "keyword" = Some (start, end_) ->
      search_keyword [] query padding r = (r, inl ValueError)).
Proof.
  split.
  - intros Hlen Hempty. rewrite (search_keyword_empty_cache _ _ _ _ Hempty).
    rewrite (first_entry_bytes_short _ Hlen). reflexivity.
  - intros Hkw.
    assert (Hcached : _index r <> ∅)
      by (intros H; rewrite H, lookup_empty in Hkw; discriminate).
    rewrite (search_keyword_cached _ _ _ _ Hcached), Hkw. reflexivity.
Qed.

Lemma search_on_short_file_witness :
  search_keyword [] (str_lit "ab") 8 new_reader = ({| _index := ∅ |}, inr [])
  /\ search_keyword [] (str_lit "ab") 8
       {| _index := {[ str_lit "keyword" := (28, 36) ]} |}
     = ({| _index := {[ str_lit "keyword" := (28, 36) ]} |}, inl ValueError).
Proof.
  split.
  - apply (search_on_short_file [] (str_lit "ab") 8 0 0 new_reader).
    + simpl. lia.
    + reflexivity.
  - apply (search_on_short_file [] (str_lit "ab") 8 28 36
             {| _index := {[ str_lit "keyword" := (28, 36) ]} |}).
    cbn [_index]. apply lookup_singleton_eq.
Defined.

(** ** From the writer's index to the reader's *)

(** The file [finalize] writes when at least one section is registered:
    11 bytes, then the first entry and its terminator. *)
Lemma finalized_file_first_entry (w : RAGFileWriter) name s e es :
  offsets_consistent w -> offsets_fit w ->
  index_entries w = (name, s, e) :: es ->
  exists hdr entry rest,
    finalize w = (set_buf (hdr ++ entry ++ x00 :: rest) w,
                  inr (hdr ++ entry ++ x00 :: rest))
    /\ length hdr = 11%nat
    /\ entry_name name
    /\ (0 <= s < 2 ^ 64 /\ 0 <= e < 2 ^ 64)
    /\ encode_utf8 (entry_text name s e) = inr entry.
Proof.
  unfold offsets_consistent, offsets_fit. intros Hinv Hfit Hentries.
  rewrite Hentries in Hinv, Hfit.
  destruct Hinv as (Hname & _ & _ & Hrest).
  apply Forall_cons in Hfit as [[Hs He] Hfit].
  apply section_names_entry_name in Hname.
  destruct (decode_entry_entry_text name s e Hname Hs He) as (entry & Henc & _ & _).
  destruct (index_table_written e es _ ([] ++ entry ++ [x00]) Hrest Hfit)
    as (table & Htable).
  rewrite finalize_run, Hentries. cbn [index_table].
  rewrite format_entry_fits by assumption. cbn [rbind]. rewrite Henc. cbn [rbind].
  rewrite Htable. cbv zeta.
  destruct (placed_table_shape (buf w) (([] ++ entry ++ [x00]) ++ table)) as [H11 _].
  cbv zeta in H11.
  eexists _, entry, _.
  split; [| split; [exact H11 | split; [exact Hname | split; [now split | reflexivity]]]].
  cbn [app]. rewrite <- !app_assoc. cbn [app]. reflexivity.
Qed.

(** X8. After any program of writer calls on a new writer that has registered
    at least one section, the file written by [finalize] gives back, through
    [parse_index], exactly the first registered entry, with its name and
    its two offsets: the table is written over the buffer but its first
    entry always sits at offset 11. *)
Theorem first_registered_entry_is_recovered
    {ndarray : Type} (astype_tobytes : ndarray -> dtype -> list byte)
    (host : byteorder) (calls : list (writer_call ndarray))
    (name : str) (s e : Z) (es : list (str * Z * Z)) (r : RAGFileReader) :
  index_entries (after_calls astype_tobytes (new_writer host) calls)
  = (name, s, e) :: es ->
  exists w' file,
    finalize (after_calls astype_tobytes (new_writer host) calls) = (w', inr file)
    /\ parse_index file r = ({| _index := {[ name := (s, e) ]} |}, inr tt).
Proof.
  intros Hentries.
  destruct (finalized_file_first_entry _ name s e es
              (offsets_consistent_after_calls astype_tobytes _ calls
                 (offsets_consistent_new host))
              (offsets_fit_after_calls astype_tobytes _ calls
                 (offsets_fit_new host)) Hentries)
    as (hdr & entry & rest & Hrun & Hhdr & Hname & [Hs He] & Henc).
  do 2 eexists. split; [exact Hrun |].
  now apply parse_index_written_entry.
Qed.

Lemma first_registered_entry_is_recovered_witness :
  exists w' file,
    finalize (after_calls raw_tobytes (new_writer Little)
                [CallHeader 0 1 0; CallKeywordSection [ab_xy] 8;
                 CallEmbeddingSection [cd_ww; ab_zz] 8 16])
    = (w', inr file)
    /\ parse_index file new_reader
       = ({| _index := {[ str_lit "keyword" := (28, 36) ]} |}, inr tt).
Proof.
  apply (first_registered_entry_is_recovered raw_tobytes Little
           [CallHeader 0 1 0; CallKeywordSection [ab_xy] 8;
            CallEmbeddingSection [cd_ww; ab_zz] 8 16]
           (str_lit "keyword") 28 36 [(str_lit "vector", 54, 70)] new_reader).
  vm_compute. reflexivity.
Defined.

(** X9. When the first section a program registers is an embedding section,
    keyword search on the finalized file returns the empty list for every
    query, whatever keyword sections were written after it: the reader
    caches the "vector" entry alone and finds no "keyword" entry. *)
Theorem keyword_search_misses_later_sections
    {ndarray : Type} (astype_tobytes : ndarray -> dtype -> list byte)
    (host : byteorder) (calls : list (writer_call ndarray))
    (s e : Z) (es : list (str * Z * Z)) (query : str) (padding : Z) :
  index_entries (after_calls astype_tobytes (new_writer host) calls)
  = (str_lit "vector", s, e) :: es ->
  exists w' file,
    finalize (after_calls astype_tobytes (new_writer host) calls) = (w', inr file)
    /\ search_keyword file query padding new_reader
       = ({| _index := {[ str_lit "vector" := (s, e) ]} |}, inr []).
Proof.
  intros Hentries.
  destruct (finalized_file_first_entry _ (str_lit "vector") s e es
              (offsets_consistent_after_calls astype_tobytes _ calls
                 (offsets_consistent_new host))
              (offsets_fit_after_calls astype_tobytes _ calls
                 (offsets_fit_new host)) Hentries)
    as (hdr & entry & rest & Hrun & Hhdr & Hname & [Hs He] & Henc).
  do 2 eexists. split; [exact Hrun |].
  rewrite search_keyword_empty_cache by reflexivity.
  destruct (parse_index_written_entry hdr (str_lit "vector") s e entry rest
              new_reader Hhdr Hname Hs He Henc) as [_ Hparse].
  rewrite parse_index_run in Hparse. injection Hparse as Hidx.
  cbv zeta. rewrite Hidx.
  rewrite lookup_singleton_ne by discriminate. reflexivity.
Qed.

Lemma keyword_search_misses_later_sections_witness :
  exists w' file,
    finalize (after_calls raw_tobytes (new_writer Little)
                [CallHeader 0 1 0; CallEmbeddingSection [cd_ww] 8 16;
                 CallKeywordSection [ab_xy] 8])
    = (w', inr file)
    /\ search_keyword file (str_lit "ab") 8 new_reader
       = ({| _index := {[ str_lit "vector" := (29, 37) ]} |}, inr []).
Proof.
  apply (keyword_search_misses_later_sections raw_tobytes Little
           [CallHeader 0 1 0; CallEmbeddingSection [cd_ww] 8 16;
            CallKeywordSection [ab_xy] 8]
           29 37 [(str_lit "keyword", 54, 62)] (str_lit "ab") 8).
  vm_compute. reflexivity.
Defined.

(** ** The header is never read *)

Lemma py_slice_past_prefix {A} (pre pre' rest : list A) (lo hi : Z) :
  length pre = length pre' -> Z.of_nat (length pre) <= lo ->
  py_slice (pre ++ rest) lo hi = py_slice (pre' ++ rest) lo hi.
Proof.
  intros Hlen Hlo. unfold py_slice. rewrite !length_app, <- Hlen.
  set (len := Z.of_nat (length pre + length rest)).
  assert (Hadj : (length pre <= Z.to_nat (adjust_index len lo))%nat).
  { unfold adjust_index, len. destruct (Z.ltb_spec lo 0); lia. }
  f_equal.
  rewrite !drop_app_ge by lia. now rewrite Hlen.
Qed.

Lemma search_loop_past_prefix (pre pre' rest : list byte) query padding end_ :
  length pre = length pre' ->
  forall (n : nat) pos results,
    Z.to_nat (end_ - pos) = n -> Z.of_nat (length pre) <= pos ->
    search_loop (pre ++ rest) query padding end_ pos results
    = search_loop (pre' ++ rest) query padding end_ pos results.
Proof.
  intros Hlen n. induction n as [n IH] using lt_wf_ind.
  intros pos results Hn Hpos.
  rewrite (search_loop_step (pre ++ rest)), (search_loop_step (pre' ++ rest)).
  destruct (Z_lt_dec pos end_) as [Hlt | _]; [| reflexivity].
  rewrite (py_slice_past_prefix pre pre' rest) by assumption.
  destruct (py_slice (pre' ++ rest) pos (pos + padding * 256)) as [| b block];
    [reflexivity |].
  destruct (scan_records _ _ results) as [e | results']; [reflexivity |].
  apply (IH (Z.to_nat (end_ - (pos + Z.of_nat (length (b :: block)))))).
  - cbn [length]. lia.
  - reflexivity.
  - lia.
Qed.

(** X12. The reader never looks at the magic, the version or the endianness
    flag.  Two files that differ only in their first 11 bytes give the same
    index, and the same search result whenever the keyword entry starts at
    or after offset 11: a file with a wrong magic is read like a valid
    one. *)
Theorem reader_ignores_header
    (hdr hdr' rest : list byte) (query : str) (padding start end_ : Z)
    (r : RAGFileReader) :
  length hdr = 11%nat -> length hdr' = 11%nat ->
  parse_index (hdr ++ rest) r = parse_index (hdr' ++ rest) r
  /\ (_index (fst (parse_index (hdr ++ rest) r)) !! str_lit "keyword"
      = Some (start, end_) ->
      11 <= start ->
      search_keyword (hdr ++ rest) query padding new_reader
      = search_keyword (hdr' ++ rest) query padding new_reader).
Proof.
  intros Hhdr Hhdr'.
  assert (Hfirst : first_entry_bytes (hdr ++ rest) = first_entry_bytes (hdr' ++ rest)).
  { unfold first_entry_bytes. change (Z.to_nat _header_end) with 11%nat.
    now rewrite !drop_app_length' by congruence. }
  split.
  - now rewrite !parse_index_run, Hfirst.
  - rewrite parse_index_run. cbn [fst _index]. intros Hkw Hstart.
    rewrite !search_keyword_empty_cache by reflexivity. cbv zeta.
    rewrite <- Hfirst, Hkw.
    destruct hdr as [| b hdr0]; [discriminate |].
    destruct hdr' as [| b' hdr0']; [discriminate |].
    cbn [app]. f_equal.
    apply (search_loop_past_prefix (b :: hdr0) (b' :: hdr0') rest query padding end_
             ltac:(congruence) _ start [] eq_refl).
    rewrite Hhdr. lia.
Qed.

Lemma reader_ignores_header_witness :
  let rest := skipn 11 layout_file in
  parse_index (sample_header ++ rest) new_reader
  = parse_index (repeat x00 11 ++ rest) new_reader
  /\ search_keyword (sample_header ++ rest) (str_lit "ab") 8 new_reader
     = search_keyword (repeat x00 11 ++ rest) (str_lit "ab") 8 new_reader.
Proof.
  destruct (reader_ignores_header sample_header (repeat x00 11)
              (skipn 11 layout_file) (str_lit "ab") 8 60 68 new_reader
              eq_refl eq_refl) as [Hparse Hsearch].
  split; [exact Hparse |].
  apply Hsearch; [vm_compute; reflexivity | lia].
Defined.

(** ** Parsing again *)

(** X13. [parse_index] starts from an empty mapping: what it caches depends on
    the file alone, not on what the reader held, so a second parse of the
    same file changes nothing and a parse of another file keeps no entry of
    the first. *)
Theorem parse_index_forgets_the_cache (file : list byte) (r r' : RAGFileReader) :
  parse_index file r = parse_index file r'
  /\ parse_index file (fst (parse_index file r)) = parse_index file r.
Proof. split; now rewrite !parse_index_run. Qed.

(** ** The end of the section *)

Lemma py_slice_tail {A} (l : list A) (lo hi : Z) :
  0 <= lo -> Z.of_nat (length l) <= hi ->
  py_slice l lo hi = skipn (Z.to_nat lo) l.
Proof.
  intros Hlo Hhi. unfold py_slice, adjust_index.
  destruct (Z.ltb_spec lo 0); [lia |]. destruct (Z.ltb_spec hi 0); [lia |].
  rewrite Z.min_r by lia.
  destruct (Z_le_dec lo (Z.of_nat (length l))) as [Hin | Hout].
  - rewrite Z.min_l by lia. apply firstn_all2. rewrite length_drop. lia.
  - rewrite Z.min_r by lia.
    rewrite !drop_ge by lia. now destruct (Z.to_nat _).
Qed.

Lemma search_loop_one_window (file : list byte) query padding start end_ :
  0 <= start < Z.of_nat (length file) ->
  Z.of_nat (length file) <= start + padding * 256 ->
  start < end_ ->
  search_loop file query padding end_ start []
  = scan_records query (py_split [x00] (skipn (Z.to_nat start) file)) [].
Proof.
  intros Hstart Hwin Hlt. rewrite search_loop_step.
  destruct (Z_lt_dec start end_) as [_ |]; [| lia].
  rewrite py_slice_tail by lia.
  assert (Htail : Z.of_nat (length (skipn (Z.to_nat start) file))
                  = Z.of_nat (length file) - start)
    by (rewrite length_drop; lia).
  destruct (skipn (Z.to_nat start) file) as [| b block] eqn:Hblock;
    [cbn [length] in Htail; lia |].
  destruct (scan_records _ _ []) as [err | results]; [reflexivity |].
  rewrite search_loop_step.
  destruct (Z_lt_dec _ end_) as [_ | _]; [| reflexivity].
  rewrite py_slice_tail by lia.
  rewrite drop_ge by lia. reflexivity.
Qed.

Lemma cached_keyword_nonempty (r : RAGFileReader) start end_ :
  _index r !! str_lit "keyword" = Some (start, end_) -> _index r <> ∅.
Proof. intros Hkw H. rewrite H, lookup_empty in Hkw. discriminate. Qed.

(** X14. In a file that one window covers from the start of the keyword section
    on, the end offset of the entry plays no part: the first window is read
    up to the end of the file and the loop stops after it.  Two readers
    whose cached keyword entries start at the same offset get the same
    result, the records of the whole rest of the file, whatever end offsets
    beyond the start they hold. *)
Theorem search_ignores_section_end
    (file : list byte) (query : str) (padding start end_ end_' : Z)
    (r r' : RAGFileReader) :
  _index r !! str_lit "keyword" = Some (start, end_) ->
  _index r' !! str_lit "keyword" = Some (start, end_') ->
  0 <= start < Z.of_nat (length file) ->
  Z.of_nat (length file) <= start + padding * 256 ->
  start < end_ -> start < end_' ->
  snd (search_keyword file query padding r)
  = snd (search_keyword file query padding r')
  /\ snd (search_keyword file query padding r)
     = scan_records query (py_split [x00] (skipn (Z.to_nat start) file)) [].
Proof.
  intros Hr Hr' Hstart Hwin He He'.
  rewrite (search_keyword_cached _ _ _ r (cached_keyword_nonempty _ _ _ Hr)), Hr.
  rewrite (search_keyword_cached _ _ _ r' (cached_keyword_nonempty _ _ _ Hr')), Hr'.
  destruct file as [| b0 file0] eqn:Hfile; [cbn [length] in Hstart; lia |].
  rewrite <- Hfile in *. cbn [snd].
  rewrite !search_loop_one_window by assumption. split; reflexivity.
Qed.

Lemma search_ignores_section_end_witness :
  snd (search_keyword layout_file (str_lit "ab") 8
         {| _index := {[ str_lit "keyword" := (60, 68) ]} |})
  = snd (search_keyword layout_file (str_lit "ab") 8
           {| _index := {[ str_lit "keyword" := (60, 61) ]} |})
  /\ snd (search_keyword layout_file (str_lit "ab") 8
            {| _index := {[ str_lit "keyword" := (60, 68) ]} |})
     = scan_records (str_lit "ab")
         (py_split [x00] (skipn (Z.to_nat 60) layout_file)) [].
Proof.
  apply (search_ignores_section_end layout_file (str_lit "ab") 8 60 68 61
           {| _index := {[ str_lit "keyword" := (60, 68) ]} |}
           {| _index := {[ str_lit "keyword" := (60, 61) ]} |}).
  - apply lookup_singleton_eq.
  - apply lookup_singleton_eq.
  - vm_compute. split; [discriminate | reflexivity].
  - vm_compute. discriminate.
  - lia.
  - lia.
Defined.

(** ** Records that are not text *)

Lemma split_go_first_piece (l cur : list byte) :
  exists r1 more, split_go [x00] 0 cur l = (rev cur ++ r1) :: more.
Proof.
  revert cur. induction l as [| x l IH]; intros cur.
  - exists [], []. cbn. now rewrite app_nil_r.
  - cbn [split_go is_prefix]. destruct (bool_decide (x00 = x)); cbn [andb].
    + exists [], (split_go [x00] (length [x00] - 1) [] l). now rewrite app_nil_r.
    + destruct (IH (x :: cur)) as (r1 & more & ->).
      exists (x :: r1), more. cbn [rev]. now rewrite <- app_assoc.
Qed.

Lemma split_go_keyed_piece (key tail cur : list byte) :
  x00 ∉ key ->
  exists r1 more,
    split_go [x00] 0 cur (key ++ x2d :: tail) = (rev cur ++ key ++ x2d :: r1) :: more.
Proof.
  revert cur. induction key as [| k key IH]; intros cur Hnul.
  - cbn [app split_go is_prefix].
    rewrite bool_decide_eq_false_2 by discriminate. cbn [andb].
    destruct (split_go_first_piece tail (x2d :: cur)) as (r1 & more & ->).
    exists r1, more. cbn [rev]. now rewrite <- app_assoc.
  - apply not_elem_of_cons in Hnul as [Hk Hnul].
    cbn [app split_go is_prefix].
    rewrite bool_decide_eq_false_2 by congruence. cbn [andb].
    destruct (IH (k :: cur) Hnul) as (r1 & more & ->).
    exists r1, more. cbn [rev]. now rewrite <- app_assoc.
Qed.

Lemma py_slice_window {A} (pre rest : list A) (lo width : Z) :
  lo = Z.of_nat (length pre) -> 0 <= width ->
  py_slice (pre ++ rest) lo (lo + width) = firstn (Z.to_nat width) rest.
Proof.
  intros -> Hw. unfold py_slice, adjust_index. rewrite length_app.
  destruct (Z.ltb_spec (Z.of_nat (length pre)) 0); [lia |].
  destruct (Z.ltb_spec (Z.of_nat (length pre) + width) 0); [lia |].
  replace (Z.to_nat (Z.min (Z.of_nat (length pre)) _)) with (length pre) by lia.
  rewrite drop_app_length.
  destruct (Z_le_dec width (Z.of_nat (length rest))) as [Hin | Hout].
  - f_equal. lia.
  - rewrite !firstn_all2 by lia. reflexivity.
Qed.

(** X15. [search_keyword] has no handler around its decoding.  When the window
    read at the start of the keyword section begins with bytes that hold no
    0x00 and no '-', are not valid UTF-8 and are followed by a '-', the
    search raises [UnicodeDecodeError] for every query, and the reader is
    left as it was. *)
Theorem search_raises_on_undecodable_key
    (pre key tail : list byte) (query : str) (padding start end_ : Z)
    (r : RAGFileReader) :
  _index r !! str_lit "keyword" = Some (start, end_) ->
  start = Z.of_nat (length pre) -> start < end_ ->
  x00 ∉ key -> x2d ∉ key ->
  decode_utf8 key = inl UnicodeDecodeError ->
  Z.of_nat (length key) < padding * 256 ->
  search_keyword (pre ++ key ++ x2d :: tail) query padding r
  = (r, inl UnicodeDecodeError).
Proof.
  intros Hkw Hstart Hlt Hnul Hdash Hdec Hwin.
  rewrite (search_keyword_cached _ _ _ r (cached_keyword_nonempty _ _ _ Hkw)), Hkw.
  destruct (pre ++ key ++ x2d :: tail) as [| b0 file0] eqn:Hfile.
  { apply app_eq_nil in Hfile as [_ Hfile]. apply app_eq_nil in Hfile as [_ Hfile].
    discriminate. }
  rewrite <- Hfile. f_equal.
  rewrite search_loop_step.
  destruct (Z_lt_dec start end_) as [_ |]; [| lia].
  rewrite py_slice_window by (assumption || lia).
  rewrite firstn_app.
  rewrite (firstn_all2 key) by lia.
  replace (Z.to_nat (padding * 256) - length key)%nat
    with (S (Z.to_nat (padding * 256) - length key - 1)) by lia.
  cbn [firstn].
  set (tail' := firstn _ tail).
  destruct (split_go_keyed_piece key tail' [] Hnul) as (r1 & more & Hsplit).
  cbn [rev app] in Hsplit.
  destruct (key ++ x2d :: tail') as [| b block] eqn:Hblock.
  { apply app_eq_nil in Hblock as [_ Hblock]. discriminate. }
  unfold py_split. rewrite Hsplit. cbn [scan_records].
  change (bytes_lit "-") with [x2d].
  rewrite contains_found. cbn [negb]. unfold py_split_once.
  rewrite split_once_go_found by assumption.
  cbn [rev app]. rewrite Hdec. reflexivity.
Qed.

Lemma search_raises_on_undecodable_key_witness :
  search_keyword (sample_header ++ [xff; x2d; x00]) (str_lit "ab") 8
    {| _index := {[ str_lit "keyword" := (11, 14) ]} |}
  = ({| _index := {[ str_lit "keyword" := (11, 14) ]} |}, inl UnicodeDecodeError).
Proof.
  apply (search_raises_on_undecodable_key sample_header [xff] [x00] (str_lit "ab")
           8 11 14 {| _index := {[ str_lit "keyword" := (11, 14) ]} |}).
  - apply lookup_singleton_eq.
  - reflexivity.
  - lia.
  - apply (bool_decide_unpack _). vm_compute. exact I.
  - apply (bool_decide_unpack _). vm_compute. exact I.
  - reflexivity.
  - vm_compute. reflexivity.
Defined.

(** * Writing, then searching *)

(** Two records under the same keyword both come back, in the order they
    were written. *)
Lemma search_agrees_when_separated_witness :
  exists w file,
    write_keyword_file Little 0 1 0 ab_cd_ab 4 = (w, inr file)
    /\ snd (search_keyword file (str_lit "ab") 4 new_reader)
       = inr (reference_search (str_lit "ab") ab_cd_ab).
Proof.
  apply (search_agrees_when_separated Little 0 1 0 ab_cd_ab 4 (str_lit "ab")).
  - rewrite !elem_of_cons. auto.
  - lia.
  - lia.
  - lia.
  - repeat constructor; try (cbv; reflexivity);
      try (apply (bool_decide_unpack _); vm_compute; exact I);
      vm_compute; discriminate.
  - vm_compute. reflexivity.
Defined.

(** * The debugging helpers *)

Lemma hex_length (bs : list byte) : length (hex bs) = (2 * length bs)%nat.
Proof.
  unfold hex. induction bs as [| b bs IH]; [reflexivity |].
  cbn [flat_map]. rewrite length_app, IH. cbn [length]. lia.
Qed.

(** [l[:n]] for a length that is not negative. *)
Lemma py_slice_prefix {A} (l : list A) (n : Z) :
  0 <= n -> py_slice l 0 n = firstn (Z.to_nat n) l.
Proof.
  intros Hn. unfold py_slice, adjust_index.
  destruct (Z.ltb_spec 0 0); [lia |]. destruct (Z.ltb_spec n 0); [lia |].
  rewrite (Z.min_l 0) by lia. change (Z.to_nat 0) with 0%nat. rewrite drop_0.
  rewrite Z.sub_0_r.
  destruct (Z_le_dec n (Z.of_nat (length l))).
  - now rewrite Z.min_l by lia.
  - rewrite Z.min_r by lia. rewrite !firstn_all2 by lia. reflexivity.
Qed.

(** X17. For a length that is not negative the two [hexdump] methods print the
    same text on the same bytes, two hexadecimal digits for each of the
    first [length] bytes, and change nothing.  They part for negative
    lengths: the writer's slice drops bytes from the end, while the reader's
    [read] returns the whole file for -1 and raises [ValueError] below. *)
Theorem hexdumps_agree_on_nonnegative_lengths
    (w : RAGFileWriter) (r : RAGFileReader) (n : Z) :
  (0 <= n ->
   writer_hexdump n w = (w, inr (hex (firstn (Z.to_nat n) (buf w))))
   /\ reader_hexdump (buf w) n r = (r, inr (hex (firstn (Z.to_nat n) (buf w))))
   /\ Z.of_nat (length (hex (firstn (Z.to_nat n) (buf w))))
      = 2 * Z.min n (Z.of_nat (length (buf w))))
  /\ (n < -1 -> reader_hexdump (buf w) n r = (r, inl ValueError))
  /\ reader_hexdump (buf w) (-1) r = (r, inr (hex (buf w)))
  /\ writer_hexdump (-1) w = (w, inr (hex (removelast (buf w)))).
Proof.
  split; [| split; [| split]].
  - intros Hn. split; [| split].
    + unfold writer_hexdump. rewrite run_bind. cbn [get]. unfold ret.
      now rewrite py_slice_prefix.
    + unfold reader_hexdump, file_read. rewrite run_bind. cbn [lift].
      destruct (Z.ltb_spec n (-1)); [lia |]. destruct (Z.eqb_spec n (-1)); [lia |].
      reflexivity.
    + rewrite hex_length, length_take. lia.
  - intros Hn. unfold reader_hexdump, file_read. rewrite run_bind. cbn [lift].
    destruct (Z.ltb_spec n (-1)); [reflexivity | lia].
  - reflexivity.
  - unfold writer_hexdump. rewrite run_bind. cbn [get]. unfold ret.
    destruct (buf w) as [| b l _] using rev_ind; [reflexivity |].
    rewrite py_slice_drop_last, removelast_last. reflexivity.
Qed.

Lemma hexdumps_agree_on_nonnegative_lengths_witness :
  writer_hexdump 256 (set_buf layout_file (new_writer Little))
  = (set_buf layout_file (new_writer Little),
     inr (hex (firstn (Z.to_nat 256) layout_file)))
  /\ reader_hexdump layout_file (-2) new_reader = (new_reader, inl ValueError).
Proof.
  split.
  - apply (hexdumps_agree_on_nonnegative_lengths
             (set_buf layout_file (new_writer Little)) new_reader 256). lia.
  - apply (hexdumps_agree_on_nonnegative_lengths
             (set_buf layout_file (new_writer Little)) new_reader (-2)). lia.
Defined.

(** * A record longer than the window *)

Lemma contains_absent (c : byte) (l : list byte) : c ∉ l -> contains [c] l = false.
Proof.
  induction l as [| x l IH]; intros Hc; [reflexivity |].
  apply not_elem_of_cons in Hc as [Hx Hl]. cbn [contains is_prefix].
  rewrite bool_decide_eq_false_2 by assumption. cbn [andb orb]. now apply IH.
Qed.

Lemma not_elem_of_rev {A} (x : A) (l : list A) : x ∉ l -> x ∉ rev l.
Proof.
  intros Hx Hin. apply Hx. apply list_elem_of_In. apply in_rev.
  now apply list_elem_of_In.
Qed.

Lemma split_go_pieces (c x : byte) (l cur : list byte) :
  x ∉ cur -> x ∉ l -> Forall (fun piece => x ∉ piece) (split_go [c] 0 cur l).
Proof.
  revert cur. induction l as [| y l IH]; intros cur Hcur Hl.
  - cbn. constructor; [| constructor]. now apply not_elem_of_rev.
  - apply not_elem_of_cons in Hl as [Hy Hl]. cbn [split_go is_prefix].
    destruct (bool_decide (c = y)); cbn [andb].
    + constructor; [now apply not_elem_of_rev |].
      apply IH; [apply not_elem_of_nil | assumption].
    + apply IH; [| assumption]. now apply not_elem_of_cons.
Qed.

Lemma scan_records_no_dash query pieces results :
  Forall (fun piece => x2d ∉ piece) pieces ->
  scan_records query pieces results = inr results.
Proof.
  induction 1 as [| piece pieces Hpiece _ IH]; [reflexivity |].
  cbn [scan_records]. change (bytes_lit "-") with [x2d].
  rewrite contains_absent by assumption. exact IH.
Qed.

Lemma py_slice_elements {A} (l : list A) (lo hi : Z) (x : A) :
  0 <= lo -> x ∉ skipn (Z.to_nat lo) l -> x ∉ py_slice l lo hi.
Proof.
  intros Hlo Hx Hin. apply Hx. unfold py_slice, adjust_index in Hin.
  destruct (Z.ltb_spec lo 0); [lia |].
  apply (subseteq_take _ _ x) in Hin.
  destruct (Z_le_dec lo (Z.of_nat (length l))).
  - now rewrite Z.min_l in Hin by lia.
  - rewrite Z.min_r in Hin by lia. rewrite drop_ge in Hin by lia.
    now apply elem_of_nil in Hin.
Qed.

Lemma search_loop_no_dash (file : list byte) query padding end_ :
  forall (n : nat) pos results,
    Z.to_nat (end_ - pos) = n -> 0 <= pos ->
    x2d ∉ skipn (Z.to_nat pos) file ->
    search_loop file query padding end_ pos results = inr results.
Proof.
  intros n. induction n as [n IH] using lt_wf_ind.
  intros pos results Hn Hpos Hdash. rewrite search_loop_step.
  destruct (Z_lt_dec pos end_) as [Hlt | _]; [| reflexivity].
  pose proof (py_slice_elements file pos (pos + padding * 256) x2d Hpos Hdash) as Hblock.
  destruct (py_slice file pos (pos + padding * 256)) as [| b block]; [reflexivity |].
  rewrite scan_records_no_dash
    by (apply split_go_pieces; [apply not_elem_of_nil | assumption]).
  apply (IH (Z.to_nat (end_ - (pos + Z.of_nat (length (b :: block)))))).
  - cbn [length]. lia.
  - reflexivity.
  - lia.
  - intros Hin. apply Hdash.
    replace (Z.to_nat (pos + Z.of_nat (length (b :: block))))
      with (Z.to_nat pos + length (b :: block))%nat in Hin by lia.
    rewrite <- drop_drop in Hin. now apply (subseteq_drop _ _ x2d) in Hin.
Qed.

(** X18. A record longer than the window is not dropped: it is returned
    with its content cut at the window boundary.  When the keyword section
    starts with a record of ASCII text whose keyword and '-' fit in the
    first window but whose content does not, and no other '-' follows in
    the file, the search for that keyword returns one pair, whose content
    is the part of the original content that fell into the first window. *)
Theorem long_record_is_returned_truncated
    (pre rest : list byte) (kw content_ : str) (padding start end_ : Z)
    (r : RAGFileReader) :
  _index r !! str_lit "keyword" = Some (start, end_) ->
  start = Z.of_nat (length pre) -> start < end_ ->
  Forall (fun c => (0 < c < 128)%N) kw -> 45%N ∉ kw ->
  Forall (fun c => (0 < c < 128)%N) content_ -> 45%N ∉ content_ ->
  x2d ∉ rest ->
  let room := (Z.to_nat (padding * 256) - length kw - 1)%nat in
  Z.of_nat (length kw) < padding * 256 ->
  (room < length content_)%nat ->
  snd (search_keyword
         (pre ++ map byte_of_N kw ++ x2d :: map byte_of_N content_ ++ rest)
         kw padding r)
  = inr [{| keyword := kw; content := firstn room content_ |}].
Proof.
  intros Hidx Hstart Hlt Hkw Hkdash Hct Hcdash Hrest room Hwin Hlong.
  set (key := map byte_of_N kw). set (body := map byte_of_N content_).
  assert (Hkey_nul : x00 ∉ key).
  { change x00 with (byte_of_N 0). apply byte_of_N_absent; [lia | assumption |].
    intros Hin. rewrite Forall_forall in Hkw. specialize (Hkw _ Hin). lia. }
  assert (Hkey_dash : x2d ∉ key)
    by (change x2d with (byte_of_N 45); apply byte_of_N_absent; [lia | assumption ..]).
  assert (Hbody_nul : x00 ∉ body).
  { change x00 with (byte_of_N 0). apply byte_of_N_absent; [lia | assumption |].
    intros Hin. rewrite Forall_forall in Hct. specialize (Hct _ Hin). lia. }
  assert (Hbody_dash : x2d ∉ body)
    by (change x2d with (byte_of_N 45); apply byte_of_N_absent; [lia | assumption ..]).
  rewrite (search_keyword_cached _ _ _ r (cached_keyword_nonempty _ _ _ Hidx)), Hidx.
  destruct (pre ++ key ++ x2d :: body ++ rest) as [| b0 file0] eqn:Hfile.
  { apply app_eq_nil in Hfile as [_ Hfile]. apply app_eq_nil in Hfile as [_ Hfile].
    discriminate. }
  rewrite <- Hfile. cbn [snd].
  rewrite search_loop_step.
  destruct (Z_lt_dec start end_) as [_ |]; [| lia].
  rewrite py_slice_window by (assumption || lia).
  assert (Hklen : length key = length kw) by (unfold key; apply length_map).
  assert (Hblen : length body = length content_) by (unfold body; apply length_map).
  assert (Hblock : firstn (Z.to_nat (padding * 256)) (key ++ x2d :: body ++ rest)
                   = key ++ x2d :: firstn room body).
  { rewrite firstn_app, (firstn_all2 key) by lia. f_equal.
    replace (Z.to_nat (padding * 256) - length key)%nat with (S room)
      by (unfold room; lia).
    cbn [firstn]. f_equal. rewrite firstn_app.
    replace (room - length body)%nat with 0%nat by lia.
    cbn [firstn]. now rewrite app_nil_r. }
  rewrite Hblock.
  assert (Hpiece_nul : x00 ∉ key ++ x2d :: firstn room body).
  { rewrite not_elem_of_app, not_elem_of_cons. repeat split; try assumption.
    - discriminate.
    - intros Hin. apply Hbody_nul. now apply (subseteq_take _ _ x00) in Hin. }
  destruct (key ++ x2d :: firstn room body) as [| b block] eqn:Hcons.
  { apply app_eq_nil in Hcons as [_ Hcons]. discriminate. }
  rewrite <- Hcons in *. unfold py_split.
  rewrite split_go_one_absent by assumption. cbn [rev app scan_records].
  change (bytes_lit "-") with [x2d].
  rewrite contains_found. cbn [negb]. unfold py_split_once.
  rewrite split_once_go_found by assumption. cbn [rev app].
  unfold key, body. rewrite firstn_map.
  rewrite !decode_utf8_ascii
    by (apply ascii_of_nonzero; first [assumption | now apply Forall_take]).
  cbn [rbind]. rewrite bool_decide_eq_true_2 by reflexivity.
  rewrite ?decode_utf8_ascii
    by (apply ascii_of_nonzero; first [assumption | now apply Forall_take]).
  cbn [rbind app].
  rewrite <- firstn_map. fold key. fold body.
  apply (search_loop_no_dash _ _ _ _ _ _ _ eq_refl); [lia |].
  replace (Z.to_nat (start + Z.of_nat (length (key ++ x2d :: firstn room body))))
    with (length (pre ++ key ++ x2d :: firstn room body))
    by (rewrite !length_app; lia).
  replace (pre ++ key ++ x2d :: body ++ rest)
    with ((pre ++ key ++ x2d :: firstn room body) ++ skipn room body ++ rest).
  2:{ rewrite <- !app_assoc. cbn [app]. do 3 f_equal.
      rewrite app_assoc, firstn_skipn. reflexivity. }
  rewrite drop_app_length. rewrite not_elem_of_app. split; [| assumption].
  intros Hin. apply Hbody_dash. now apply (subseteq_drop _ _ x2d) in Hin.
Qed.

Lemma long_record_is_returned_truncated_witness :
  snd (search_keyword
         (repeat x00 28 ++ map byte_of_N (str_lit "ab")
            ++ x2d :: map byte_of_N (repeat 120%N 1100) ++ [x00])
         (str_lit "ab") 4 {| _index := {[ str_lit "keyword" := (28, 1132) ]} |})
  = inr [{| keyword := str_lit "ab"; content := repeat 120%N 1021 |}].
Proof.
  apply (long_record_is_returned_truncated (repeat x00 28) [x00] (str_lit "ab")
           (repeat 120%N 1100) 4 28 1132
           {| _index := {[ str_lit "keyword" := (28, 1132) ]} |}).
  - apply lookup_singleton_eq.
  - reflexivity.
  - lia.
  - apply (bool_decide_unpack _). vm_compute. exact I.
  - apply (bool_decide_unpack _). vm_compute. exact I.
  - apply (bool_decide_unpack _). vm_compute. exact I.
  - apply (bool_decide_unpack _). vm_compute. exact I.
  - apply (bool_decide_unpack _). vm_compute. exact I.
  - vm_compute. reflexivity.
  - vm_compute. lia.
Defined.
